(** * apn_storage: layered / caching filesystems and the sync engine

    A shallow embedding of the parts of [apn_storage] that reconcile two
    filesystems ([utils.py], [sync.py]), route writes through a layered
    view ([multifs.py]) and cache reads ([wrapfs/cachefs.py]), together
    with the properties established about them.

    Python values are modelled as follows: paths and file contents are byte
    strings ([string]); sizes are integers ([Z]); exceptions are values of
    [error]; a method that may raise and mutate its object is a function
    [St -> result A * St]. *)

From Stdlib Require Import ZArith Ascii.
From Stdlib Require OrderedTypeEx.
From stdpp Require Import base option list sorting gmap strings.

Local Open Scope Z_scope.

(** ** Exceptions and results *)

(** The exception classes of [fs.errors], the built-in ones and
    [multifs.CreatedDirectory], as far as the code raises or catches them.
    [ParentDirectoryMissingError] and [ResourceNotFoundError] are distinct
    classes, neither a subclass of the other; [sync.upload_file] has an
    [except] clause for each. *)
Inductive error : Type :=
  | ResourceNotFoundError (p : string)
  | ParentDirectoryMissingError (p : string)
  | ResourceInvalidError (p : string)
  | DestinationExistsError (p : string)
  | OperationFailedError (opname p msg : string)
  | OSError (p : string)
  | AttributeError (msg : string)
  | ValueError (msg : string)
  | Exception (msg : string)
  | CreatedDirectory.

Inductive result (A : Type) : Type :=
  | Ok (a : A)
  | Err (e : error).
Arguments Ok {A} a.
Arguments Err {A} e.

(** A method call on an object with state [St]: it returns or raises, and
    leaves the object in a new state either way. *)
Definition M (St A : Type) : Type := St → result A * St.

Definition ret {St A} (a : A) : M St A := λ s, (Ok a, s).

Definition raise {St A} (e : error) : M St A := λ s, (Err e, s).

Definition bind {St A B} (m : M St A) (k : A → M St B) : M St B :=
  λ s, match m s with
       | (Ok a, s') => k a s'
       | (Err e, s') => (Err e, s')
       end.

(** [try: m  except Exception as e: h e] *)
Definition try_except {St A} (m : M St A) (h : error → M St A) : M St A :=
  λ s, match m s with
       | (Ok a, s') => (Ok a, s')
       | (Err e, s') => h e s'
       end.

(** [try: m  finally: f]; an exception raised by [f] replaces the outcome
    of [m]. *)
Definition try_finally {St A} (m : M St A) (f : M St unit) : M St A :=
  λ s, match m s with
       | (r, s') =>
           match f s' with
           | (Ok _, s'') => (r, s'')
           | (Err e, s'') => (Err e, s'')
           end
       end.

Notation "'let*' x ':=' m 'in' k" := (bind m (λ x, k))
  (at level 10, x name, m at level 100, k at level 200, only parsing).
Notation "'let*' ' pat ':=' m 'in' k" := (bind m (λ x, match x with pat => k end))
  (at level 10, pat pattern, m at level 100, k at level 200, only parsing).

(** ** Byte-string comparison

    Python 2 compares [str] values byte by byte; [String.compare] is the
    same lexicographic order on [string]. *)

(** [a == b] *)
Definition str_eq (a b : string) : bool := String.eqb a b.

(** [a > b] *)
Definition str_gt (a b : string) : bool :=
  match String.compare a b with Gt => true | _ => false end.

Definition str_lt (a b : string) : Prop := String.compare a b = Lt.

(** ** The filesystem interface

    The backends ([fs.osfs], [fs.s3fs], [httpfs], ...) are external to the
    modelled code, which only calls their methods; each caller is therefore
    written against the methods it uses, as operations on the state of the
    filesystem objects involved. *)

(** What [utils.walk_fs] calls on [fs].  [ilistdirinfo path fs] is
    [fs.ilistdirinfo(path, full=True)]: pairs of a full path and an info
    dictionary, of which only the ['size'] key is read. *)
Class WalkFS (St : Type) : Type := {
  ilistdirinfo : string → St → list (string * gmap string Z);
  fs_isdir : string → St → bool;
}.

(** What [utils.copy_file] and [sync] call on [source_fs] and [target_fs];
    [W] holds the state of both objects. *)
Class SyncFS (W : Type) : Type := {
  (** [fs.utils.copyfile(source_fs, src, target_fs, dst, overwrite=True, ...)] *)
  copyfile : string → string → W → result unit * W;
  (** [target_fs.makedir(p, recursive=True, allow_recreate=True)] *)
  target_makedir : string → W → result unit * W;
  (** [target_fs.remove(p)] *)
  target_remove : string → W → result unit * W;
  (** [source_fs.exists(p)] *)
  source_exists : string → W → bool;
  (** [source_fs.hassyspath(p)] *)
  source_hassyspath : string → W → bool;
  (** [os.path.islink(syspath) and not os.path.exists(syspath)] for
      [syspath = source_fs.getsyspath(p)] *)
  source_bad_symlink : string → W → bool;
}.

(** What [multifs.MultiFS] calls on a layer; [File] is the type of the file
    objects [open] returns. *)
Class LayerFS (St File : Type) : Type := {
  fs_exists : string → St → bool;
  fs_open : string → string → St → result File * St;
  fs_setcontents : string → string → St → result unit * St;
  fs_makedir : string → bool → bool → St → result unit * St;
  fs_remove : string → St → result unit * St;
}.

(** What the read side of [multifs.MultiFS] calls on a layer, besides
    [exists].  A directory listing is a generator: it yields names and may
    end with an exception. *)
Class ReadFS (St Info : Type) : Type := {
  layer_isdir : string → St → bool;
  layer_isfile : string → St → bool;
  layer_getinfo : string → St → result Info;
  layer_ilistdir : string → St → list string * option error;
}.

(** [isinstance(e, FSError)]: the classes of [fs.errors]. *)
Definition is_FSError (e : error) : bool :=
  match e with
  | ResourceNotFoundError _ | ParentDirectoryMissingError _
  | ResourceInvalidError _ | DestinationExistsError _
  | OperationFailedError _ _ _ => true
  | _ => false
  end.

(** ** os.path *)

Fixpoint drop_while {A} (f : A → bool) (l : list A) : list A :=
  match l with
  | [] => []
  | x :: l' => if f x then drop_while f l' else l
  end.

Definition is_slash (c : Ascii.ascii) : bool := Ascii.eqb c "/"%char.

(** [posixpath.dirname]: the part up to and including the last slash, with
    trailing slashes stripped unless it consists of slashes only. *)
Definition dirname (p : string) : string :=
  let head_rev :=
    drop_while (λ c, negb (is_slash c)) (rev (String.list_ascii_of_string p)) in
  let stripped := drop_while is_slash head_rev in
  String.string_of_list_ascii
    (rev (match stripped with [] => head_rev | _ => stripped end)).

Fixpoint take_while_not_slash (l : list Ascii.ascii) : list Ascii.ascii :=
  match l with
  | [] => []
  | c :: l' => if is_slash c then [] else c :: take_while_not_slash l'
  end.

(** [c in mode] for a one-character [c]. *)
Definition mode_has (c : Ascii.ascii) (mode : string) : bool :=
  existsb (Ascii.eqb c) (String.list_ascii_of_string mode).

(** ['w' in mode or '+' in mode or 'a' in mode] *)
Definition is_write_mode (mode : string) : bool :=
  mode_has "w" mode || mode_has "+" mode || mode_has "a" mode.

(** ** str methods *)

(** [s.lstrip(chars)] and [s.rstrip(chars)]; the characters to strip are
    given by the predicate [chars]. *)
Definition lstrip (chars : Ascii.ascii → bool) (s : string) : string :=
  String.string_of_list_ascii (drop_while chars (String.list_ascii_of_string s)).

Definition rstrip (chars : Ascii.ascii → bool) (s : string) : string :=
  String.string_of_list_ascii
    (rev (drop_while chars (rev (String.list_ascii_of_string s)))).

(** [s[n:]] *)
Fixpoint str_from (n : nat) (s : string) : string :=
  match n, s with
  | O, _ => s
  | S n', String _ s' => str_from n' s'
  | S _, EmptyString => EmptyString
  end.

(** [s.split('/', 1)] for an [s] that contains a slash: the part before
    the first slash and the part after it. *)
Fixpoint split_slash (s : string) : string * string :=
  match s with
  | EmptyString => (EmptyString, EmptyString)
  | String c s' =>
      if is_slash c then (EmptyString, s')
      else let '(a, b) := split_slash s' in (String c a, b)
  end.

(** ** utils.py *)

Module utils.

(** [WalkNode = collections.namedtuple('WalkNode', ('path', 'isdir', 'size'))] *)
Record WalkNode : Type := mkWalkNode {
  path : string;
  isdir : bool;
  size : Z;
}.

Global Instance WalkNode_eq_dec : EqDecision WalkNode.
Proof. solve_decision. Defined.

(** Tuple comparison, as used by [nodes.sort()]: by path, then by
    [isdir] ([False < True]), then by size. *)
Definition node_leb (a b : WalkNode) : bool :=
  match String.compare (path a) (path b) with
  | Lt => true
  | Gt => false
  | Eq =>
      match isdir a, isdir b with
      | false, true => true
      | true, false => false
      | _, _ => size a <=? size b
      end
  end.

Definition node_le (a b : WalkNode) : Prop := Is_true (node_leb a b).

Global Instance node_le_dec : RelDecision node_le.
Proof. intros a b. unfold node_le. apply _. Defined.

Section walk.
Context {St : Type} `{WalkFS St}.

(** [walk_fs(fs, path, sort, max_depth)], the generator read off as the
    list it yields.  [max_depth] is a natural number here; the default
    [float('inf')] behaves on a finite tree as any bound that is at
    least the height of the tree. *)
Fixpoint walk_fs (max_depth : nat) (fs : St) (path0 : string) (sort : bool)
  : list WalkNode :=
  let nodes :=
    map (λ entry : string * gmap string Z,
           mkWalkNode entry.1 (fs_isdir entry.1 fs)
                      (default 0 (entry.2 !! "size")))
        (ilistdirinfo path0 fs) in
  let nodes := if sort then merge_sort node_le nodes else nodes in
  flat_map
    (λ node,
       node ::
         (if isdir node then
            match max_depth with
            | O => []
            | S d => walk_fs d fs (path node) sort
            end
          else []))
    nodes.

Definition walk_files (max_depth : nat) (fs : St) (path0 : string) (sort : bool)
  : list WalkNode :=
  filter (λ node, isdir node = false) (walk_fs max_depth fs path0 sort).

(** The generators themselves.  [walk_fs] lists a directory when the
    generator made for it is first advanced, which for the directory given
    to [walk_files] is the first [next] and for a subdirectory is the
    [next] that moves past its node; a caller that changes the filesystem
    between two [next] calls is therefore shown, in the directories not
    yet entered, the filesystem as it is by then.

    [list_nodes] is the first half of the body of [walk_fs]: the nodes of
    one directory, sorted. *)
Definition list_nodes (fs : St) (path0 : string) (sort : bool) : list WalkNode :=
  let nodes :=
    map (λ entry : string * gmap string Z,
           mkWalkNode entry.1 (fs_isdir entry.1 fs)
                      (default 0 (entry.2 !! "size")))
        (ilistdirinfo path0 fs) in
  if sort then merge_sort node_le nodes else nodes.

(** A [walk_files] generator between two [next] calls.  Before the first
    one nothing has run.  Afterwards it is suspended at its [yield], and
    so are the nested [walk_fs] generators, each inside its [for node in
    nodes] loop: [frames] has for each of them, the innermost first, the
    nodes that loop has yet to visit and its [max_depth].  A generator
    that has ended has no frames. *)
Inductive walk_gen : Type :=
  | Unstarted (path0 : string) (max_depth : nat)
  | Suspended (frames : list (list WalkNode * nat)).

(** The [for node in nodes] loop of a [walk_fs] generator with
    [max_depth], run from the nodes it has yet to visit up to the next
    node that [walk_files] yields, a file: that node and the frames of the
    generators then suspended, from the one that yielded it up to this
    one.  A directory node is passed over by [walk_files]; its children
    are listed then, on [fs] as it is.  [None]: the loop ends without
    such a node. *)
Fixpoint enter (max_depth : nat) (fs : St) (sort : bool)
  : list WalkNode → option (WalkNode * list (list WalkNode * nat)) :=
  fix go (nodes : list WalkNode) :=
    match nodes with
    | [] => None
    | node :: rest =>
        if isdir node then
          match max_depth with
          | O => go rest
          | S d =>
              match enter d fs sort (list_nodes fs (path node) sort) with
              | Some (file, frames) => Some (file, frames ++ [(rest, max_depth)])
              | None => go rest
              end
          end
        else Some (node, [(rest, max_depth)])
    end.

(** Resuming the suspended generators: the innermost runs on; when it
    ends, the one that was iterating over it does. *)
Fixpoint resume (fs : St) (sort : bool) (frames : list (list WalkNode * nat))
  : option WalkNode * list (list WalkNode * nat) :=
  match frames with
  | [] => (None, [])
  | (rest, max_depth) :: frames' =>
      match enter max_depth fs sort rest with
      | Some (file, inner) => (Some file, inner ++ frames')
      | None => resume fs sort frames'
      end
  end.

(** [next(files, None)] for [files = walk_files(fs, path0, sort,
    max_depth)], with [fs] in its present state. *)
Definition walk_files_next (fs : St) (sort : bool) (files : walk_gen)
  : option WalkNode * walk_gen :=
  match files with
  | Unstarted path0 max_depth =>
      let r := resume fs sort [(list_nodes fs path0 sort, max_depth)] in
      (r.1, Suspended r.2)
  | Suspended frames =>
      let r := resume fs sort frames in
      (r.1, Suspended r.2)
  end.

End walk.

Section copy.
Context {W : Type} `{SyncFS W}.

(** [copy_file(source_fs, source_path, target_fs, target_path,
    overwrite=True, create_directory=..., chunk_size=...)] *)
Definition copy_file (source_path target_path : string) (create_directory : bool)
    (w : W) : result unit * W :=
  match copyfile source_path target_path w with
  | (Err (ParentDirectoryMissingError q), w1) =>
      if create_directory then
        match target_makedir (dirname target_path) w1 with
        | (Ok _, w2) => copyfile source_path target_path w2
        | (Err e, w2) => (Err e, w2)
        end
      else (Err (ParentDirectoryMissingError q), w1)
  | r => r
  end.

End copy.

(** [pathcombine(path1, path2)].  [path2.lstrip()] without an argument
    strips the leading whitespace. *)
Definition pathcombine (path1 path2 : string) : string :=
  if bool_decide (path1 = "") then lstrip Ascii.is_space path2
  else rstrip is_slash path1 +:+ "/" +:+ lstrip is_slash path2.

(** What [make_fs_from_string] calls outside the module: [os.path], [repr]
    and the constructors of the filesystem classes.  [Wd] is the state of
    the world they read and change, [Obj] the type of the filesystem
    objects they return. *)
Record Backends (Wd Obj : Type) : Type := mkBackends {
  (** [os.path.expanduser(s)], which reads the environment *)
  expanduser : string → Wd → string;
  (** [repr(s)] *)
  repr : string → string;
  (** [tempfs.TempFS()] *)
  TempFS : M Wd Obj;
  (** [os.path.exists(p)] *)
  os_path_exists : string → Wd → bool;
  (** [osfs.OSFS('/', dir_mode=0775).makedir(path=p, recursive=True,
      allow_recreate=True)] *)
  root_makedir : string → M Wd unit;
  (** [osfs.OSFS(p, dir_mode=0775)] *)
  OSFS : string → M Wd Obj;
  (** [s3fs.S3FS(bucket, key_sync_timeout=None)] *)
  S3FS : string → M Wd Obj;
  (** [fs.makeopendir(path, recursive=True)] *)
  makeopendir : Obj → string → M Wd Obj;
  (** [httpfs.HTTPFS(url)] *)
  HTTPFS : string → M Wd Obj;
}.
Arguments mkBackends {Wd Obj} _ _ _ _ _ _ _ _ _.
Arguments expanduser {Wd Obj} _ _ _.
Arguments repr {Wd Obj} _ _.
Arguments TempFS {Wd Obj} _ _.
Arguments os_path_exists {Wd Obj} _ _ _.
Arguments root_makedir {Wd Obj} _ _ _.
Arguments OSFS {Wd Obj} _ _ _.
Arguments S3FS {Wd Obj} _ _ _.
Arguments makeopendir {Wd Obj} _ _ _ _.
Arguments HTTPFS {Wd Obj} _ _ _.

Section make_fs.
Context {Wd Obj : Type} (B : Backends Wd Obj).

(** The branches of [make_fs_from_string] that build a new object for a
    string that is not in the cache. *)
Definition new_fs (string_ : string) : M Wd Obj :=
  if String.prefix "/" string_ then
    let* _ := (λ wd, if os_path_exists B string_ wd then (Ok tt, wd)
                     else root_makedir B string_ wd) in
    OSFS B string_
  else if String.prefix "s3:" string_ then
    let s3_bucket := str_from 3 string_ in
    let '(s3_bucket, path) :=
      if mode_has "/" s3_bucket then split_slash s3_bucket
      else (s3_bucket, EmptyString) in
    let* fs := S3FS B s3_bucket in
    if bool_decide (path = "") then ret fs
    else makeopendir B fs path
  else if String.prefix "http://" string_ then
    HTTPFS B string_
  else
    raise (ValueError ("Unsupported storage string " +:+ repr B string_)).

(** [make_fs_from_string(string)], the argument written [string_].  The
    default argument [_cache={}] is one dictionary shared by all calls; it
    is the first component of the state. *)
Definition make_fs_from_string (string_ : string) : M (gmap string Obj * Wd) Obj :=
  λ st,
    if bool_decide (string_ = "tempfs") then
      match TempFS B st.2 with (r, wd) => (r, (st.1, wd)) end
    else
      let string_ :=
        if String.prefix "~/" string_ then expanduser B string_ st.2 else string_ in
      match st.1 !! string_ with
      | Some fs => (Ok fs, st)
      | None =>
          match new_fs string_ st.2 with
          | (Ok fs, wd) => (Ok fs, (<[string_ := fs]> st.1, wd))
          | (Err e, wd) => (Err e, (st.1, wd))
          end
      end.

End make_fs.

End utils.

(** ** sync.py: the diff generator *)

Module sync.

(** The first component of a yielded tuple is one of the three module-level
    functions [upload_file], [delete_file], [skip_file], compared with
    [is]; the constructors stand for these function objects. *)
Inductive action_func : Type := Upload | Delete | Skip.

Global Instance action_func_eq_dec : EqDecision action_func.
Proof. solve_decision. Defined.

Definition action : Type := action_func * string.

(** [next(iterator, None)] on an iterator over a finite sequence. *)
Definition next {A} (it : list A) : option A * list A :=
  match it with
  | [] => (None, [])
  | x :: it' => (Some x, it')
  end.

(** The local variables of a suspended [_get_sync_actions] generator. *)
Record gen_state : Type := mkGen {
  sfile : option utils.WalkNode;
  tfile : option utils.WalkNode;
  source_files : list utils.WalkNode;
  target_files : list utils.WalkNode;
}.

(** The two [next] calls that precede the loop. *)
Definition gen_init (source_files target_files : list utils.WalkNode) : gen_state :=
  let '(sfile, source_files) := next source_files in
  let '(tfile, target_files) := next target_files in
  mkGen sfile tfile source_files target_files.

Definition advance_source (st : gen_state) : gen_state :=
  let '(sfile, source_files) := next (source_files st) in
  mkGen sfile (tfile st) source_files (target_files st).

Definition advance_target (st : gen_state) : gen_state :=
  let '(tfile, target_files) := next (target_files st) in
  mkGen (sfile st) tfile (source_files st) target_files.

Inductive step_result : Type :=
  | Yield (a : action) (st : gen_state)
  | Raise (e : error)
  | StopIteration.

(** One evaluation of the [while sfile or tfile] test followed by one loop
    body.  A [WalkNode] is a non-empty tuple and hence truthy, so the test
    fails exactly when both variables are [None]. *)
Definition gen_step (st : gen_state) : step_result :=
  match sfile st, tfile st with
  | None, None => StopIteration
  | None, Some t =>
      Yield (Delete, utils.path t) (advance_target st)
  | Some s, None =>
      Yield (Upload, utils.path s) (advance_source st)
  | Some s, Some t =>
      if str_eq (utils.path s) (utils.path t) then
        Yield (if utils.size s =? utils.size t then Skip else Upload, utils.path s)
              (advance_target (advance_source st))
      else if str_gt (utils.path s) (utils.path t) then
        Yield (Delete, utils.path t) (advance_target st)
      else if str_gt (utils.path t) (utils.path s) then
        Yield (Upload, utils.path s) (advance_source st)
      else
        Raise (ValueError "This should be logically impossible.")
  end.

(** Exhausting the generator: the actions yielded, and the exception that
    ended the iteration if one did.  [None] means the fuel ran out. *)
Fixpoint drain (fuel : nat) (st : gen_state) : option (list action * option error) :=
  match fuel with
  | O => None
  | S fuel' =>
      match gen_step st with
      | StopIteration => Some ([], None)
      | Raise e => Some ([], Some e)
      | Yield a st' =>
          match drain fuel' st' with
          | Some (acts, e) => Some (a :: acts, e)
          | None => None
          end
      end
  end.

(** Every iteration consumes a node, so one step per node and one for the
    final test are enough. *)
Definition _get_sync_actions (source_files target_files : list utils.WalkNode)
  : option (list action * option error) :=
  drain (S (length source_files + length target_files))
        (gen_init source_files target_files).

(** The list of actions written as a structural merge of the two
    sequences; [drain] is shown to compute it. *)
Fixpoint merge_actions (s : list utils.WalkNode) : list utils.WalkNode → list action :=
  fix go (t : list utils.WalkNode) : list action :=
    match s, t with
    | [], [] => []
    | [], b :: t' => (Delete, utils.path b) :: go t'
    | a :: s', [] => (Upload, utils.path a) :: merge_actions s' []
    | a :: s', b :: t' =>
        if str_eq (utils.path a) (utils.path b) then
          (if utils.size a =? utils.size b then Skip else Upload, utils.path a)
            :: merge_actions s' t'
        else if str_gt (utils.path a) (utils.path b) then
          (Delete, utils.path b) :: go t'
        else
          (Upload, utils.path a) :: merge_actions s' (b :: t')
    end.

(** Strict order of two nodes by path, and the paths of a sequence. *)
Definition path_lt (a b : utils.WalkNode) : Prop :=
  str_lt (utils.path a) (utils.path b).

Definition paths (l : list utils.WalkNode) : list string := map utils.path l.

(** The size recorded for path [p] in a sequence, if [p] occurs. *)
Fixpoint lookup_size (l : list utils.WalkNode) (p : string) : option Z :=
  match l with
  | [] => None
  | a :: l' => if str_eq (utils.path a) p then Some (utils.size a) else lookup_size l' p
  end.

(** The action that the comparison of the two sequences calls for at [p]. *)
Definition expected (s t : list utils.WalkNode) (p : string) : option action_func :=
  match lookup_size s p, lookup_size t p with
  | Some x, Some y => Some (if x =? y then Skip else Upload)
  | Some _, None => Some Upload
  | None, Some _ => Some Delete
  | None, None => None
  end.

(** The filter [sync_files] puts on the stream when [delete_missing] is
    false: [(action for action in actions if action[0] is not delete_file)]. *)
Definition filter_actions (delete_missing : bool) (actions : list action) : list action :=
  if delete_missing then actions
  else filter (λ a : action, a.1 ≠ Delete) actions.

Section actions.
Context {W : Type} `{SyncFS W}.

(** The [for x in xrange(100)] loop of [upload_file] with [remaining]
    iterations left, after [x] iterations; the second component of the
    value is the number of times [copy_file] has been called when the
    function is left. *)
Fixpoint upload_loop (remaining x : nat) (path : string) (w : W)
  : (result unit * W) * nat :=
  match remaining with
  | O => ((Err (Exception ("Error uploading " +:+ path)), w), x)
  | S remaining' =>
      match utils.copy_file path path true w with
      | (Ok _, w1) => ((Ok tt, w1), S x)
      | (Err (ParentDirectoryMissingError _), w1) =>
          match target_makedir (dirname path) w1 with
          | (Ok _, w2) => upload_loop remaining' (S x) path w2
          | (Err e, w2) => ((Err e, w2), S x)
          end
      | (Err (ResourceNotFoundError _), w1) =>
          if source_exists path w1 then
            match target_makedir (dirname path) w1 with
            | (Ok _, w2) => upload_loop remaining' (S x) path w2
            | (Err e, w2) => ((Err e, w2), S x)
            end
          else if source_hassyspath path w1 then
            if source_bad_symlink path w1 then ((Ok tt, w1), S x)
            else upload_loop remaining' (S x) path w1
          else upload_loop remaining' (S x) path w1
      | (Err e, w1) => ((Err e, w1), S x)
      end
  end.

(** [upload_file(source_fs, target_fs, path)] *)
Definition upload_file (path : string) (w : W) : result unit * W :=
  (upload_loop 100 0 path w).1.

(** Number of [copy_file] calls made by [upload_file]. *)
Definition upload_attempts (path : string) (w : W) : nat :=
  (upload_loop 100 0 path w).2.

(** [delete_file(fs, path)] with [fs = target_fs] *)
Definition delete_file (path : string) (w : W) : result unit * W :=
  target_remove path w.

(** [skip_file(path)] *)
Definition skip_file (path : string) (w : W) : result unit * W :=
  (Ok tt, w).

(** The [if action is upload_file ... elif ...] dispatch. *)
Definition perform (a : action) (w : W) : result unit * W :=
  match a.1 with
  | Upload => upload_file a.2 w
  | Delete => delete_file a.2 w
  | Skip => skip_file a.2 w
  end.

(** The [for action, path in actions] loop of the sequential branch: an
    exception leaves the loop. *)
Fixpoint run_actions (actions : list action) (w : W) : result unit * W :=
  match actions with
  | [] => (Ok tt, w)
  | a :: actions' =>
      match perform a w with
      | (Ok _, w') => run_actions actions' w'
      | (Err e, w') => (Err e, w')
      end
  end.

(** [sync_files(..., processes=0)] on two sequences of nodes given in
    advance, which no action can change; iterators that read the
    filesystems as they are advanced are the subject of [sync_files_iter]
    below.  The generator is consumed lazily, so an exception it raised
    would surface after the actions yielded before it have been
    performed. *)
Definition sync_files (source_files target_files : list utils.WalkNode)
    (delete_missing : bool) (w : W) : option (result bool * W) :=
  match _get_sync_actions source_files target_files with
  | None => None
  | Some (actions, raised) =>
      match run_actions (filter_actions delete_missing actions) w with
      | (Err e, w') => Some (Err e, w')
      | (Ok _, w') =>
          match raised with
          | Some e => Some (Err e, w')
          | None => Some (Ok true, w')
          end
      end
  end.

(** One worker running [_process_files] on the actions it takes from the
    queue, in the order it takes them; the queue staying empty with
    [finished] set ends the loop.  The Boolean is the [errored] event. *)
Fixpoint _process_files (taken : list action) (errored : bool) (w : W)
  : result unit * bool * W :=
  match taken with
  | [] => (Ok tt, errored, w)
  | a :: taken' =>
      match perform a w with
      | (Ok _, w') => _process_files taken' errored w'
      | (Err e, w') => (Err e, true, w')
      end
  end.

End actions.

Arguments upload_loop : simpl never.

(** *** sync_files on iterators that read the filesystems *)

(** Which of the two iterators a loop body of [_get_sync_actions] advances
    after its [yield]. *)
Inductive advance : Type := AdvanceSource | AdvanceTarget | AdvanceBoth.

(** One evaluation of the [while sfile or tfile] test and of the branch
    taken, up to the [yield]: the action yielded and the [next] calls that
    follow it, the [ValueError] of the last branch, or the end of the
    loop. *)
Inductive decision : Type :=
  | Act (a : action) (adv : advance)
  | Fail (e : error)
  | Done.

Definition compare_files (sfile tfile : option utils.WalkNode) : decision :=
  match sfile, tfile with
  | None, None => Done
  | None, Some t => Act (Delete, utils.path t) AdvanceTarget
  | Some s, None => Act (Upload, utils.path s) AdvanceSource
  | Some s, Some t =>
      if str_eq (utils.path s) (utils.path t) then
        Act (if utils.size s =? utils.size t then Skip else Upload, utils.path s)
            AdvanceBoth
      else if str_gt (utils.path s) (utils.path t) then
        Act (Delete, utils.path t) AdvanceTarget
      else if str_gt (utils.path t) (utils.path s) then
        Act (Upload, utils.path s) AdvanceSource
      else
        Fail (ValueError "This should be logically impossible.")
  end.

Section sync_iter.
Context {W : Type} `{SyncFS W} {SI TI : Type}.

(** [next(source_files, None)] and [next(target_files, None)] on iterators
    in the states [SI] and [TI], with the filesystems in state [W]. *)
Variable next_source : SI → W → option utils.WalkNode * SI.
Variable next_target : TI → W → option utils.WalkNode * TI.

(** The sequential branch of [sync_files] as it runs: [_get_sync_actions]
    is a generator, its arguments are iterators, and the [for] loop
    performs each action before it asks for the next one, so every [next]
    on [source_files] and [target_files] after the first two is made with
    the filesystems as the actions so far have left them.  With
    [delete_missing] off, a [delete_file] action is dropped by the filter
    and the generator runs on.  One unit of [fuel] is one iteration of the
    [while] loop; [None] means the fuel ran out.  The value has the
    actions [_get_sync_actions] yielded, what [sync_files] returned or
    raised, and the filesystems as they are left. *)
Fixpoint sync_loop (fuel : nat) (delete_missing : bool)
    (sfile tfile : option utils.WalkNode) (source_files : SI) (target_files : TI)
    (w : W) : option (list action * (result bool * W)) :=
  match fuel with
  | O => None
  | S fuel' =>
      match compare_files sfile tfile with
      | Done => Some ([], (Ok true, w))
      | Fail e => Some ([], (Err e, w))
      | Act a adv =>
          match (if delete_missing then perform a w
                 else if decide (a.1 = Delete) then (Ok tt, w)
                 else perform a w) with
          | (Err e, w') => Some ([a], (Err e, w'))
          | (Ok _, w') =>
              let '(sfile', source_files') :=
                match adv with
                | AdvanceTarget => (sfile, source_files)
                | AdvanceSource | AdvanceBoth => next_source source_files w'
                end in
              let '(tfile', target_files') :=
                match adv with
                | AdvanceSource => (tfile, target_files)
                | AdvanceTarget | AdvanceBoth => next_target target_files w'
                end in
              match sync_loop fuel' delete_missing sfile' tfile'
                      source_files' target_files' w' with
              | Some (actions, r) => Some (a :: actions, r)
              | None => None
              end
          end
      end
  end.

(** [sync_files(source_fs, source_files, target_fs, target_files,
    delete_missing, processes=0)] with the two [next] calls that precede
    the loop. *)
Definition sync_files_iter (fuel : nat) (source_files : SI) (target_files : TI)
    (delete_missing : bool) (w : W) : option (list action * (result bool * W)) :=
  let '(sfile, source_files) := next_source source_files w in
  let '(tfile, target_files) := next_target target_files w in
  sync_loop fuel delete_missing sfile tfile source_files target_files w.

End sync_iter.

Section sync_fs.
Context {Src Tgt : Type} `{WalkFS Src} `{WalkFS Tgt} `{SyncFS (Src * Tgt)}.

(** [sync_fs(source_fs, target_fs, delete_missing, processes=0)] together
    with the actions its diff yielded.  [depth] stands for the default
    depth bound of the two walks, which are the generators
    [walk_files(source_fs)] and [walk_files(target_fs)]. *)
Definition sync_fs_actions (fuel depth : nat) (delete_missing : bool)
    (w : Src * Tgt) : option (list action * (result bool * (Src * Tgt))) :=
  sync_files_iter
    (λ files (w : Src * Tgt), utils.walk_files_next w.1 true files)
    (λ files (w : Src * Tgt), utils.walk_files_next w.2 true files)
    fuel (utils.Unstarted "/" depth) (utils.Unstarted "/" depth)
    delete_missing w.

Definition sync_fs (fuel depth : nat) (delete_missing : bool) (w : Src * Tgt)
  : option (result bool * (Src * Tgt)) :=
  snd <$> sync_fs_actions fuel depth delete_missing w.

End sync_fs.

End sync.


(** ** An in-memory backend

    Modelled from the spec: the backend filesystems ([fs.osfs],
    [fs.memoryfs], [fs.s3fs], ...), which belong to the [fs] library and
    are not part of the sources; they are modelled after the filesystem
    interface of the spec (sections 3 and 6) and its error taxonomy
    (section 7).  The model keeps file contents by path and a set of
    directories.  The two behaviours found among the real backends for a
    write under a missing directory are both available: an [OSFS] reports
    [ResourceNotFoundError] (from [ENOENT]), others report
    [ParentDirectoryMissingError].  Every mutating or reading method call
    is recorded in [calls]. *)

Module memfs.

Inductive call : Type :=
  | CallOpen (p mode : string)
  | CallRead (p : string)
  | CallWrite (p : string)
  | CallClose (p : string)
  | CallSetcontents (p : string)
  | CallMakedir (p : string)
  | CallRemove (p : string).

Global Instance call_eq_dec : EqDecision call.
Proof. solve_decision. Defined.

Record MemFS : Type := mkMemFS {
  fsname : string;
  raises_pdm : bool;
  files : gmap string string;
  dirs : gset string;
  calls : list call;
}.

(** A file object: the filesystem it belongs to, its path and mode, and
    the read position. *)
Record File : Type := mkFile {
  fh_fs : string;
  fh_path : string;
  fh_mode : string;
  fh_pos : nat;
}.

Definition log (c : call) (fs : MemFS) : MemFS :=
  mkMemFS (fsname fs) (raises_pdm fs) (files fs) (dirs fs) (calls fs ++ [c]).

Definition set_files (f : gmap string string) (fs : MemFS) : MemFS :=
  mkMemFS (fsname fs) (raises_pdm fs) f (dirs fs) (calls fs).

Definition set_dirs (d : gset string) (fs : MemFS) : MemFS :=
  mkMemFS (fsname fs) (raises_pdm fs) (files fs) d (calls fs).

Definition is_root (p : string) : bool :=
  bool_decide (p = "") || bool_decide (p = "/").

Definition has_file (p : string) (fs : MemFS) : bool :=
  bool_decide (is_Some (files fs !! p)).

Definition has_dir (p : string) (fs : MemFS) : bool :=
  is_root p || bool_decide (p ∈ dirs fs).

Definition exists_ (p : string) (fs : MemFS) : bool :=
  has_file p fs || has_dir p fs.

Definition missing_parent (p : string) (fs : MemFS) : error :=
  if raises_pdm fs then ParentDirectoryMissingError p
  else ResourceNotFoundError p.

(** [p] and the directories above it, up to the root. *)
Fixpoint ancestors (fuel : nat) (p : string) : list string :=
  match fuel with
  | O => []
  | S fuel' => if is_root p then [] else p :: ancestors fuel' (dirname p)
  end.

Definition makedir (p : string) (recursive allow_recreate : bool) (fs : MemFS)
  : result unit * MemFS :=
  let fs := log (CallMakedir p) fs in
  if has_file p fs then (Err (ResourceInvalidError p), fs)
  else if has_dir p fs then
    if allow_recreate then (Ok tt, fs) else (Err (DestinationExistsError p), fs)
  else if has_dir (dirname p) fs then
    (Ok tt, set_dirs ({[p]} ∪ dirs fs) fs)
  else if recursive then
    (Ok tt, set_dirs (list_to_set (ancestors (String.length p) p) ∪ dirs fs) fs)
  else (Err (ParentDirectoryMissingError p), fs).

Definition remove (p : string) (fs : MemFS) : result unit * MemFS :=
  let fs := log (CallRemove p) fs in
  if has_file p fs then (Ok tt, set_files (delete p (files fs)) fs)
  else if has_dir p fs then (Err (ResourceInvalidError p), fs)
  else (Err (ResourceNotFoundError p), fs).

(** Creating or replacing the file at [p] with contents [data]. *)
Definition put (p data : string) (fs : MemFS) : result unit * MemFS :=
  if has_dir p fs then (Err (ResourceInvalidError p), fs)
  else if has_dir (dirname p) fs then
    (Ok tt, set_files (<[p := data]> (files fs)) fs)
  else (Err (missing_parent p fs), fs).

Definition setcontents (p data : string) (fs : MemFS) : result unit * MemFS :=
  put p data (log (CallSetcontents p) fs).

Definition open (p mode : string) (fs : MemFS) : result File * MemFS :=
  let fs := log (CallOpen p mode) fs in
  if mode_has "w" mode then
    match put p "" fs with
    | (Ok _, fs') => (Ok (mkFile (fsname fs) p mode 0), fs')
    | (Err e, fs') => (Err e, fs')
    end
  else
    match files fs !! p with
    | Some data =>
        (Ok (mkFile (fsname fs) p mode
               (if mode_has "a" mode then String.length data else 0%nat)), fs)
    | None =>
        if has_dir p fs then (Err (ResourceInvalidError p), fs)
        else if mode_has "a" mode then
          match put p "" fs with
          | (Ok _, fs') => (Ok (mkFile (fsname fs) p mode 0), fs')
          | (Err e, fs') => (Err e, fs')
          end
        else (Err (ResourceNotFoundError p), fs)
    end.

(** [f.seek(0)] *)
Definition seek0 (f : File) : File :=
  mkFile (fh_fs f) (fh_path f) (fh_mode f) 0.

Fixpoint string_drop (n : nat) (s : string) : string :=
  match n, s with
  | O, _ => s
  | S n', String _ s' => string_drop n' s'
  | S _, EmptyString => EmptyString
  end.

(** [f.read()]: everything from the current position to the end; the
    file object is returned with its position moved there. *)
Definition read (f : File) (fs : MemFS) : result (string * File) * MemFS :=
  let fs := log (CallRead (fh_path f)) fs in
  match files fs !! fh_path f with
  | Some data =>
      (Ok (string_drop (fh_pos f) data,
           mkFile (fh_fs f) (fh_path f) (fh_mode f) (String.length data)), fs)
  | None => (Err (ResourceNotFoundError (fh_path f)), fs)
  end.

(** [f.write(data)] on a file opened for writing: the data is appended. *)
Definition write (f : File) (data : string) (fs : MemFS) : result unit * MemFS :=
  let fs := log (CallWrite (fh_path f)) fs in
  match files fs !! fh_path f with
  | Some old => (Ok tt, set_files (<[fh_path f := old +:+ data]> (files fs)) fs)
  | None => (Err (ResourceNotFoundError (fh_path f)), fs)
  end.

(** [f.close()] *)
Definition close (f : File) (fs : MemFS) : result unit * MemFS :=
  (Ok tt, log (CallClose (fh_path f)) fs).

Global Instance MemFS_LayerFS : LayerFS MemFS File := {|
  fs_exists := exists_;
  fs_open := open;
  fs_setcontents := setcontents;
  fs_makedir := makedir;
  fs_remove := remove;
|}.

(** Directory listing with full paths: the files and directories whose
    parent is [p]; a file's info holds its size, a directory's is empty. *)
Definition listdirinfo (p : string) (fs : MemFS) : list (string * gmap string Z) :=
  map (λ kv : string * string,
         (kv.1, {[ "size" := Z.of_nat (String.length kv.2) ]}))
      (filter (λ kv : string * string, dirname kv.1 = p) (map_to_list (files fs)))
  ++ map (λ d : string, (d, ∅))
         (filter (λ d : string, dirname d = p) (elements (dirs fs))).

Global Instance MemFS_WalkFS : WalkFS MemFS := {|
  ilistdirinfo := listdirinfo;
  fs_isdir := has_dir;
|}.

(** [source_fs] and [target_fs] as a pair [(source, target)].
    [fs.utils.copyfile] opens the source file for reading and hands it to
    [target_fs.setcontents].  An in-memory filesystem has no system
    paths. *)
Definition copy (src dst : string) (w : MemFS * MemFS)
  : result unit * (MemFS * MemFS) :=
  match open src "rb" w.1 with
  | (Err e, s) => (Err e, (s, w.2))
  | (Ok f, s) =>
      match read f s with
      | (Err e, s') => (Err e, (s', w.2))
      | (Ok (data, f'), s') =>
          match setcontents dst data w.2 with
          | (r, t') => (r, ((close f' s').2, t'))
          end
      end
  end.

Global Instance MemFS_SyncFS : SyncFS (MemFS * MemFS) := {|
  copyfile := copy;
  target_makedir p w :=
    match makedir p true true w.2 with (r, t') => (r, (w.1, t')) end;
  target_remove p w :=
    match remove p w.2 with (r, t') => (r, (w.1, t')) end;
  source_exists p w := exists_ p w.1;
  source_hassyspath p w := false;
  source_bad_symlink p w := false;
|}.

(** The name of an entry within its directory: what follows the last
    slash of its path. *)
Definition entry_name (p : string) : string :=
  String.string_of_list_ascii
    (rev (take_while_not_slash (rev (String.list_ascii_of_string p)))).

(** [getinfo]: the info dictionary of a file holds its size, that of a
    directory is empty. *)
Definition getinfo (p : string) (fs : MemFS) : result (gmap string Z) :=
  match files fs !! p with
  | Some data => Ok {[ "size" := Z.of_nat (String.length data) ]}
  | None => if has_dir p fs then Ok ∅ else Err (ResourceNotFoundError p)
  end.

(** [ilistdir]: the names of the entries of the directory [p]. *)
Definition ilistdir (p : string) (fs : MemFS) : list string * option error :=
  if has_file p fs then ([], Some (ResourceInvalidError p))
  else if has_dir p fs then (map (λ e, entry_name e.1) (listdirinfo p fs), None)
  else ([], Some (ResourceNotFoundError p)).

Global Instance MemFS_ReadFS : ReadFS MemFS (gmap string Z) := {|
  layer_isdir := has_dir;
  layer_isfile := has_file;
  layer_getinfo := getinfo;
  layer_ilistdir := ilistdir;
|}.

(** A fresh filesystem holding the given files and directories. *)
Definition make (name : string) (pdm : bool) (fl : list (string * string))
    (dl : list string) : MemFS :=
  mkMemFS name pdm (list_to_map fl) (list_to_set dl) [].

End memfs.


(** ** multifs.py *)

Module multifs.

Section multifs.
Context {St File : Type} `{LayerFS St File}.

(** The attribute [writefs] of an instance.  [__init__] assigns
    [self.write_fs], not [self.writefs], so an instance has no attribute
    of that name until [addfs(..., write=True)] or [setwritefs] of the
    [fs] library assigns one; reading it before raises [AttributeError].
    Once assigned it is [None] or a reference to one of the layer objects;
    the reference is given by the position of that object in
    [fs_sequence], so that a write through [writefs] is seen by the reads
    that go through [fs_sequence]. *)
Inductive writefs_attr : Type :=
  | NoAttribute
  | WriteNone
  | WriteLayer (i : nat).

(** The attributes of a [MultiFS] that the modelled methods read. *)
Record MultiFS : Type := mkMultiFS {
  fs_sequence : list St;
  writefs : writefs_attr;
}.

(** [MultiFS()]: what [__init__] leaves. *)
Definition __init__ : MultiFS := mkMultiFS [] NoAttribute.

(** What evaluating [self.writefs] raises on an instance without the
    attribute. *)
Definition no_writefs : error :=
  AttributeError "'MultiFS' object has no attribute 'writefs'".

(** A method call on the layer object at position [i].  A position past
    the end of [fs_sequence] stands for no object; the statements are
    about instances whose write reference is one of the layers. *)
Definition on_layer {A} (i : nat) (op : M St A) : M MultiFS A :=
  λ m, match fs_sequence m !! i with
       | Some fs =>
           match op fs with
           | (r, fs') => (r, mkMultiFS (<[i := fs']> (fs_sequence m)) (writefs m))
           end
       | None => (Err (AttributeError "writefs"), m)
       end.

Fixpoint find_layer (path : string) (layers : list St) (i : nat) : option nat :=
  match layers with
  | [] => None
  | fs :: layers' =>
      if fs_exists path fs then Some i else find_layer path layers' (S i)
  end.

(** Modelled from the spec: [fs.multifs.MultiFS.open], the inherited
    method that [MultiFS.open] calls through [super]; it belongs to the
    [fs] library.  A write, append or update mode goes to the write
    layer or fails with "No writeable FS set"; a read mode goes to the
    first layer, in search order, on which the path exists. *)
Definition super_open (path mode : string) : M MultiFS File :=
  λ m,
    if mode_has "w" mode || mode_has "+" mode || mode_has "a" mode then
      match writefs m with
      | NoAttribute => (Err no_writefs, m)
      | WriteNone =>
          (Err (OperationFailedError "open" path "No writeable FS set"), m)
      | WriteLayer i => on_layer i (fs_open path mode) m
      end
    else
      match find_layer path (fs_sequence m) 0 with
      | Some i => on_layer i (fs_open path mode) m
      | None => (Err (ResourceNotFoundError path), m)
      end.

(** [except (OSError, ResourceNotFoundError)] *)
Definition autocreate_catches (e : error) : bool :=
  match e with
  | OSError _ | ResourceNotFoundError _ => true
  | _ => false
  end.

(** The context manager [_autocreate_missing_writefs_directory(fs, path,
    mode)] around the block [body]. *)
Definition _autocreate_missing_writefs_directory {A} (path mode : string)
    (body : M MultiFS A) : M MultiFS A :=
  try_except body
    (λ e m,
       if autocreate_catches e then
         match writefs m with
         | NoAttribute => (Err no_writefs, m)
         | WriteLayer i =>
             if mode_has "w" mode || mode_has "+" mode || mode_has "a" mode then
               let parent_dir := dirname path in
               match fs_sequence m !! i with
               | Some wfs =>
                   if negb (fs_exists parent_dir wfs) then
                     (let* _ := on_layer i (fs_makedir parent_dir true true) in
                      raise CreatedDirectory) m
                   else (Err e, m)
               | None => (Err (AttributeError "writefs"), m)
               end
             else (Err e, m)
         | WriteNone => (Err e, m)
         end
       else (Err e, m)).

(** [except CreatedDirectory: return retry] *)
Definition retry_if_created {A} (attempt retry : M MultiFS A) : M MultiFS A :=
  try_except attempt
    (λ e, match e with
          | CreatedDirectory => retry
          | _ => raise e
          end).

Definition open (path mode : string) : M MultiFS File :=
  retry_if_created
    (_autocreate_missing_writefs_directory path mode (super_open path mode))
    (super_open path mode).

Definition makedir (path : string) (recursive allow_recreate : bool)
  : M MultiFS unit :=
  λ m, match writefs m with
       | NoAttribute => (Err no_writefs, m)
       | WriteNone =>
           (Err (OperationFailedError "makedir" path "No writeable FS set"), m)
       | WriteLayer i => on_layer i (fs_makedir path recursive allow_recreate) m
       end.

Definition remove (path : string) : M MultiFS unit :=
  λ m, match writefs m with
       | NoAttribute => (Err no_writefs, m)
       | WriteNone =>
           (Err (OperationFailedError "remove" path "No writeable FS set"), m)
       | WriteLayer i => on_layer i (fs_remove path) m
       end.

Definition setcontents (path data : string) : M MultiFS unit :=
  λ m, match writefs m with
       | NoAttribute => (Err no_writefs, m)
       | WriteNone =>
           (Err (OperationFailedError "setcontents" path "No writeable FS set"), m)
       | WriteLayer i =>
           retry_if_created
             (_autocreate_missing_writefs_directory path "w"
                (on_layer i (fs_setcontents path data)))
             (on_layer i (fs_setcontents path data)) m
       end.

End multifs.

Arguments MultiFS St : clear implicits.

Section multifs_read.
Context {St File Info : Type} `{LayerFS St File} `{ReadFS St Info}.

(** The methods below iterate [for fs in self], the layers in search
    order; that is the order in which [fs_sequence] holds them here. *)

Fixpoint exists_in (path : string) (layers : list St) : bool :=
  match layers with
  | [] => false
  | fs :: layers' => if fs_exists path fs then true else exists_in path layers'
  end.

Definition exists_ (path : string) (m : MultiFS St) : bool :=
  exists_in path (fs_sequence m).

Fixpoint getinfo_in (path : string) (layers : list St) : result Info :=
  match layers with
  | [] => Err (ResourceNotFoundError path)
  | fs :: layers' =>
      if fs_exists path fs then layer_getinfo path fs else getinfo_in path layers'
  end.

Definition getinfo (path : string) (m : MultiFS St) : result Info :=
  getinfo_in path (fs_sequence m).

Fixpoint isdir_in (path : string) (layers : list St) : bool :=
  match layers with
  | [] => false
  | fs :: layers' => if layer_isdir path fs then true else isdir_in path layers'
  end.

Definition isdir (path : string) (m : MultiFS St) : bool :=
  isdir_in path (fs_sequence m).

Fixpoint isfile_in (path : string) (layers : list St) : bool :=
  match layers with
  | [] => false
  | fs :: layers' => if layer_isfile path fs then true else isfile_in path layers'
  end.

Definition isfile (path : string) (m : MultiFS St) : bool :=
  isfile_in path (fs_sequence m).

(** The inner loop of [ilistdir] over the names one layer yields: the
    names passed on, and [seen_paths] afterwards. *)
Fixpoint yield_unseen (names : list string) (seen_paths : gset string)
  : list string * gset string :=
  match names with
  | [] => ([], seen_paths)
  | fs_path :: names' =>
      if bool_decide (fs_path ∈ seen_paths) then yield_unseen names' seen_paths
      else
        let '(yielded, seen) := yield_unseen names' ({[fs_path]} ∪ seen_paths) in
        (fs_path :: yielded, seen)
  end.

(** The outer loop of [ilistdir]: an [FSError] that ends a layer's listing
    is dropped and the next layer is listed; any other exception ends the
    generator. *)
Fixpoint ilistdir_in (path : string) (layers : list St) (seen_paths : gset string)
  : list string * option error :=
  match layers with
  | [] => ([], None)
  | fs :: layers' =>
      let '(names, raised) := layer_ilistdir path fs in
      let '(yielded, seen) := yield_unseen names seen_paths in
      let rest := ilistdir_in path layers' seen in
      match raised with
      | None => (yielded ++ rest.1, rest.2)
      | Some e =>
          if is_FSError e then (yielded ++ rest.1, rest.2)
          else (yielded, Some e)
      end
  end.

(** [ilistdir(path)], the generator read off as the names it yields and
    the exception that ended it, if one did; further arguments are passed
    on to the layers unchanged and are left out. *)
Definition ilistdir (path : string) (m : MultiFS St) : list string * option error :=
  ilistdir_in path (fs_sequence m) ∅.

End multifs_read.

End multifs.

(** ** wrapfs/cachefs.py *)

Module cachefs.

Section cachefs.
(** [fs.path.normpath] *)
Variable normpath : string → string.

(** [wrapped_fs] is the source filesystem that [WrapFS] wraps and that the
    calls through [super] reach; [cachefs] is the cache backend;
    [_cachefs] keeps the cache backend aside while test mode is on. *)
Record CacheFS : Type := mkCacheFS {
  wrapped_fs : memfs.MemFS;
  cachefs : memfs.MemFS;
  test_mode : bool;
  _cachefs : option memfs.MemFS;
}.

(** What [open] returns: a file object of one of the two filesystems, or
    a [CacheFile] wrapping one, whose [on_close] purges [purge_path]. *)
Inductive opened : Type :=
  | PlainFile (f : memfs.File)
  | CacheFile (open_file : memfs.File) (mode : string) (purge_path : string).

Definition on_source {A} (op : M memfs.MemFS A) : M CacheFS A :=
  λ c, match op (wrapped_fs c) with
       | (r, s) => (r, mkCacheFS s (cachefs c) (test_mode c) (_cachefs c))
       end.

Definition on_cache {A} (op : M memfs.MemFS A) : M CacheFS A :=
  λ c, match op (cachefs c) with
       | (r, s) => (r, mkCacheFS (wrapped_fs c) s (test_mode c) (_cachefs c))
       end.

Definition _purge (path : string) : M CacheFS unit :=
  try_except (on_cache (memfs.remove path))
    (λ e, match e with
          | ResourceNotFoundError _ => ret tt
          | _ => raise e
          end).

(** [tempfs.TempFS()] is a fresh, empty [OSFS]. *)
Definition enable_test_mode (c : CacheFS) : CacheFS :=
  if test_mode c then c
  else mkCacheFS (wrapped_fs c) (memfs.make "tempfs" false [] []) true
                 (Some (cachefs c)).

Definition disable_test_mode (c : CacheFS) : CacheFS :=
  if test_mode c then
    mkCacheFS (wrapped_fs c) (default (cachefs c) (_cachefs c)) false (_cachefs c)
  else c.

(** The block of [open] that opens the cache copy for writing:
    [try: new_file = self.cachefs.open(path, 'wb')], and on
    [ResourceNotFoundError] the directory is made and the file opened
    again. *)
Definition open_new_file (path : string) : M CacheFS memfs.File :=
  try_except (on_cache (memfs.open path "wb"))
    (λ e,
       match e with
       | ResourceNotFoundError _ =>
           let* _ := on_cache (memfs.makedir (dirname path) true true) in
           on_cache (memfs.open path "wb")
       | _ => raise e
       end).

Definition open (path mode : string) : M CacheFS opened :=
  let path := normpath path in
  if mode_has "w" mode || mode_has "a" mode || mode_has "+" mode then
    let* open_file := on_source (memfs.open path mode) in
    ret (CacheFile open_file mode path)
  else
    try_except
      (let* f := on_cache (memfs.open path mode) in ret (PlainFile f))
      (λ e,
         match e with
         | ResourceNotFoundError _ =>
             let* old_file := on_source (memfs.open path "rb") in
             let* new_file := open_new_file path in
             let old_file := memfs.seek0 old_file in
             let* '(data, old_file) := on_source (memfs.read old_file) in
             let* _ := on_cache (memfs.write new_file data) in
             let* _ := on_cache (memfs.close new_file) in
             if str_eq mode "rb" then
               ret (PlainFile (memfs.seek0 old_file))
             else
               let* _ := on_source (memfs.close old_file) in
               let* new_file := on_cache (memfs.open path mode) in
               ret (PlainFile new_file)
         | _ => raise e
         end).

(** [super(CacheFS, self).setcontents] hands the data to the wrapped
    filesystem. *)
Definition setcontents (path data : string) : M CacheFS unit :=
  let path := normpath path in
  try_finally (on_source (memfs.setcontents path data)) (_purge path).

(** [CacheFile.close]: the wrapped file is closed and, whether that
    returned or raised, [on_close] purges the path from the cache.
    [super(CacheFile, self).close()] is [FileWrapper.close] of the [fs]
    library, which closes the file object of the wrapped filesystem; what
    that does is up to the backend (a backend that stores the data when the
    file is closed may raise there), so it is the argument [wrapped_close],
    an operation on the wrapped filesystem. *)
Definition CacheFile_close (wrapped_close : M memfs.MemFS unit)
    (purge_path : string) : M CacheFS unit :=
  try_finally (on_source wrapped_close) (_purge purge_path).

End cachefs.

End cachefs.

(** ** Vocabulary of the statements *)

(** [l] is the strictly path-sorted sequence of the file nodes of [fs]:
    one node for every file, carrying its size, and nothing else. *)
Definition is_listing (fs : memfs.MemFS) (l : list utils.WalkNode) : Prop :=
  StronglySorted sync.path_lt l
  ∧ ∀ n, n ∈ l ↔
      utils.isdir n = false
      ∧ ∃ data, memfs.files fs !! utils.path n = Some data
                ∧ utils.size n = Z.of_nat (String.length data).

(** The listing of a filesystem built from a list of files. *)
Definition nodes_of (fl : list (string * string)) : list utils.WalkNode :=
  map (λ kv : string * string,
         utils.mkWalkNode kv.1 false (Z.of_nat (String.length kv.2))) fl.

(** [m'] has the write reference and the number of layers of [m], and every
    layer object other than the one at position [i] is in the state it has
    in [m]. *)
Definition same_other_layers {St : Type} (i : nat) (m m' : multifs.MultiFS St) : Prop :=
  multifs.writefs m' = multifs.writefs m
  ∧ length (multifs.fs_sequence m') = length (multifs.fs_sequence m)
  ∧ ∀ j, j ≠ i → multifs.fs_sequence m' !! j = multifs.fs_sequence m !! j.

(** [m] with the layer object at position [i] in state [fs]. *)
Definition with_layer {St : Type} (i : nat) (fs : St) (m : multifs.MultiFS St)
  : multifs.MultiFS St :=
  multifs.mkMultiFS (<[i := fs]> (multifs.fs_sequence m)) (multifs.writefs m).

(** ['w' not in mode and 'a' not in mode and '+' not in mode] *)
Definition is_read_mode (mode : string) : bool :=
  negb (mode_has "w" mode || mode_has "a" mode || mode_has "+" mode).

(** [normpath] on paths that are already in normal form. *)
Definition normpath_id (p : string) : string := p.

(** The calls a client may make on a caching filesystem while test mode
    is on: [open], [setcontents], [close] on a [CacheFile] obtained from a
    write-mode [open], and [enable_test_mode] once more.  [do_calls] makes
    them in turn, whatever each returns or raises. *)
Inductive cache_call : Type :=
  | DoOpen (path mode : string)
  | DoSetcontents (path data : string)
  | DoClose (open_file : memfs.File) (purge_path : string)
  | DoEnableTestMode.

Definition do_call (normpath : string → string) (k : cache_call)
    (c : cachefs.CacheFS) : cachefs.CacheFS :=
  match k with
  | DoOpen path mode => (cachefs.open normpath path mode c).2
  | DoSetcontents path data => (cachefs.setcontents normpath path data c).2
  | DoClose open_file purge_path =>
      (cachefs.CacheFile_close (memfs.close open_file) purge_path c).2
  | DoEnableTestMode => cachefs.enable_test_mode c
  end.

Definition do_calls (normpath : string → string) (ks : list cache_call)
    (c : cachefs.CacheFS) : cachefs.CacheFS :=
  fold_left (λ c k, do_call normpath k c) ks c.

(** A method of [CacheFS] that leaves the attributes [test_mode] and
    [_cachefs] as they are. *)
Definition keeps_test_mode {A} (m : M cachefs.CacheFS A) : Prop :=
  ∀ c, cachefs.test_mode (m c).2 = cachefs.test_mode c
       ∧ cachefs._cachefs (m c).2 = cachefs._cachefs c.

(** An in-memory filesystem without directories: every file lies directly
    under the root. *)
Definition flat_tree (fs : memfs.MemFS) : Prop :=
  memfs.dirs fs = ∅
  ∧ ∀ p, is_Some (memfs.files fs !! p) → dirname p = "/" ∧ memfs.is_root p = false.

(** The file nodes that a walk of the unchanging filesystem [fs] yields
    from the nodes [nodes] of a directory listed with [max_depth], and
    those it has yet to yield when its generators are suspended with
    [frames]. *)
Definition files_from {St : Type} `{WalkFS St} (max_depth : nat) (fs : St)
    (sort : bool) (nodes : list utils.WalkNode) : list utils.WalkNode :=
  filter (λ node, utils.isdir node = false)
    (flat_map
       (λ node,
          node ::
            (if utils.isdir node then
               match max_depth with
               | O => []
               | S d => utils.walk_fs d fs (utils.path node) sort
               end
             else []))
       nodes).

Definition pending_files {St : Type} `{WalkFS St} (fs : St) (sort : bool)
    (frames : list (list utils.WalkNode * nat)) : list utils.WalkNode :=
  flat_map (λ frame, files_from frame.2 fs sort frame.1) frames.

(** The iterator in state [it] yields the nodes of [l] in turn and then
    ends, provided every [next] is made with the filesystems in a state
    that satisfies [P]. *)
Fixpoint iter_of {W I : Type} (P : W → Prop)
    (next : I → W → option utils.WalkNode * I) (it : I)
    (l : list utils.WalkNode) : Prop :=
  match l with
  | [] => ∀ w, P w → (next it w).1 = None
  | x :: l' => ∀ w, P w → (next it w).1 = Some x ∧ iter_of P next (next it w).2 l'
  end.

(** The variable [cur] holds the node last taken from an iterator, now in
    state [it], and [l] is that node followed by what the iterator yields;
    [cur] is [None] and [l] is empty when the iterator has ended. *)
Definition at_node {W I : Type} (P : W → Prop)
    (next : I → W → option utils.WalkNode * I) (cur : option utils.WalkNode)
    (it : I) (l : list utils.WalkNode) : Prop :=
  match l with
  | [] => cur = None
  | x :: l' => cur = Some x ∧ iter_of P next it l'
  end.

(** What is left of a sequence of nodes after the [next] calls of a loop
    body of [_get_sync_actions]. *)
Definition source_after (adv : sync.advance) (s : list utils.WalkNode)
  : list utils.WalkNode :=
  match adv with
  | sync.AdvanceTarget => s
  | sync.AdvanceSource | sync.AdvanceBoth => tail s
  end.

Definition target_after (adv : sync.advance) (t : list utils.WalkNode)
  : list utils.WalkNode :=
  match adv with
  | sync.AdvanceSource => t
  | sync.AdvanceTarget | sync.AdvanceBoth => tail t
  end.

(** What [sync_files] returns or raises after its loop. *)
Definition loop_outcome {W : Type} (r : result unit * W) : result bool * W :=
  match r with
  | (Ok _, w) => (Ok true, w)
  | (Err e, w) => (Err e, w)
  end.

(** ** Concrete filesystems used in examples *)

(** A directory [a] holding [x], next to a file [a.txt]. *)
Definition fs_sibling_prefix : memfs.MemFS :=
  memfs.make "origin" false [("/a/x", "1"); ("/a.txt", "22")] ["/a"].

(** A source holding only [/a.txt], and [fs_sibling_prefix] as the target. *)
Definition world_sibling_prefix : memfs.MemFS * memfs.MemFS :=
  (memfs.make "source" false [("/a.txt", "22")] [], fs_sibling_prefix).

(** A source holding only [/a.d/y], and a target holding [/a/x] and an
    empty directory [/a.d]. *)
Definition world_relisted : memfs.MemFS * memfs.MemFS :=
  (memfs.make "source" false [("/a.d/y", "1")] ["/a.d"],
   memfs.make "target" false [("/a/x", "1")] ["/a"; "/a.d"]).

(** Two empty filesystems: whatever a listing says, nothing is there. *)
Definition world_empty : memfs.MemFS * memfs.MemFS :=
  (memfs.make "source" false [] [], memfs.make "target" false [] []).


(** An origin and a target that differ in every way the diff distinguishes. *)
Definition demo_source_files : list (string * string) :=
  [("/a.txt", "aa"); ("/b.txt", "bbb"); ("/c.txt", "c")].

Definition demo_target_files : list (string * string) :=
  [("/a.txt", "xx"); ("/b.txt", "b"); ("/d.txt", "d")].

Definition demo_world : memfs.MemFS * memfs.MemFS :=
  (memfs.make "source" false demo_source_files [],
   memfs.make "target" false demo_target_files []).

(** A layered filesystem over in-memory layers: the write layer [layer1]
    (an [OSFS]-like backend) in front of a read-only fallback [layer2] that
    has the directory [/img]. *)
Definition demo_layered : multifs.MultiFS memfs.MemFS :=
  multifs.mkMultiFS
    [memfs.make "layer1" false [] [];
     memfs.make "layer2" false [("/img/logo.png", "png")] ["/img"]]
    (multifs.WriteLayer 0).

(** The same layers with the write layer set to [None]. *)
Definition demo_layered_readonly : multifs.MultiFS memfs.MemFS :=
  multifs.mkMultiFS (multifs.fs_sequence demo_layered) multifs.WriteNone.

(** The same layers added with [addfs(name, fs)] only, so that nothing
    was ever assigned to [writefs]. *)
Definition demo_layered_unset : multifs.MultiFS memfs.MemFS :=
  multifs.mkMultiFS (multifs.fs_sequence demo_layered) multifs.NoAttribute.

(** The same view over a write layer whose backend reports a missing
    parent directory with [ParentDirectoryMissingError]. *)
Definition demo_layered_pdm : multifs.MultiFS memfs.MemFS :=
  multifs.mkMultiFS
    [memfs.make "layer1" true [] [];
     memfs.make "layer2" false [("/img/logo.png", "png")] ["/img"]]
    (multifs.WriteLayer 0).

(** A caching filesystem whose source has one file and whose cache backend,
    an [OSFS]-like temporary filesystem, is empty.  Paths are given in
    normal form, so [normpath] is the identity on them. *)
Definition demo_cachefs : cachefs.CacheFS :=
  cachefs.mkCacheFS
    (memfs.make "source" false [("/img/logo.png", "png")] ["/img"])
    (memfs.make "cache" false [] [])
    false None.

(** [demo_cachefs] with a stale copy of the file in the cache. *)
Definition demo_cachefs_stale : cachefs.CacheFS :=
  cachefs.mkCacheFS
    (memfs.make "source" false [("/img/logo.png", "png")] ["/img"])
    (memfs.make "cache" false [("/img/logo.png", "old")] ["/img"])
    false None.

(** A caching filesystem whose source lacks the directory [/new], so that a
    write below it fails, while the cache holds an entry for the path. *)
Definition demo_cachefs_unwritable : cachefs.CacheFS :=
  cachefs.mkCacheFS
    (memfs.make "source" false [] [])
    (memfs.make "cache" false [("/new/f.txt", "old")] ["/new"])
    false None.

(** A directory of three files and no subdirectory. *)
Definition fs_flat : memfs.MemFS :=
  memfs.make "flat" false [("/a0.txt", "333"); ("/a.txt", "22"); ("/a-1.txt", "1")] [].

(** A world in which every constructor succeeds.  Its state is the number
    of filesystem objects made so far; an object is described by its class
    and argument and carries the number it was made with, so that two
    objects made by two constructor calls differ.  Every directory asked
    for exists, and the home directory is [/home/app]. *)
Definition demo_backends : utils.Backends nat (string * nat) :=
  utils.mkBackends
    (λ s _, "/home/app" +:+ str_from 1 s)
    (λ s, "'" +:+ s +:+ "'")
    (λ n, (Ok ("TempFS", n), S n))
    (λ _ _, true)
    (λ _ n, (Ok tt, n))
    (λ p n, (Ok ("OSFS " +:+ p, n), S n))
    (λ b n, (Ok ("S3FS " +:+ b, n), S n))
    (λ fs p n, (Ok (fs.1 +:+ " / " +:+ p, n), S n))
    (λ u n, (Ok ("HTTPFS " +:+ u, n), S n)).

(** Two layers that both have the directory [/img]: the write layer holds
    a newer [logo.png] and a file of its own, the fallback holds the old
    [logo.png] and another file.  The fallback also has a file at [/doc],
    which is a directory on the write layer. *)
Definition demo_overlay : multifs.MultiFS memfs.MemFS :=
  multifs.mkMultiFS
    [memfs.make "layer1" false
       [("/img/logo.png", "newer"); ("/img/new.png", "n")] ["/img"; "/doc"];
     memfs.make "layer2" false
       [("/img/logo.png", "old"); ("/img/old.png", "o"); ("/doc", "text")] ["/img"]]
    (multifs.WriteLayer 0).

(** A caching filesystem that has cached a file below [/img], so that its
    cache backend has the directory [/img], over a source on which [/img]
    is free. *)
Definition demo_cachefs_dir_cached : cachefs.CacheFS :=
  cachefs.mkCacheFS
    (memfs.make "source" false [] [])
    (memfs.make "cache" false [("/img/logo.png", "png")] ["/img"])
    false None.

(** * Properties *)

(** ** The order on byte strings *)

Lemma str_compare_refl (a : string) : String.compare a a = Eq.
Proof. apply OrderedTypeEx.String_as_OT.cmp_eq. reflexivity. Qed.

Lemma str_compare_eq (a b : string) : String.compare a b = Eq ↔ a = b.
Proof.
  split; [apply String.compare_eq_iff | intros ->; apply str_compare_refl].
Qed.

Lemma str_compare_gt_lt (a b : string) :
  String.compare a b = Gt ↔ String.compare b a = Lt.
Proof.
  rewrite (String.compare_antisym b a).
  destruct (String.compare a b); simpl; split; congruence.
Qed.

Lemma str_eq_true (a b : string) : str_eq a b = true ↔ a = b.
Proof. apply String.eqb_eq. Qed.

Lemma str_eq_false (a b : string) : str_eq a b = false ↔ a ≠ b.
Proof. apply String.eqb_neq. Qed.

Lemma str_gt_true (a b : string) : str_gt a b = true ↔ str_lt b a.
Proof.
  unfold str_gt, str_lt. rewrite <- str_compare_gt_lt.
  destruct (String.compare a b); split; congruence.
Qed.

Lemma str_lt_irrefl (a : string) : ¬ str_lt a a.
Proof. unfold str_lt. rewrite str_compare_refl. discriminate. Qed.

Lemma str_lt_trans (a b c : string) : str_lt a b → str_lt b c → str_lt a c.
Proof.
  unfold str_lt. rewrite !OrderedTypeEx.String_as_OT.cmp_lt.
  apply OrderedTypeEx.String_as_OT.lt_trans.
Qed.

Lemma str_lt_asym (a b : string) : str_lt a b → ¬ str_lt b a.
Proof. intros H1 H2. exact (str_lt_irrefl a (str_lt_trans _ _ _ H1 H2)). Qed.

Lemma str_trichotomy (a b : string) : a = b ∨ str_lt b a ∨ str_lt a b.
Proof.
  destruct (String.compare a b) eqn:E.
  - left. by apply str_compare_eq.
  - right; right. exact E.
  - right; left. by apply str_compare_gt_lt.
Qed.


(** ** The diff generator *)

Lemma gen_init_cons_l a s t :
  sync.gen_init (a :: s) t
  = sync.mkGen (Some a) (sync.next t).1 s (sync.next t).2.
Proof. unfold sync.gen_init. simpl. by destruct (sync.next t). Qed.

Lemma advance_source_init a s t :
  sync.advance_source (sync.gen_init (a :: s) t) = sync.gen_init s t.
Proof. unfold sync.advance_source, sync.gen_init. by destruct s, t. Qed.

Lemma advance_target_init s b t :
  sync.advance_target (sync.gen_init s (b :: t)) = sync.gen_init s t.
Proof. unfold sync.advance_target, sync.gen_init. by destruct s, t. Qed.

Lemma str_gt_false_both a b :
  str_eq a b = false → str_gt a b = false → str_gt b a = true.
Proof.
  intros Hne Hgt. apply str_eq_false in Hne. apply str_gt_true.
  destruct (str_trichotomy a b) as [?|[Hlt|Hlt]]; [done| |done].
  apply str_gt_true in Hlt. congruence.
Qed.

(** One step of the generator on the state reached from [s] and [t]. *)
Lemma gen_step_init s t :
  sync.gen_step (sync.gen_init s t) =
  match sync.merge_actions s t with
  | [] => sync.StopIteration
  | a :: _ =>
      sync.Yield a
        (match s, t with
         | [], [] => sync.gen_init s t
         | [], _ :: t' => sync.gen_init [] t'
         | _ :: s', [] => sync.gen_init s' []
         | x :: s', y :: t' =>
             if str_eq (utils.path x) (utils.path y) then sync.gen_init s' t'
             else if str_gt (utils.path x) (utils.path y) then sync.gen_init s t'
             else sync.gen_init s' t
         end)
  end.
Proof.
  destruct s as [|x s'], t as [|y t']; try reflexivity.
  unfold sync.gen_step. simpl sync.sfile. simpl sync.tfile. simpl sync.merge_actions.
  destruct (str_eq (utils.path x) (utils.path y)) eqn:Heq.
  { by rewrite ?Heq, advance_source_init, advance_target_init. }
  rewrite ?Heq.
  destruct (str_gt (utils.path x) (utils.path y)) eqn:Hgt.
  { by rewrite ?Hgt, advance_target_init. }
  rewrite ?Hgt, (str_gt_false_both _ _ Heq Hgt).
  by rewrite advance_source_init.
Qed.

Lemma merge_actions_nil_cons y t :
  sync.merge_actions [] (y :: t)
  = (sync.Delete, utils.path y) :: sync.merge_actions [] t.
Proof. reflexivity. Qed.

Lemma merge_actions_cons_nil x s :
  sync.merge_actions (x :: s) []
  = (sync.Upload, utils.path x) :: sync.merge_actions s [].
Proof. reflexivity. Qed.

Lemma merge_actions_cons_cons x s y t :
  sync.merge_actions (x :: s) (y :: t)
  = if str_eq (utils.path x) (utils.path y) then
      (if utils.size x =? utils.size y then sync.Skip else sync.Upload, utils.path x)
        :: sync.merge_actions s t
    else if str_gt (utils.path x) (utils.path y) then
      (sync.Delete, utils.path y) :: sync.merge_actions (x :: s) t
    else
      (sync.Upload, utils.path x) :: sync.merge_actions s (y :: t).
Proof. reflexivity. Qed.

Lemma drain_merge fuel s t :
  (length s + length t < fuel)%nat →
  sync.drain fuel (sync.gen_init s t) = Some (sync.merge_actions s t, None).
Proof.
  revert s t. induction fuel as [|fuel IH]; intros s t Hlen; [lia|].
  simpl sync.drain. rewrite gen_step_init.
  destruct s as [|x s'], t as [|y t']; simpl in Hlen.
  - reflexivity.
  - rewrite merge_actions_nil_cons. cbv iota beta.
    rewrite IH by (simpl; lia). reflexivity.
  - rewrite merge_actions_cons_nil. cbv iota beta.
    rewrite IH by (simpl; lia). reflexivity.
  - rewrite merge_actions_cons_cons.
    destruct (str_eq (utils.path x) (utils.path y)).
    { rewrite IH by (simpl; lia). reflexivity. }
    destruct (str_gt (utils.path x) (utils.path y));
      rewrite IH by (simpl; lia); reflexivity.
Qed.

Lemma get_sync_actions_merge s t :
  sync._get_sync_actions s t = Some (sync.merge_actions s t, None).
Proof. unfold sync._get_sync_actions. apply drain_merge. lia. Qed.

(** ** Sizes recorded in a sorted sequence *)

Lemma lookup_size_cons a l p :
  sync.lookup_size (a :: l) p
  = if str_eq (utils.path a) p then Some (utils.size a) else sync.lookup_size l p.
Proof. reflexivity. Qed.

Lemma lookup_size_None l p :
  sync.lookup_size l p = None ↔ p ∉ sync.paths l.
Proof.
  induction l as [|a l IH]; simpl.
  - split; [intros _; apply not_elem_of_nil | done].
  - rewrite not_elem_of_cons. destruct (str_eq (utils.path a) p) eqn:E.
    + apply str_eq_true in E. split; [done | intros [? _]; congruence].
    + apply str_eq_false in E. rewrite IH. split; [intros ?; split; congruence | tauto].
Qed.

Lemma lookup_size_Some_elem l p z :
  sync.lookup_size l p = Some z →
  ∃ a, a ∈ l ∧ utils.path a = p ∧ utils.size a = z.
Proof.
  induction l as [|a l IH]; simpl; [done|].
  destruct (str_eq (utils.path a) p) eqn:E.
  - apply str_eq_true in E. intros [= <-]. exists a. split; [left | done].
  - intros [b (? & ? & ?)]%IH. exists b. split; [by right | done].
Qed.

Lemma lookup_size_lt l q :
  Forall (λ x, str_lt q (utils.path x)) l → sync.lookup_size l q = None.
Proof.
  intros Hall. apply lookup_size_None. intros [a [Hp Ha]]%list_elem_of_fmap.
  rewrite Forall_forall in Hall. specialize (Hall a Ha). rewrite <- Hp in Hall.
  by apply str_lt_irrefl in Hall.
Qed.

Lemma lookup_size_sorted l a :
  StronglySorted sync.path_lt l → a ∈ l →
  sync.lookup_size l (utils.path a) = Some (utils.size a).
Proof.
  induction 1 as [|x l Hs IH Hall]; intros Ha; [by apply elem_of_nil in Ha|].
  rewrite lookup_size_cons. apply elem_of_cons in Ha as [->|Ha].
  - unfold str_eq. by rewrite String.eqb_refl.
  - destruct (str_eq (utils.path x) (utils.path a)) eqn:E; [|by apply IH].
    apply str_eq_true in E. rewrite Forall_forall in Hall.
    specialize (Hall a Ha). unfold sync.path_lt in Hall. rewrite E in Hall.
    by apply str_lt_irrefl in Hall.
Qed.

Lemma lookup_size_Some_iff l p z :
  StronglySorted sync.path_lt l →
  sync.lookup_size l p = Some z ↔
  ∃ a, a ∈ l ∧ utils.path a = p ∧ utils.size a = z.
Proof.
  intros Hs. split; [apply lookup_size_Some_elem|].
  intros [a (Ha & <- & <-)]. by apply lookup_size_sorted.
Qed.

Lemma sorted_head_lt a l :
  StronglySorted sync.path_lt (a :: l) →
  Forall (λ x, str_lt (utils.path a) (utils.path x)) l.
Proof. by intros [? _]%StronglySorted_cons. Qed.

Lemma sorted_below_lt q a l :
  str_lt q (utils.path a) → StronglySorted sync.path_lt (a :: l) →
  Forall (λ x, str_lt q (utils.path x)) (a :: l).
Proof.
  intros Hq Hs. constructor; [done|].
  eapply Forall_impl; [by apply sorted_head_lt|].
  intros x Hx. by eapply str_lt_trans.
Qed.

(** Prepending an action for a path the rest does not mention. *)
Lemma actions_step (E E1 : string → option sync.action_func) f0 p0
    (rest : list sync.action) :
  (∀ f p, (f, p) ∈ rest ↔ E1 p = Some f) → NoDup rest.*2 →
  E p0 = Some f0 → E1 p0 = None → (∀ p, p ≠ p0 → E p = E1 p) →
  (∀ f p, (f, p) ∈ (f0, p0) :: rest ↔ E p = Some f) ∧ NoDup ((f0, p0) :: rest).*2.
Proof.
  intros Hrest Hnd H0 H1 Hne. split.
  - intros f p. rewrite elem_of_cons, Hrest.
    destruct (decide (p = p0)) as [->|Hp].
    + rewrite H0, H1. split; [intros [[= ->]|]; done | intros [= ->]; by left].
    + rewrite (Hne p Hp). split; [intros [[= _ ?]|]; done | by right].
  - simpl. constructor; [|done].
    intros [[f p] [Hp Hin]]%list_elem_of_fmap. simpl in Hp. subst p.
    apply Hrest in Hin. congruence.
Qed.

Lemma merge_actions_expected s t :
  StronglySorted sync.path_lt s → StronglySorted sync.path_lt t →
  (∀ f p, (f, p) ∈ sync.merge_actions s t ↔ sync.expected s t p = Some f)
  ∧ NoDup (sync.merge_actions s t).*2.
Proof.
  intros Hs. revert t. induction s as [|a s IHs]; intros t Ht;
    induction t as [|b t IHt].
  - split; [|constructor]. intros f p. split; [by intros ?%elem_of_nil | done].
  - rewrite merge_actions_nil_cons.
    pose proof (StronglySorted_inv Ht) as [Ht' Hb].
    destruct (IHt Ht') as [IH1 IH2].
    apply (actions_step _ (sync.expected [] t)); try done.
    + unfold sync.expected. simpl. unfold str_eq. by rewrite String.eqb_refl.
    + unfold sync.expected. simpl. by rewrite lookup_size_lt.
    + intros p Hp. unfold sync.expected. simpl.
      destruct (str_eq (utils.path b) p) eqn:E; [|done].
      apply str_eq_true in E. congruence.
  - rewrite merge_actions_cons_nil.
    pose proof (StronglySorted_inv Hs) as [Hs' Ha].
    destruct (IHs Hs' [] Ht) as [IH1 IH2].
    apply (actions_step _ (sync.expected s [])); try done.
    + unfold sync.expected. simpl. unfold str_eq. by rewrite String.eqb_refl.
    + unfold sync.expected. simpl. by rewrite lookup_size_lt.
    + intros p Hp. unfold sync.expected. simpl.
      destruct (str_eq (utils.path a) p) eqn:E; [|done].
      apply str_eq_true in E. congruence.
  - rewrite merge_actions_cons_cons.
    pose proof (StronglySorted_inv Hs) as [Hs' Ha].
    pose proof (StronglySorted_inv Ht) as [Ht' Hb].
    destruct (str_eq (utils.path a) (utils.path b)) eqn:Eab.
    { apply str_eq_true in Eab.
      destruct (IHs Hs' t Ht') as [IH1 IH2].
      apply (actions_step _ (sync.expected s t)); try done.
      - unfold sync.expected. rewrite !lookup_size_cons, <- Eab.
        unfold str_eq. by rewrite String.eqb_refl.
      - unfold sync.expected. rewrite (lookup_size_lt s) by done.
        rewrite Eab. by rewrite (lookup_size_lt t).
      - intros p Hp. unfold sync.expected. rewrite !lookup_size_cons, <- Eab.
        destruct (str_eq (utils.path a) p) eqn:E; [|done].
        apply str_eq_true in E. congruence. }
    destruct (str_gt (utils.path a) (utils.path b)) eqn:Egt.
    + apply str_gt_true in Egt.
      destruct (IHt Ht') as [IH1 IH2].
      apply (actions_step _ (sync.expected (a :: s) t)); try done.
      * unfold sync.expected.
        rewrite (lookup_size_lt (a :: s)) by by apply sorted_below_lt.
        rewrite lookup_size_cons. unfold str_eq. by rewrite String.eqb_refl.
      * unfold sync.expected.
        rewrite (lookup_size_lt (a :: s)) by by apply sorted_below_lt.
        by rewrite (lookup_size_lt t).
      * intros p Hp. unfold sync.expected. rewrite (lookup_size_cons b).
        destruct (str_eq (utils.path b) p) eqn:E; [|done].
        apply str_eq_true in E. congruence.
    + pose proof (str_gt_false_both _ _ Eab Egt) as Hlt. apply str_gt_true in Hlt.
      destruct (IHs Hs' (b :: t) Ht) as [IH1 IH2].
      apply (actions_step _ (sync.expected s (b :: t))); try done.
      * unfold sync.expected.
        rewrite (lookup_size_lt (b :: t)) by by apply sorted_below_lt.
        rewrite lookup_size_cons. unfold str_eq. by rewrite String.eqb_refl.
      * unfold sync.expected. rewrite (lookup_size_lt s) by done.
        by rewrite (lookup_size_lt (b :: t)) by by apply sorted_below_lt.
      * intros p Hp. unfold sync.expected. rewrite (lookup_size_cons a).
        destruct (str_eq (utils.path a) p) eqn:E; [|done].
        apply str_eq_true in E. congruence.
Qed.

Lemma expected_Upload s t p :
  StronglySorted sync.path_lt s → StronglySorted sync.path_lt t →
  sync.expected s t p = Some sync.Upload ↔
  (p ∈ sync.paths s ∧ p ∉ sync.paths t) ∨
  (∃ a b, a ∈ s ∧ b ∈ t ∧ utils.path a = p ∧ utils.path b = p
          ∧ utils.size a ≠ utils.size b).
Proof.
  intros Hs Ht. unfold sync.expected.
  destruct (sync.lookup_size s p) as [x|] eqn:Es;
    destruct (sync.lookup_size t p) as [y|] eqn:Et.
  - apply (lookup_size_Some_iff _ _ _ Hs) in Es as (a & Ha & Hpa & Hsa).
    apply (lookup_size_Some_iff _ _ _ Ht) in Et as (b & Hb & Hpb & Hsb).
    split.
    + destruct (x =? y) eqn:Exy; [done|]. intros _. right.
      exists a, b. repeat split; try done. apply Z.eqb_neq in Exy. congruence.
    + intros [[_ Hn]|(a' & b' & Ha' & Hb' & Hpa' & Hpb' & Hne)].
      * exfalso. apply Hn. apply list_elem_of_fmap. by exists b.
      * pose proof (lookup_size_sorted _ _ Hs Ha) as E1.
        pose proof (lookup_size_sorted _ _ Hs Ha') as E2.
        pose proof (lookup_size_sorted _ _ Ht Hb) as E3.
        pose proof (lookup_size_sorted _ _ Ht Hb') as E4.
        rewrite Hpa in E1. rewrite Hpa' in E2. rewrite Hpb in E3. rewrite Hpb' in E4.
        assert (x ≠ y) as Hxy by congruence.
        apply Z.eqb_neq in Hxy. by rewrite Hxy.
  - apply lookup_size_None in Et.
    apply lookup_size_Some_elem in Es as (a & Ha & Hpa & _).
    split; [|done]. intros _. left. split; [|done].
    apply list_elem_of_fmap. by exists a.
  - apply lookup_size_None in Es. split; [done|].
    intros [[? _]|(a & _ & Ha & _ & Hpa & _)]; [done|].
    exfalso. apply Es. apply list_elem_of_fmap. by exists a.
  - apply lookup_size_None in Es. split; [done|].
    intros [[? _]|(a & _ & Ha & _ & Hpa & _)]; [done|].
    exfalso. apply Es. apply list_elem_of_fmap. by exists a.
Qed.

Lemma expected_Skip s t p :
  StronglySorted sync.path_lt s → StronglySorted sync.path_lt t →
  sync.expected s t p = Some sync.Skip ↔
  ∃ a b, a ∈ s ∧ b ∈ t ∧ utils.path a = p ∧ utils.path b = p
         ∧ utils.size a = utils.size b.
Proof.
  intros Hs Ht. unfold sync.expected.
  destruct (sync.lookup_size s p) as [x|] eqn:Es;
    destruct (sync.lookup_size t p) as [y|] eqn:Et.
  - apply (lookup_size_Some_iff _ _ _ Hs) in Es as (a & Ha & Hpa & Hsa).
    apply (lookup_size_Some_iff _ _ _ Ht) in Et as (b & Hb & Hpb & Hsb).
    split.
    + destruct (x =? y) eqn:Exy; [|done]. intros _.
      exists a, b. repeat split; try done. apply Z.eqb_eq in Exy. congruence.
    + intros (a' & b' & Ha' & Hb' & Hpa' & Hpb' & Heq).
      pose proof (lookup_size_sorted _ _ Hs Ha) as E1.
      pose proof (lookup_size_sorted _ _ Hs Ha') as E2.
      pose proof (lookup_size_sorted _ _ Ht Hb) as E3.
      pose proof (lookup_size_sorted _ _ Ht Hb') as E4.
      rewrite Hpa in E1. rewrite Hpa' in E2. rewrite Hpb in E3. rewrite Hpb' in E4.
      assert (x = y) as Hxy by congruence.
      apply Z.eqb_eq in Hxy. by rewrite Hxy.
  - apply lookup_size_None in Et. split; [done|].
    intros (_ & b & _ & Hb & _ & Hpb & _).
    exfalso. apply Et. apply list_elem_of_fmap. by exists b.
  - apply lookup_size_None in Es. split; [done|].
    intros (a & _ & Ha & _ & Hpa & _).
    exfalso. apply Es. apply list_elem_of_fmap. by exists a.
  - apply lookup_size_None in Es. split; [done|].
    intros (a & _ & Ha & _ & Hpa & _).
    exfalso. apply Es. apply list_elem_of_fmap. by exists a.
Qed.

Lemma expected_Delete s t p :
  sync.expected s t p = Some sync.Delete ↔
  p ∈ sync.paths t ∧ p ∉ sync.paths s.
Proof.
  unfold sync.expected.
  destruct (sync.lookup_size s p) as [x|] eqn:Es;
    destruct (sync.lookup_size t p) as [y|] eqn:Et.
  - apply lookup_size_Some_elem in Es as (a & Ha & Hpa & _).
    split; [by destruct (x =? y)|]. intros [_ Hn]. exfalso. apply Hn.
    apply list_elem_of_fmap. by exists a.
  - apply lookup_size_None in Et. split; [done | by intros [? _]].
  - apply lookup_size_None in Es.
    apply lookup_size_Some_elem in Et as (b & Hb & Hpb & _).
    split; [|done]. intros _. split; [|done]. apply list_elem_of_fmap. by exists b.
  - apply lookup_size_None in Et. split; [done | by intros [? _]].
Qed.

Lemma expected_Some_paths s t p f :
  sync.expected s t p = Some f → p ∈ sync.paths s ∨ p ∈ sync.paths t.
Proof.
  unfold sync.expected.
  destruct (sync.lookup_size s p) as [x|] eqn:Es.
  - apply lookup_size_Some_elem in Es as (a & Ha & Hpa & _).
    intros _. left. apply list_elem_of_fmap. by exists a.
  - destruct (sync.lookup_size t p) as [y|] eqn:Et; [|done].
    apply lookup_size_Some_elem in Et as (b & Hb & Hpb & _).
    intros _. right. apply list_elem_of_fmap. by exists b.
Qed.

Lemma elem_of_filter_actions dm (actions : list sync.action) f p :
  (f, p) ∈ sync.filter_actions dm actions ↔
  (dm = true ∨ f ≠ sync.Delete) ∧ (f, p) ∈ actions.
Proof.
  unfold sync.filter_actions. destruct dm.
  - split; [by intros ?; split; [left|] | by intros [_ ?]].
  - rewrite list_elem_of_filter. simpl.
    split; [by intros [? ?]; split; [right|] | intros [[?|?] ?]; done].
Qed.

Lemma NoDup_filter_actions dm (actions : list sync.action) :
  NoDup actions.*2 → NoDup (sync.filter_actions dm actions).*2.
Proof.
  intros Hnd. unfold sync.filter_actions. destruct dm; [done|].
  eapply sublist_NoDup; [exact Hnd|]. apply fmap_sublist, sublist_filter.
Qed.

(** C1: on strictly path-sorted sequences the diff, after the filter that
    [sync_files] applies when [delete_missing] is false, uploads exactly the
    paths found only in the source or found in both with different sizes,
    skips exactly the paths found in both with equal sizes, deletes (only
    when [delete_missing] is true) exactly the paths found only in the
    target, names no path outside the two sequences, and names every path
    at most once.  The sequences need not be file-only. *)
Theorem sync_actions_exact (source_files target_files : list utils.WalkNode)
    (delete_missing : bool) :
  StronglySorted sync.path_lt source_files →
  StronglySorted sync.path_lt target_files →
  ∃ actions,
    sync._get_sync_actions source_files target_files = Some (actions, None)
    ∧ (∀ p, (sync.Upload, p) ∈ sync.filter_actions delete_missing actions ↔
         (p ∈ sync.paths source_files ∧ p ∉ sync.paths target_files) ∨
         (∃ a b, a ∈ source_files ∧ b ∈ target_files
                 ∧ utils.path a = p ∧ utils.path b = p
                 ∧ utils.size a ≠ utils.size b))
    ∧ (∀ p, (sync.Skip, p) ∈ sync.filter_actions delete_missing actions ↔
         ∃ a b, a ∈ source_files ∧ b ∈ target_files
                ∧ utils.path a = p ∧ utils.path b = p
                ∧ utils.size a = utils.size b)
    ∧ (∀ p, (sync.Delete, p) ∈ sync.filter_actions delete_missing actions ↔
         delete_missing = true
         ∧ p ∈ sync.paths target_files ∧ p ∉ sync.paths source_files)
    ∧ (∀ f p, (f, p) ∈ sync.filter_actions delete_missing actions →
         p ∈ sync.paths source_files ∨ p ∈ sync.paths target_files)
    ∧ NoDup (sync.filter_actions delete_missing actions).*2.
Proof.
  intros Hs Ht. exists (sync.merge_actions source_files target_files).
  destruct (merge_actions_expected _ _ Hs Ht) as [Hin Hnd].
  split; [apply get_sync_actions_merge|].
  split; [|split; [|split; [|split]]].
  - intros p. rewrite elem_of_filter_actions, Hin, expected_Upload by done.
    split; [by intros [_ ?] | intros ?; split; [by right | done]].
  - intros p. rewrite elem_of_filter_actions, Hin, expected_Skip by done.
    split; [by intros [_ ?] | intros ?; split; [by right | done]].
  - intros p. rewrite elem_of_filter_actions, Hin, expected_Delete.
    split.
    + intros [[?|?] ?]; done.
    + intros [? ?]. split; [by left | done].
  - intros f p [_ H]%elem_of_filter_actions. apply Hin in H.
    by eapply expected_Some_paths.
  - by apply NoDup_filter_actions.
Qed.

Lemma sync_actions_exact_witness :
  StronglySorted sync.path_lt
    [utils.mkWalkNode "a.txt" false 10; utils.mkWalkNode "b.txt" false 20;
     utils.mkWalkNode "c.txt" false 5]
  ∧ StronglySorted sync.path_lt
      [utils.mkWalkNode "a.txt" false 10; utils.mkWalkNode "b.txt" false 99;
       utils.mkWalkNode "d.txt" false 1]
  ∧ ∃ actions,
      sync._get_sync_actions
        [utils.mkWalkNode "a.txt" false 10; utils.mkWalkNode "b.txt" false 20;
         utils.mkWalkNode "c.txt" false 5]
        [utils.mkWalkNode "a.txt" false 10; utils.mkWalkNode "b.txt" false 99;
         utils.mkWalkNode "d.txt" false 1]
      = Some (actions, None)
      ∧ (∀ p, (sync.Delete, p) ∈ sync.filter_actions true actions ↔
           true = true
           ∧ p ∈ sync.paths
                   [utils.mkWalkNode "a.txt" false 10; utils.mkWalkNode "b.txt" false 99;
                    utils.mkWalkNode "d.txt" false 1]
           ∧ p ∉ sync.paths
                   [utils.mkWalkNode "a.txt" false 10; utils.mkWalkNode "b.txt" false 20;
                    utils.mkWalkNode "c.txt" false 5])
      ∧ NoDup (sync.filter_actions true actions).*2.
Proof.
  assert (StronglySorted sync.path_lt
    [utils.mkWalkNode "a.txt" false 10; utils.mkWalkNode "b.txt" false 20;
     utils.mkWalkNode "c.txt" false 5]) as Hs by (repeat constructor).
  assert (StronglySorted sync.path_lt
    [utils.mkWalkNode "a.txt" false 10; utils.mkWalkNode "b.txt" false 99;
     utils.mkWalkNode "d.txt" false 1]) as Ht by (repeat constructor).
  split; [exact Hs|]. split; [exact Ht|].
  destruct (sync_actions_exact _ _ true Hs Ht) as (actions & H & _ & _ & Hd & _ & Hnd).
  exists actions. split; [exact H|]. split; [exact Hd | exact Hnd].
Defined.

Example diff_scenario :
  sync._get_sync_actions
    [utils.mkWalkNode "a.txt" false 10; utils.mkWalkNode "b.txt" false 20;
     utils.mkWalkNode "c.txt" false 5]
    [utils.mkWalkNode "a.txt" false 10; utils.mkWalkNode "b.txt" false 99]
  = Some ([(sync.Skip, "a.txt"); (sync.Upload, "b.txt"); (sync.Upload, "c.txt")], None).
Proof. reflexivity. Qed.

Example diff_scenario_delete :
  sync._get_sync_actions
    [utils.mkWalkNode "a.txt" false 10; utils.mkWalkNode "b.txt" false 20;
     utils.mkWalkNode "c.txt" false 5]
    [utils.mkWalkNode "a.txt" false 10; utils.mkWalkNode "b.txt" false 99;
     utils.mkWalkNode "d.txt" false 1]
  = Some ([(sync.Skip, "a.txt"); (sync.Upload, "b.txt"); (sync.Upload, "c.txt");
           (sync.Delete, "d.txt")], None).
Proof. reflexivity. Qed.

(** C10: the final [else] branch of [_get_sync_actions] cannot be reached,
    whatever the two sequences are.  For two nodes exactly one of
    [sfile.path == tfile.path], [sfile.path > tfile.path] and
    [tfile.path > sfile.path] holds; no state of the generator makes a step
    raise; a step taken while a node is pending yields an action; and the
    generator, run on any two finite sequences, ends without an
    exception. *)
Theorem impossible_branch_unreachable :
  (∀ s t : utils.WalkNode,
     (str_eq (utils.path s) (utils.path t) = true
      ∨ str_gt (utils.path s) (utils.path t) = true
      ∨ str_gt (utils.path t) (utils.path s) = true)
     ∧ ¬ (str_eq (utils.path s) (utils.path t) = true
          ∧ str_gt (utils.path s) (utils.path t) = true)
     ∧ ¬ (str_eq (utils.path s) (utils.path t) = true
          ∧ str_gt (utils.path t) (utils.path s) = true)
     ∧ ¬ (str_gt (utils.path s) (utils.path t) = true
          ∧ str_gt (utils.path t) (utils.path s) = true))
  ∧ (∀ st e, sync.gen_step st ≠ sync.Raise e)
  ∧ (∀ st, is_Some (sync.sfile st) ∨ is_Some (sync.tfile st) →
       ∃ a st', sync.gen_step st = sync.Yield a st')
  ∧ (∀ source_files target_files,
       ∃ actions,
         sync._get_sync_actions source_files target_files = Some (actions, None)).
Proof.
  split; [|split; [|split]].
  - intros s t. rewrite !str_eq_true, !str_gt_true.
    split; [apply str_trichotomy|].
    split; [|split].
    + intros [-> H]. by apply str_lt_irrefl in H.
    + intros [-> H]. by apply str_lt_irrefl in H.
    + intros [H1 H2]. by apply (str_lt_asym _ _ H1).
  - intros st e. unfold sync.gen_step.
    destruct (sync.sfile st) as [s|], (sync.tfile st) as [t|]; try discriminate.
    destruct (str_eq (utils.path s) (utils.path t)) eqn:Heq; [discriminate|].
    destruct (str_gt (utils.path s) (utils.path t)) eqn:Hgt; [discriminate|].
    by rewrite (str_gt_false_both _ _ Heq Hgt).
  - intros st Hpending. unfold sync.gen_step.
    destruct (sync.sfile st) as [s|], (sync.tfile st) as [t|]; eauto.
    + destruct (str_eq (utils.path s) (utils.path t)) eqn:Heq; [eauto|].
      destruct (str_gt (utils.path s) (utils.path t)) eqn:Hgt; [eauto|].
      rewrite (str_gt_false_both _ _ Heq Hgt). eauto.
    + destruct Hpending as [[? ?]|[? ?]]; discriminate.
  - intros s t. eexists. apply get_sync_actions_merge.
Qed.

(** ** walk_fs and walk_files *)

Lemma walk_files_only_files {St} `{WalkFS St} (max_depth : nat) (fs : St)
    (path0 : string) (sort : bool) :
  Forall (λ node, utils.isdir node = false) (utils.walk_files max_depth fs path0 sort).
Proof.
  unfold utils.walk_files. apply Forall_forall.
  intros node Hin. by apply list_elem_of_filter in Hin as [? _].
Qed.

(** C2 (fails on the code): on a filesystem with a directory [a] holding
    [x] and a sibling file [a.txt], [walk_files], called with sorting on and
    any depth bound of at least one, delivers [/a/x] before [/a.txt],
    although ["/a.txt" < "/a/x"] in the byte order that
    [_get_sync_actions] compares paths with: the sequence is not in
    increasing path order. *)
Theorem walk_files_sibling_prefix_unsorted :
  (∀ d, utils.walk_files (S d) fs_sibling_prefix "/" true
        = [utils.mkWalkNode "/a/x" false 1; utils.mkWalkNode "/a.txt" false 2])
  ∧ str_gt "/a/x" "/a.txt" = true
  ∧ ¬ StronglySorted sync.path_lt
        [utils.mkWalkNode "/a/x" false 1; utils.mkWalkNode "/a.txt" false 2].
Proof.
  split; [|split].
  - intros [|d]; vm_compute; reflexivity.
  - reflexivity.
  - intros [Hall _]%StronglySorted_cons.
    apply Forall_cons in Hall as [Hlt _]. vm_compute in Hlt. discriminate.
Qed.

(** What the diff makes of such a listing: with the target holding only
    [/a.txt], of the same size, the path [/a.txt] is both deleted and
    uploaded. *)
Example diff_of_unsorted_listing :
  sync._get_sync_actions
    (utils.walk_files 1 fs_sibling_prefix "/" true)
    [utils.mkWalkNode "/a.txt" false 2]
  = Some ([(sync.Delete, "/a.txt"); (sync.Upload, "/a/x"); (sync.Upload, "/a.txt")],
          None).
Proof. vm_compute. reflexivity. Qed.

(** What follows for [sync_fs]: the target holds [/a.txt] as the source has
    it, and [/a/x] besides.  With [delete_missing] on, the first run uploads
    [/a.txt] and then deletes both [/a/x] and [/a.txt]; every action
    succeeds, the target ends up without [/a.txt], and the second run
    uploads it again. *)
Example sync_fs_on_unsorted_walk :
  (λ r : list sync.action * (result bool * (memfs.MemFS * memfs.MemFS)),
     (r.1, r.2.1, memfs.files r.2.2.1 !! "/a.txt", memfs.files r.2.2.2 !! "/a.txt"))
    <$> sync.sync_fs_actions 10 1 true world_sibling_prefix
  = Some ([(sync.Upload, "/a.txt"); (sync.Delete, "/a/x"); (sync.Delete, "/a.txt")],
          Ok true, Some "22", None)
  ∧ (sync.sync_fs 10 1 true world_sibling_prefix
     ≫= λ r, fst <$> sync.sync_fs_actions 10 1 true r.2)
    = Some [(sync.Upload, "/a.txt")].
Proof. split; vm_compute; reflexivity. Qed.

(** ** delete_file and skip_file *)

(** C4 as amended: [delete_file] and [skip_file] have no retry loop and
    handle no exception.  [delete_file] is a single call of the target's
    [remove]; when that call raises, for instance [ResourceNotFoundError]
    for a path that is already absent, [delete_file] raises the same
    exception, the sequential loop of [sync_files] is left with it, and a
    worker sets [errored] and stops. *)
Theorem delete_file_error_propagates {W} `{SyncFS W} (path : string) (w w' : W)
    (e : error) :
  target_remove path w = (Err e, w') →
  sync.delete_file path w = target_remove path w
  ∧ sync.skip_file path w = (Ok tt, w)
  ∧ sync.delete_file path w = (Err e, w')
  ∧ (∀ rest, sync.run_actions ((sync.Delete, path) :: rest) w = (Err e, w'))
  ∧ (∀ rest errored,
       sync._process_files ((sync.Delete, path) :: rest) errored w = (Err e, true, w')).
Proof.
  intros Hrm. split; [done|]. split; [done|]. split; [done|]. split.
  - intros rest. simpl. unfold sync.perform. simpl. unfold sync.delete_file.
    by rewrite Hrm.
  - intros rest errored. simpl. unfold sync.perform. simpl. unfold sync.delete_file.
    by rewrite Hrm.
Qed.

Lemma delete_file_error_propagates_witness :
  target_remove "/gone" world_empty
  = (Err (ResourceNotFoundError "/gone"),
     (world_empty.1, memfs.log (memfs.CallRemove "/gone") world_empty.2))
  ∧ sync.delete_file "/gone" world_empty
    = (Err (ResourceNotFoundError "/gone"),
       (world_empty.1, memfs.log (memfs.CallRemove "/gone") world_empty.2)).
Proof.
  assert (target_remove "/gone" world_empty
          = (Err (ResourceNotFoundError "/gone"),
             (world_empty.1, memfs.log (memfs.CallRemove "/gone") world_empty.2)))
    as Hrm by (vm_compute; reflexivity).
  split; [exact Hrm|].
  exact (proj1 (proj2 (proj2 (delete_file_error_propagates _ _ _ _ Hrm)))).
Defined.

(** C4 as stated fails: deleting a path that is already absent is an error
    of [delete_file] and of the sequential sync run. *)
Lemma delete_absent_is_an_error :
  (sync.delete_file "/gone" world_empty).1 = Err (ResourceNotFoundError "/gone")
  ∧ fst <$> sync.sync_files [] [utils.mkWalkNode "/gone" false 1] true world_empty
    = Some (Err (ResourceNotFoundError "/gone")).
Proof. split; vm_compute; reflexivity. Qed.

(** ** upload_file *)

Lemma upload_loop_0 {W} `{SyncFS W} (x : nat) (path : string) (w : W) :
  sync.upload_loop 0 x path w
  = ((Err (Exception ("Error uploading " +:+ path)), w), x).
Proof. reflexivity. Qed.

Lemma upload_loop_S {W} `{SyncFS W} (n x : nat) (path : string) (w : W) :
  sync.upload_loop (S n) x path w
  = match utils.copy_file path path true w with
    | (Ok _, w1) => ((Ok tt, w1), S x)
    | (Err (ParentDirectoryMissingError _), w1) =>
        match target_makedir (dirname path) w1 with
        | (Ok _, w2) => sync.upload_loop n (S x) path w2
        | (Err e, w2) => ((Err e, w2), S x)
        end
    | (Err (ResourceNotFoundError _), w1) =>
        if source_exists path w1 then
          match target_makedir (dirname path) w1 with
          | (Ok _, w2) => sync.upload_loop n (S x) path w2
          | (Err e, w2) => ((Err e, w2), S x)
          end
        else if source_hassyspath path w1 then
          if source_bad_symlink path w1 then ((Ok tt, w1), S x)
          else sync.upload_loop n (S x) path w1
        else sync.upload_loop n (S x) path w1
    | (Err e, w1) => ((Err e, w1), S x)
    end.
Proof. reflexivity. Qed.

Lemma run_actions_cons {W} `{SyncFS W} (a : sync.action) (rest : list sync.action)
    (w : W) :
  sync.run_actions (a :: rest) w
  = match sync.perform a w with
    | (Ok _, w') => sync.run_actions rest w'
    | (Err e, w') => (Err e, w')
    end.
Proof. reflexivity. Qed.

Lemma process_files_cons {W} `{SyncFS W} (a : sync.action) (rest : list sync.action)
    (errored : bool) (w : W) :
  sync._process_files (a :: rest) errored w
  = match sync.perform a w with
    | (Ok _, w') => sync._process_files rest errored w'
    | (Err e, w') => (Err e, true, w')
    end.
Proof. reflexivity. Qed.









(** ** The in-memory backend: what the operations do to the files *)

Lemma memfs_put_files p data fs r fs' :
  memfs.put p data fs = (r, fs') →
  match r with
  | Ok _ => memfs.files fs' = <[p := data]> (memfs.files fs)
  | Err _ => memfs.files fs' = memfs.files fs
  end.
Proof.
  unfold memfs.put.
  destruct (memfs.has_dir p fs); [by intros [= <- <-]|].
  destruct (memfs.has_dir (dirname p) fs); by intros [= <- <-].
Qed.

Lemma memfs_makedir_files p rec allow fs :
  memfs.files (memfs.makedir p rec allow fs).2 = memfs.files fs.
Proof.
  unfold memfs.makedir.
  destruct (memfs.has_file p _); [done|].
  destruct (memfs.has_dir p _); [by destruct allow|].
  destruct (memfs.has_dir (dirname p) _); [done|]. by destruct rec.
Qed.

Lemma memfs_remove_files p fs r fs' :
  memfs.remove p fs = (r, fs') →
  match r with
  | Ok _ => memfs.files fs' = delete p (memfs.files fs)
  | Err _ => memfs.files fs' = memfs.files fs
  end.
Proof.
  unfold memfs.remove.
  destruct (memfs.has_file p _); [by intros [= <- <-]|].
  destruct (memfs.has_dir p _); by intros [= <- <-].
Qed.

Lemma string_drop_0 s : memfs.string_drop 0 s = s.
Proof. by destruct s. Qed.

Lemma memfs_copy_files p (w : memfs.MemFS * memfs.MemFS) r w1 :
  memfs.copy p p w = (r, w1) →
  memfs.files w1.1 = memfs.files w.1
  ∧ match r with
    | Ok _ => ∃ data, memfs.files w.1 !! p = Some data
                      ∧ memfs.files w1.2 = <[p := data]> (memfs.files w.2)
    | Err _ => memfs.files w1.2 = memfs.files w.2
    end.
Proof.
  destruct w as [s t]. unfold memfs.copy, memfs.open. simpl fst. simpl snd.
  change (mode_has "w" "rb") with false. change (mode_has "a" "rb") with false.
  cbv iota. simpl memfs.files.
  destruct (memfs.files s !! p) as [data|] eqn:Hs.
  - unfold memfs.read. simpl memfs.files. simpl memfs.fh_path. rewrite Hs.
    simpl memfs.fh_pos. rewrite string_drop_0.
    destruct (memfs.setcontents p data t) as [r' t'] eqn:Hset.
    intros [= <- <-]. split; [done|].
    unfold memfs.setcontents in Hset. apply memfs_put_files in Hset.
    destruct r'; [by exists data | done].
  - destruct (memfs.has_dir p _); by intros [= <- <-].
Qed.

Lemma memfs_target_makedir_files p (w : memfs.MemFS * memfs.MemFS) :
  memfs.files (target_makedir p w).2.1 = memfs.files w.1
  ∧ memfs.files (target_makedir p w).2.2 = memfs.files w.2.
Proof.
  simpl. pose proof (memfs_makedir_files p true true w.2) as Hm.
  destruct (memfs.makedir p true true w.2) as [r t']. by simpl in *.
Qed.

Lemma memfs_copy_file_files p (w : memfs.MemFS * memfs.MemFS) r w1 :
  utils.copy_file p p true w = (r, w1) →
  memfs.files w1.1 = memfs.files w.1
  ∧ match r with
    | Ok _ => ∃ data, memfs.files w.1 !! p = Some data
                      ∧ memfs.files w1.2 = <[p := data]> (memfs.files w.2)
    | Err _ => memfs.files w1.2 = memfs.files w.2
    end.
Proof.
  unfold utils.copy_file. simpl copyfile.
  destruct (memfs.copy p p w) as [r0 w0] eqn:Hc.
  pose proof (memfs_copy_files _ _ _ _ Hc) as [Hs0 Ht0].
  assert (∀ e, r0 = Err e → (r0, w0) = (r, w1) →
            memfs.files w1.1 = memfs.files w.1
            ∧ match r with
              | Ok _ => ∃ data, memfs.files w.1 !! p = Some data
                                ∧ memfs.files w1.2 = <[p := data]> (memfs.files w.2)
              | Err _ => memfs.files w1.2 = memfs.files w.2
              end) as Hpass.
  { intros e -> [= <- <-]. done. }
  destruct r0 as [[]|e].
  { intros [= <- <-]. done. }
  destruct e; try (by apply (Hpass _ eq_refl)).
  pose proof (memfs_target_makedir_files (dirname p) w0) as [Hs1 Ht1].
  destruct (target_makedir (dirname p) w0) as [[[]|e'] w2] eqn:Hm; simpl in Hs1, Ht1.
  - intros Hc2. simpl copyfile in Hc2.
    pose proof (memfs_copy_files _ _ _ _ Hc2) as [Hs2 Ht2].
    split; [congruence|]. destruct r.
    + destruct Ht2 as (data & ? & ?). exists data. split; congruence.
    + congruence.
  - intros [= <- <-]. split; congruence.
Qed.

Lemma memfs_upload_loop_files p n x (w : memfs.MemFS * memfs.MemFS) r w1 k :
  sync.upload_loop n x p w = ((r, w1), k) →
  memfs.files w1.1 = memfs.files w.1
  ∧ match r with
    | Ok _ => ∃ data, memfs.files w.1 !! p = Some data
                      ∧ memfs.files w1.2 = <[p := data]> (memfs.files w.2)
    | Err _ => memfs.files w1.2 = memfs.files w.2
    end.
Proof.
  revert x w. induction n as [|n IH]; intros x w.
  { rewrite upload_loop_0. by intros [= <- <- _]. }
  rewrite upload_loop_S.
  destruct (utils.copy_file p p true w) as [r0 w0] eqn:Hc.
  pose proof (memfs_copy_file_files _ _ _ _ Hc) as [Hs0 Ht0].
  assert (∀ w2, memfs.files w2.1 = memfs.files w.1 →
                memfs.files w2.2 = memfs.files w.2 →
                sync.upload_loop n (S x) p w2 = (r, w1, k) →
                memfs.files w1.1 = memfs.files w.1
                ∧ match r with
                  | Ok _ => ∃ data, memfs.files w.1 !! p = Some data
                                    ∧ memfs.files w1.2 = <[p := data]> (memfs.files w.2)
                  | Err _ => memfs.files w1.2 = memfs.files w.2
                  end) as Hrec.
  { intros w2 H1 H2 Hl. apply IH in Hl as [Hl1 Hl2]. rewrite <- H1, <- H2. done. }
  assert (∀ w2, memfs.files w2.1 = memfs.files w.1 →
                memfs.files w2.2 = memfs.files w.2 →
                match target_makedir (dirname p) w2 with
                | (Ok _, w3) => sync.upload_loop n (S x) p w3
                | (Err e, w3) => (Err e, w3, S x)
                end = (r, w1, k) →
                memfs.files w1.1 = memfs.files w.1
                ∧ match r with
                  | Ok _ => ∃ data, memfs.files w.1 !! p = Some data
                                    ∧ memfs.files w1.2 = <[p := data]> (memfs.files w.2)
                  | Err _ => memfs.files w1.2 = memfs.files w.2
                  end) as Hmk.
  { intros w2 H1 H2.
    pose proof (memfs_target_makedir_files (dirname p) w2) as [Hs1 Ht1].
    destruct (target_makedir (dirname p) w2) as [[[]|e'] w3]; simpl in Hs1, Ht1.
    - apply Hrec; congruence.
    - intros [= <- <- _]. split; congruence. }
  destruct r0 as [[]|e].
  { by intros [= <- <- _]. }
  destruct e; try (by intros [= <- <- _]).
  - destruct (source_exists p w0); [by apply Hmk|].
    change (source_hassyspath p w0) with false. cbv iota. by apply Hrec.
  - by apply Hmk.
Qed.

Lemma memfs_perform_files (a : sync.action) (w w1 : memfs.MemFS * memfs.MemFS) :
  sync.perform a w = (Ok tt, w1) →
  memfs.files w1.1 = memfs.files w.1
  ∧ match a.1 with
    | sync.Upload => ∃ data, memfs.files w.1 !! a.2 = Some data
                             ∧ memfs.files w1.2 = <[a.2 := data]> (memfs.files w.2)
    | sync.Delete => memfs.files w1.2 = delete a.2 (memfs.files w.2)
    | sync.Skip => memfs.files w1.2 = memfs.files w.2
    end.
Proof.
  destruct a as [[] p]; unfold sync.perform; cbn [fst snd].
  - unfold sync.upload_file.
    destruct (sync.upload_loop 100 0 p w) as [[r w2] k] eqn:Hl. simpl.
    intros [= -> ->]. by apply memfs_upload_loop_files in Hl.
  - unfold sync.delete_file. simpl.
    destruct (memfs.remove p w.2) as [r t'] eqn:Hr. intros [= -> <-].
    by apply memfs_remove_files in Hr.
  - unfold sync.skip_file. by intros [= <-].
Qed.

(** The files of the target after a successful sequential run over actions
    that name every path at most once. *)
Lemma memfs_run_actions_files (actions : list sync.action)
    (w w' : memfs.MemFS * memfs.MemFS) :
  NoDup actions.*2 →
  sync.run_actions actions w = (Ok tt, w') →
  memfs.files w'.1 = memfs.files w.1
  ∧ ∀ p,
      ((sync.Upload, p) ∈ actions →
         memfs.files w'.2 !! p = memfs.files w.1 !! p)
      ∧ ((sync.Delete, p) ∈ actions → memfs.files w'.2 !! p = None)
      ∧ ((sync.Skip, p) ∈ actions ∨ p ∉ actions.*2 →
         memfs.files w'.2 !! p = memfs.files w.2 !! p).
Proof.
  revert w. induction actions as [|a actions IH]; intros w Hnd; simpl.
  { intros [= <-]. split; [done|]. intros p.
    split; [by intros ?%elem_of_nil|]. split; [by intros ?%elem_of_nil | done]. }
  apply NoDup_cons in Hnd as [Hfresh Hnd].
  destruct (sync.perform a w) as [[[]|e] w1] eqn:Hp; [|done].
  intros Hrun. destruct (IH w1 Hnd Hrun) as [IHs IHt].
  apply memfs_perform_files in Hp as [Hs1 Ht1].
  split; [congruence|]. intros p.
  assert (∀ f, (f, p) ∈ actions → p ≠ a.2) as Hother.
  { intros f Hin ->. apply Hfresh. apply list_elem_of_fmap. by exists (f, a.2). }
  destruct (IHt p) as (IHu & IHd & IHk).
  assert (p ≠ a.2 → memfs.files w1.2 !! p = memfs.files w.2 !! p) as Hne.
  { intros Hne. destruct (a.1).
    - destruct Ht1 as (data & _ & ->). by rewrite lookup_insert_ne.
    - rewrite Ht1. by rewrite lookup_delete_ne.
    - by rewrite Ht1. }
  split; [|split].
  - intros [Ha|Hin]%elem_of_cons.
    + subst a. simpl in *. destruct Ht1 as (data & Hd & Ht1).
      rewrite IHk by by right. rewrite Ht1, lookup_insert_eq. done.
    + rewrite IHu by done. congruence.
  - intros [Ha|Hin]%elem_of_cons.
    + subst a. simpl in *. rewrite IHk by by right.
      rewrite Ht1. by rewrite lookup_delete_eq.
    + by apply IHd.
  - intros [[Ha|Hin]%elem_of_cons|Hnin].
    + subst a. simpl in *. rewrite IHk by by right. by rewrite Ht1.
    + rewrite IHk by by left. apply Hne. by eapply Hother.
    + simpl in Hnin. apply not_elem_of_cons in Hnin as [Hne' Hnin].
      rewrite IHk by by right. by apply Hne.
Qed.

Lemma listing_lookup_size fs l p :
  is_listing fs l →
  sync.lookup_size l p
  = (λ data, Z.of_nat (String.length data)) <$> memfs.files fs !! p.
Proof.
  intros [Hs Hl]. destruct (memfs.files fs !! p) as [data|] eqn:Hf; simpl.
  - assert (utils.mkWalkNode p false (Z.of_nat (String.length data)) ∈ l) as Hin.
    { apply Hl. split; [done|]. by exists data. }
    by apply (lookup_size_sorted _ _ Hs) in Hin.
  - destruct (sync.lookup_size l p) as [z|] eqn:El; [|done].
    apply lookup_size_Some_elem in El as (a & Ha & <- & _).
    apply Hl in Ha as (_ & data & Hd & _). congruence.
Qed.

(** On sequences that are path-sorted, a second run finds nothing to do:
    after a sequential sync with [delete_missing] on has succeeded on the
    path-sorted listings of two filesystems, the source still has the
    listing it had, and the diff of that listing against any path-sorted
    listing of the resulting target consists of [Skip] actions only. *)
Lemma second_sync_only_skips (source target : memfs.MemFS)
    (source_files target_files : list utils.WalkNode)
    (w' : memfs.MemFS * memfs.MemFS) :
  is_listing source source_files →
  is_listing target target_files →
  sync.sync_files source_files target_files true (source, target) = Some (Ok true, w') →
  is_listing w'.1 source_files
  ∧ ∀ target_files',
      is_listing w'.2 target_files' →
      ∃ actions,
        sync._get_sync_actions source_files target_files' = Some (actions, None)
        ∧ Forall (λ a : sync.action, a.1 = sync.Skip) (sync.filter_actions true actions).
Proof.
  intros HS HT. unfold sync.sync_files. rewrite get_sync_actions_merge.
  simpl sync.filter_actions.
  destruct (sync.run_actions _ _) as [[[]|e] w1] eqn:Hrun; [|done].
  intros [= <-].
  destruct (merge_actions_expected _ _ (proj1 HS) (proj1 HT)) as [Hin Hnd].
  destruct (memfs_run_actions_files _ _ _ Hnd Hrun) as [Hsrc Htgt].
  simpl in Hsrc.
  assert (is_listing w1.1 source_files) as HS'.
  { destruct HS as [? Hl]. split; [done|]. intros n. rewrite Hsrc. apply Hl. }
  split; [exact HS'|]. intros T' HT'.
  exists (sync.merge_actions source_files T').
  split; [apply get_sync_actions_merge|].
  apply Forall_forall. intros [f p] Hfp. simpl.
  destruct (merge_actions_expected _ _ (proj1 HS) (proj1 HT')) as [Hin' _].
  apply Hin' in Hfp. unfold sync.expected in Hfp.
  rewrite (listing_lookup_size _ _ p HS), (listing_lookup_size _ _ p HT') in Hfp.
  (* the sizes the target now has are those of the source *)
  assert ((λ data, Z.of_nat (String.length data)) <$> memfs.files w1.2 !! p
          = (λ data, Z.of_nat (String.length data)) <$> memfs.files source !! p)
    as Hsize.
  { destruct (Htgt p) as (Hu & Hd & Hk). simpl in Hu.
    destruct (sync.expected source_files target_files p) as [f0|] eqn:E0.
    - pose proof E0 as E0'. apply Hin in E0'.
      unfold sync.expected in E0.
      rewrite (listing_lookup_size _ _ p HS), (listing_lookup_size _ _ p HT) in E0.
      destruct f0.
      + by rewrite Hu.
      + rewrite Hd by done.
        destruct (memfs.files source !! p); [|done].
        simpl in E0. destruct (memfs.files target !! p); simpl in E0; [|done].
        by destruct (_ =? _).
      + rewrite Hk by by left. simpl.
        destruct (memfs.files source !! p) as [d1|]; simpl in *.
        * destruct (memfs.files target !! p) as [d2|]; simpl in *; [|done].
          destruct (_ =? _) eqn:Ez; [|done]. apply Z.eqb_eq in Ez. by rewrite Ez.
        * by destruct (memfs.files target !! p).
    - assert (p ∉ (sync.merge_actions source_files target_files).*2) as Hnin.
      { intros [[f1 p1] [Hp1 Hin1]]%list_elem_of_fmap. simpl in Hp1. subst p1.
        apply Hin in Hin1. congruence. }
      rewrite Hk by by right. simpl.
      unfold sync.expected in E0.
      rewrite (listing_lookup_size _ _ p HS), (listing_lookup_size _ _ p HT) in E0.
      destruct (memfs.files source !! p); simpl in E0.
      + by destruct (memfs.files target !! p).
      + by destruct (memfs.files target !! p). }
  rewrite Hsize in Hfp.
  destruct (memfs.files source !! p); simpl in Hfp; [|done].
  rewrite Z.eqb_refl in Hfp. congruence.
Qed.

Lemma sorted_keys_NoDup (fl : list (string * string)) :
  StronglySorted (λ kv1 kv2 : string * string, str_lt kv1.1 kv2.1) fl →
  NoDup fl.*1.
Proof.
  induction 1 as [|kv fl Hs IH Hall]; simpl; constructor; [|done].
  intros [kv' [Hk Hin]]%list_elem_of_fmap.
  rewrite Forall_forall in Hall. specialize (Hall kv' Hin).
  rewrite Hk in Hall. by apply str_lt_irrefl in Hall.
Qed.

Lemma is_listing_make name pdm (fl : list (string * string)) dl :
  StronglySorted (λ kv1 kv2 : string * string, str_lt kv1.1 kv2.1) fl →
  is_listing (memfs.make name pdm fl dl) (nodes_of fl).
Proof.
  intros Hs. split.
  - unfold nodes_of. induction Hs as [|kv fl Hs IH Hall]; simpl; constructor; [done|].
    apply Forall_fmap. eapply Forall_impl; [exact Hall|]. by intros kv' ?.
  - intros n. unfold nodes_of, memfs.make. simpl memfs.files.
    rewrite list_elem_of_fmap. split.
    + intros [[k v] [-> Hin]]. simpl. split; [done|]. exists v. split; [|done].
      apply elem_of_list_to_map_1; [by apply sorted_keys_NoDup | done].
    + intros (Hd & data & Hf & Hsz). apply elem_of_list_to_map_2 in Hf.
      exists (utils.path n, data). split; [|done].
      destruct n as [p d z]. simpl in *. by subst.
Qed.

Lemma second_sync_only_skips_witness :
  is_listing demo_world.1 (nodes_of demo_source_files)
  ∧ is_listing demo_world.2 (nodes_of demo_target_files)
  ∧ ∃ w',
      sync.sync_files (nodes_of demo_source_files) (nodes_of demo_target_files)
        true (demo_world.1, demo_world.2) = Some (Ok true, w')
      ∧ is_listing w'.1 (nodes_of demo_source_files)
      ∧ ∀ target_files',
          is_listing w'.2 target_files' →
          ∃ actions,
            sync._get_sync_actions (nodes_of demo_source_files) target_files'
            = Some (actions, None)
            ∧ Forall (λ a : sync.action, a.1 = sync.Skip)
                (sync.filter_actions true actions).
Proof.
  assert (is_listing demo_world.1 (nodes_of demo_source_files)) as HS
    by (apply is_listing_make; repeat constructor).
  assert (is_listing demo_world.2 (nodes_of demo_target_files)) as HT
    by (apply is_listing_make; repeat constructor).
  split; [exact HS|]. split; [exact HT|].
  eexists. split; [vm_compute; reflexivity|].
  eapply (second_sync_only_skips _ _ _ _ _ HS HT). vm_compute. reflexivity.
Defined.

Example first_sync_actions :
  sync._get_sync_actions (nodes_of demo_source_files) (nodes_of demo_target_files)
  = Some ([(sync.Skip, "/a.txt"); (sync.Upload, "/b.txt"); (sync.Upload, "/c.txt");
           (sync.Delete, "/d.txt")], None).
Proof. reflexivity. Qed.

(** ** MultiFS: writes go to the write layer *)

Lemma on_layer_eq {St File} `{LayerFS St File} {A} i (op : M St A)
    (m : multifs.MultiFS St) fs :
  multifs.fs_sequence m !! i = Some fs →
  multifs.on_layer i op m = ((op fs).1, with_layer i (op fs).2 m).
Proof. intros Hi. unfold multifs.on_layer. rewrite Hi. by destruct (op fs). Qed.

Lemma with_layer_lookup {St} i (fs0 fs : St) (m : multifs.MultiFS St) :
  multifs.fs_sequence m !! i = Some fs0 →
  multifs.fs_sequence (with_layer i fs m) !! i = Some fs.
Proof.
  intros Hi. unfold with_layer. simpl.
  apply list_lookup_insert_eq. by eapply lookup_lt_Some.
Qed.

Lemma with_layer_twice {St} i (fs1 fs2 : St) (m : multifs.MultiFS St) :
  with_layer i fs2 (with_layer i fs1 m) = with_layer i fs2 m.
Proof. unfold with_layer. simpl. by rewrite list_insert_insert_eq. Qed.

Lemma same_other_layers_refl {St} i (m : multifs.MultiFS St) :
  same_other_layers i m m.
Proof. by repeat split. Qed.

Lemma same_other_layers_trans {St} i (m1 m2 m3 : multifs.MultiFS St) :
  same_other_layers i m1 m2 → same_other_layers i m2 m3 → same_other_layers i m1 m3.
Proof.
  intros (Hw1 & Hl1 & Ho1) (Hw2 & Hl2 & Ho2). split; [congruence|].
  split; [congruence|]. intros j Hj. rewrite Ho2, Ho1; done.
Qed.

Lemma on_layer_same_others {St File} `{LayerFS St File} {A} i (op : M St A)
    (m : multifs.MultiFS St) :
  same_other_layers i m (multifs.on_layer i op m).2.
Proof.
  unfold multifs.on_layer.
  destruct (multifs.fs_sequence m !! i) as [fs|]; [|apply same_other_layers_refl].
  destruct (op fs) as [r fs']. unfold same_other_layers.
  cbn [snd multifs.fs_sequence multifs.writefs]. split; [done|].
  split; [apply length_insert|]. intros j Hj. by apply list_lookup_insert_ne.
Qed.

Lemma autocreate_same_others {St File} `{LayerFS St File} {A} i path mode
    (body : M (multifs.MultiFS St) A) (m : multifs.MultiFS St) :
  multifs.writefs m = multifs.WriteLayer i →
  same_other_layers i m (body m).2 →
  same_other_layers i m
    (multifs._autocreate_missing_writefs_directory path mode body m).2.
Proof.
  intros Hw Hbody. unfold multifs._autocreate_missing_writefs_directory, try_except.
  destruct (body m) as [[a|e] m1]; [done|]. simpl in Hbody.
  destruct (multifs.autocreate_catches e); [|done].
  assert (multifs.writefs m1 = multifs.WriteLayer i) as Hw1 by (destruct Hbody; congruence).
  rewrite Hw1.
  destruct (mode_has "w" mode || mode_has "+" mode || mode_has "a" mode); [|done].
  destruct (multifs.fs_sequence m1 !! i) as [wfs|]; [|done].
  destruct (negb (fs_exists (dirname path) wfs)); [|done].
  unfold bind.
  pose proof (on_layer_same_others i (fs_makedir (dirname path) true true) m1) as Hmk.
  destruct (multifs.on_layer i (fs_makedir (dirname path) true true) m1)
    as [[[]|e'] m2]; simpl in *; by eapply same_other_layers_trans.
Qed.

Lemma retry_same_others {St File} `{LayerFS St File} {A} i
    (attempt retry : M (multifs.MultiFS St) A) (m : multifs.MultiFS St) :
  multifs.writefs m = multifs.WriteLayer i →
  same_other_layers i m (attempt m).2 →
  (∀ m1, multifs.writefs m1 = multifs.WriteLayer i → same_other_layers i m1 (retry m1).2) →
  same_other_layers i m (multifs.retry_if_created attempt retry m).2.
Proof.
  intros Hw Hatt Hretry. unfold multifs.retry_if_created, try_except.
  destruct (attempt m) as [[a|e] m1]; [done|]. simpl in Hatt.
  destruct e; try done.
  eapply same_other_layers_trans; [exact Hatt | apply Hretry].
  destruct Hatt. congruence.
Qed.

Lemma super_open_write {St File} `{LayerFS St File} path mode i
    (m : multifs.MultiFS St) :
  is_write_mode mode = true → multifs.writefs m = multifs.WriteLayer i →
  multifs.super_open path mode m = multifs.on_layer i (fs_open path mode) m.
Proof.
  unfold multifs.super_open, is_write_mode. intros -> ->. done.
Qed.

(** [makedir], [remove], [setcontents] and [open] in a write, append or
    update mode on an instance whose [writefs] has been assigned.  When it
    is [None], they fail with the "No writeable FS set" error and leave the
    layered filesystem as it is.  When it is a layer, they leave every
    other layer object in the state it was in; [makedir] and [remove] are
    the call of the same method on the write layer, and so are
    [setcontents] and [open] when that call returns. *)
Lemma write_layer_routing {St File} `{LayerFS St File}
    (m : multifs.MultiFS St) (path data mode : string)
    (recursive allow_recreate : bool) :
  is_write_mode mode = true →
  (multifs.writefs m = multifs.WriteNone →
     multifs.makedir path recursive allow_recreate m
     = (Err (OperationFailedError "makedir" path "No writeable FS set"), m)
     ∧ multifs.remove path m
       = (Err (OperationFailedError "remove" path "No writeable FS set"), m)
     ∧ multifs.setcontents path data m
       = (Err (OperationFailedError "setcontents" path "No writeable FS set"), m)
     ∧ multifs.open path mode m
       = (Err (OperationFailedError "open" path "No writeable FS set"), m))
  ∧ (∀ i, multifs.writefs m = multifs.WriteLayer i →
       same_other_layers i m (multifs.makedir path recursive allow_recreate m).2
       ∧ same_other_layers i m (multifs.remove path m).2
       ∧ same_other_layers i m (multifs.setcontents path data m).2
       ∧ same_other_layers i m (multifs.open path mode m).2)
  ∧ (∀ i wfs, multifs.writefs m = multifs.WriteLayer i →
       multifs.fs_sequence m !! i = Some wfs →
       multifs.makedir path recursive allow_recreate m
       = ((fs_makedir path recursive allow_recreate wfs).1,
          with_layer i (fs_makedir path recursive allow_recreate wfs).2 m)
       ∧ multifs.remove path m
         = ((fs_remove path wfs).1, with_layer i (fs_remove path wfs).2 m)
       ∧ (∀ wfs1, fs_setcontents path data wfs = (Ok tt, wfs1) →
            multifs.setcontents path data m = (Ok tt, with_layer i wfs1 m))
       ∧ (∀ f wfs1, fs_open path mode wfs = (Ok f, wfs1) →
            multifs.open path mode m = (Ok f, with_layer i wfs1 m))).
Proof.
  intros Hmode. split; [|split].
  - intros Hw. unfold multifs.makedir, multifs.remove, multifs.setcontents.
    rewrite Hw. repeat split.
    unfold multifs.open, multifs.retry_if_created,
      multifs._autocreate_missing_writefs_directory, try_except, multifs.super_open.
    unfold is_write_mode in Hmode. rewrite Hmode, Hw. done.
  - intros i Hw. unfold multifs.makedir, multifs.remove, multifs.setcontents.
    rewrite Hw. split; [apply on_layer_same_others|].
    split; [apply on_layer_same_others|]. split.
    + apply retry_same_others; [done| |intros; apply on_layer_same_others].
      apply autocreate_same_others; [done | apply on_layer_same_others].
    + unfold multifs.open.
      apply retry_same_others; [done| |].
      * apply autocreate_same_others; [done|].
        rewrite (super_open_write _ _ i) by done. apply on_layer_same_others.
      * intros m1 Hw1. rewrite (super_open_write _ _ i) by done.
        apply on_layer_same_others.
  - intros i wfs Hw Hi. split; [|split; [|split]].
    + unfold multifs.makedir. rewrite Hw. by apply on_layer_eq.
    + unfold multifs.remove. rewrite Hw. by apply on_layer_eq.
    + intros wfs1 Hop. unfold multifs.setcontents. rewrite Hw.
      unfold multifs.retry_if_created,
        multifs._autocreate_missing_writefs_directory, try_except.
      by rewrite (on_layer_eq i _ m wfs Hi), Hop.
    + intros f wfs1 Hop.
      unfold multifs.open, multifs.retry_if_created,
        multifs._autocreate_missing_writefs_directory, try_except.
      rewrite (super_open_write _ _ i) by done.
      by rewrite (on_layer_eq i _ m wfs Hi), Hop.
Qed.

(** C7: on an instance to which no write layer was ever given, as
    [__init__] leaves it or after layers were added with [addfs(name, fs)]
    only, [makedir], [remove], [setcontents] and [open] in a write, append
    or update mode change nothing, but what they raise is the
    [AttributeError] of reading [self.writefs], not the "No writeable FS
    set" error: [__init__] has assigned [None] to [write_fs], an attribute
    that nothing reads. *)
Theorem writes_before_any_write_layer {St File} `{LayerFS St File}
    (layers : list St) (path data mode : string)
    (recursive allow_recreate : bool) :
  is_write_mode mode = true →
  let m := multifs.mkMultiFS layers multifs.NoAttribute in
  multifs.makedir path recursive allow_recreate m
  = (Err (AttributeError "'MultiFS' object has no attribute 'writefs'"), m)
  ∧ multifs.remove path m
    = (Err (AttributeError "'MultiFS' object has no attribute 'writefs'"), m)
  ∧ multifs.setcontents path data m
    = (Err (AttributeError "'MultiFS' object has no attribute 'writefs'"), m)
  ∧ multifs.open path mode m
    = (Err (AttributeError "'MultiFS' object has no attribute 'writefs'"), m).
Proof.
  intros Hmode m. unfold is_write_mode in Hmode.
  repeat split.
  unfold multifs.open, multifs.retry_if_created,
    multifs._autocreate_missing_writefs_directory, try_except, multifs.super_open.
  by rewrite Hmode.
Qed.

Lemma writes_before_any_write_layer_witness :
  is_write_mode "wb" = true
  ∧ multifs.setcontents "/img/new.png" "data" multifs.__init__
    = (Err (AttributeError "'MultiFS' object has no attribute 'writefs'"),
       multifs.__init__)
  ∧ multifs.makedir "/img" false false demo_layered_unset
    = (Err (AttributeError "'MultiFS' object has no attribute 'writefs'"),
       demo_layered_unset)
  ∧ multifs.open "/img/new.png" "wb" demo_layered_unset
    = (Err (AttributeError "'MultiFS' object has no attribute 'writefs'"),
       demo_layered_unset).
Proof.
  assert (is_write_mode "wb" = true) as Hmode by reflexivity.
  split; [exact Hmode|].
  destruct (writes_before_any_write_layer (@nil memfs.MemFS) "/img/new.png" "data"
              "wb" false false Hmode) as (_ & _ & Hset & _).
  split; [exact Hset|].
  destruct (writes_before_any_write_layer (multifs.fs_sequence demo_layered)
              "/img" "data" "wb" false false Hmode) as (Hmk & _ & _ & _).
  split; [exact Hmk|].
  destruct (writes_before_any_write_layer (multifs.fs_sequence demo_layered)
              "/img/new.png" "data" "wb" false false Hmode) as (_ & _ & _ & Hopen).
  exact Hopen.
Defined.

(** ** MultiFS: repair of a missing parent directory *)

(** The [try ... with _autocreate_missing_writefs_directory ... except
    CreatedDirectory] pattern around a call [op] on the write layer, when
    the call raises an exception the context manager catches. *)
Lemma autocreate_retry {St File} `{LayerFS St File} {A} (op : M St A)
    (path mode : string) (i : nat) (m : multifs.MultiFS St) (wfs wfs1 : St)
    (e : error) :
  multifs.writefs m = multifs.WriteLayer i →
  multifs.fs_sequence m !! i = Some wfs →
  is_write_mode mode = true →
  op wfs = (Err e, wfs1) →
  multifs.autocreate_catches e = true →
  (fs_exists (dirname path) wfs1 = true →
     multifs.retry_if_created
       (multifs._autocreate_missing_writefs_directory path mode
          (multifs.on_layer i op))
       (multifs.on_layer i op) m
     = (Err e, with_layer i wfs1 m))
  ∧ (fs_exists (dirname path) wfs1 = false →
     ∀ wfs2, fs_makedir (dirname path) true true wfs1 = (Ok tt, wfs2) →
     ∀ r wfs3, op wfs2 = (r, wfs3) →
       multifs.retry_if_created
         (multifs._autocreate_missing_writefs_directory path mode
            (multifs.on_layer i op))
         (multifs.on_layer i op) m
       = (r, with_layer i wfs3 m)).
Proof.
  intros Hw Hi Hmode Hop Hcatch.
  unfold multifs.retry_if_created, multifs._autocreate_missing_writefs_directory,
    try_except.
  rewrite (on_layer_eq i op m wfs Hi), Hop. cbn [fst snd].
  rewrite Hcatch.
  assert (multifs.writefs (with_layer i wfs1 m) = multifs.WriteLayer i) as Hw1 by done.
  assert (multifs.fs_sequence (with_layer i wfs1 m) !! i = Some wfs1) as Hi1
    by by eapply with_layer_lookup.
  rewrite Hw1, Hi1. unfold is_write_mode in Hmode. rewrite Hmode.
  split.
  - intros Hex. rewrite Hex. cbn [negb].
    destruct e; try discriminate Hcatch; done.
  - intros Hex wfs2 Hmk r wfs3 Hretry. rewrite Hex. cbn [negb].
    unfold bind, raise.
    rewrite (on_layer_eq i _ _ wfs1 Hi1), Hmk. cbn [fst snd].
    rewrite with_layer_twice.
    assert (multifs.fs_sequence (with_layer i wfs2 m) !! i = Some wfs2) as Hi2
      by by eapply with_layer_lookup.
    rewrite (on_layer_eq i _ _ wfs2 Hi2), Hretry. cbn [fst snd].
    by rewrite with_layer_twice.
Qed.

Lemma open_write_unfold {St File} `{LayerFS St File} (path mode : string) (i : nat)
    (m : multifs.MultiFS St) :
  is_write_mode mode = true → multifs.writefs m = multifs.WriteLayer i →
  multifs.open path mode m
  = multifs.retry_if_created
      (multifs._autocreate_missing_writefs_directory path mode
         (multifs.on_layer i (fs_open path mode)))
      (multifs.on_layer i (fs_open path mode)) m.
Proof.
  intros Hmode Hw. unfold multifs.open, multifs.retry_if_created, try_except.
  assert (multifs._autocreate_missing_writefs_directory path mode
            (multifs.super_open path mode) m
          = multifs._autocreate_missing_writefs_directory path mode
              (multifs.on_layer i (fs_open path mode)) m) as ->.
  { unfold multifs._autocreate_missing_writefs_directory, try_except.
    by rewrite (super_open_write _ _ i). }
  pose proof (autocreate_same_others i path mode
                (multifs.on_layer i (fs_open path mode)) m Hw
                (on_layer_same_others i _ m)) as (Hw1 & _).
  destruct (multifs._autocreate_missing_writefs_directory path mode
              (multifs.on_layer i (fs_open path mode)) m) as [[f|e] m1]; [done|].
  simpl in Hw1. destruct e; try done.
  apply super_open_write; [done | congruence].
Qed.

(** An exception of a class the context manager does not catch, raised
    by a call [op] on the write layer, passes through the [try ... with
    ... except CreatedDirectory] pattern: no directory is created and
    nothing is retried. *)
Lemma autocreate_passes {St File} `{LayerFS St File} {A} (op : M St A)
    (path mode : string) (i : nat) (m : multifs.MultiFS St) (wfs wfs1 : St)
    (e : error) :
  multifs.fs_sequence m !! i = Some wfs →
  op wfs = (Err e, wfs1) →
  multifs.autocreate_catches e = false → e ≠ CreatedDirectory →
  multifs.retry_if_created
    (multifs._autocreate_missing_writefs_directory path mode
       (multifs.on_layer i op))
    (multifs.on_layer i op) m
  = (Err e, with_layer i wfs1 m).
Proof.
  intros Hi Hop Hcatch Hne.
  unfold multifs.retry_if_created, multifs._autocreate_missing_writefs_directory,
    try_except.
  rewrite (on_layer_eq i _ m wfs Hi), Hop. cbn [fst snd]. rewrite Hcatch.
  by destruct e.
Qed.

(** C8: a write through the layered filesystem ([setcontents], or [open] in
    a write, append or update mode) whose call on the write layer raises an
    exception.  When the exception is an [OSError] or a
    [ResourceNotFoundError] and the parent directory exists on the write
    layer, that exception is what the caller gets.  When it is one of these
    two and the parent directory does not exist, the directory is created
    on the write layer and the same call is made once more: its outcome,
    success or exception, is the outcome of the operation, and the write
    layer is left as the three calls left it.  When the exception is of any
    other class, [ParentDirectoryMissingError] included, it is what the
    caller gets, and the write layer is left as the one call left it: no
    directory is created and nothing is retried.  ([CreatedDirectory], the
    private signal of the module, is not an exception of a backend.) *)
Theorem missing_parent_repaired_once {St File} `{LayerFS St File}
    (m : multifs.MultiFS St) (i : nat) (wfs : St) (path : string) :
  multifs.writefs m = multifs.WriteLayer i →
  multifs.fs_sequence m !! i = Some wfs →
  (∀ data e wfs1,
     fs_setcontents path data wfs = (Err e, wfs1) →
     (multifs.autocreate_catches e = true →
        (fs_exists (dirname path) wfs1 = true →
           multifs.setcontents path data m = (Err e, with_layer i wfs1 m))
        ∧ (fs_exists (dirname path) wfs1 = false →
           ∀ wfs2, fs_makedir (dirname path) true true wfs1 = (Ok tt, wfs2) →
           ∀ r wfs3, fs_setcontents path data wfs2 = (r, wfs3) →
             multifs.setcontents path data m = (r, with_layer i wfs3 m)))
     ∧ (multifs.autocreate_catches e = false → e ≠ CreatedDirectory →
        multifs.setcontents path data m = (Err e, with_layer i wfs1 m)))
  ∧ (∀ mode e wfs1,
       is_write_mode mode = true →
       fs_open path mode wfs = (Err e, wfs1) →
       (multifs.autocreate_catches e = true →
          (fs_exists (dirname path) wfs1 = true →
             multifs.open path mode m = (Err e, with_layer i wfs1 m))
          ∧ (fs_exists (dirname path) wfs1 = false →
             ∀ wfs2, fs_makedir (dirname path) true true wfs1 = (Ok tt, wfs2) →
             ∀ r wfs3, fs_open path mode wfs2 = (r, wfs3) →
               multifs.open path mode m = (r, with_layer i wfs3 m)))
       ∧ (multifs.autocreate_catches e = false → e ≠ CreatedDirectory →
          multifs.open path mode m = (Err e, with_layer i wfs1 m))).
Proof.
  intros Hw Hi. split.
  - intros data e wfs1 Hop. split.
    + intros Hcatch. unfold multifs.setcontents. rewrite Hw.
      by apply (autocreate_retry (fs_setcontents path data) path "w" i m wfs wfs1 e).
    + intros Hcatch Hne. unfold multifs.setcontents. rewrite Hw.
      by apply (autocreate_passes (fs_setcontents path data) path "w" i m wfs wfs1 e).
  - intros mode e wfs1 Hmode Hop. rewrite (open_write_unfold _ _ i) by done. split.
    + intros Hcatch.
      by apply (autocreate_retry (fs_open path mode) path mode i m wfs wfs1 e).
    + intros Hcatch Hne.
      by apply (autocreate_passes (fs_open path mode) path mode i m wfs wfs1 e).
Qed.

Lemma missing_parent_repaired_once_witness :
  multifs.writefs demo_layered = multifs.WriteLayer 0
  ∧ ∃ wfs wfs1 wfs2 wfs3,
      multifs.fs_sequence demo_layered !! 0%nat = Some wfs
      ∧ fs_setcontents "/img/new.png" "data" wfs
        = (Err (ResourceNotFoundError "/img/new.png"), wfs1)
      ∧ fs_exists (dirname "/img/new.png") wfs1 = false
      ∧ fs_makedir (dirname "/img/new.png") true true wfs1 = (Ok tt, wfs2)
      ∧ fs_setcontents "/img/new.png" "data" wfs2 = (Ok tt, wfs3)
      ∧ multifs.setcontents "/img/new.png" "data" demo_layered
        = (Ok tt, with_layer 0 wfs3 demo_layered)
      ∧ memfs.files wfs3 !! "/img/new.png" = Some "data"
      ∧ memfs.calls wfs3
        = [memfs.CallSetcontents "/img/new.png"; memfs.CallMakedir "/img";
           memfs.CallSetcontents "/img/new.png"].
Proof.
  split; [reflexivity|].
  eexists _, _, _, _.
  split; [reflexivity|].
  split; [vm_compute; reflexivity|].
  split; [vm_compute; reflexivity|].
  split; [vm_compute; reflexivity|].
  split; [vm_compute; reflexivity|].
  split.
  - refine (proj2 (proj1 (proj1 (missing_parent_repaired_once demo_layered 0 _
                                   "/img/new.png" eq_refl eq_refl)
                            "data" (ResourceNotFoundError "/img/new.png") _ _)
                     eq_refl)
                  _ _ _ _ _ _).
    + vm_compute; reflexivity.
    + vm_compute; reflexivity.
    + vm_compute; reflexivity.
    + vm_compute; reflexivity.
  - split; vm_compute; reflexivity.
Defined.

(** A write layer that reports the missing parent directory with
    [ParentDirectoryMissingError]: the parent directory of the path is
    missing on the write layer and the write fails because of it, yet the
    layered filesystem makes the one call, creates no directory and lets
    the exception through. *)
Lemma parent_missing_error_not_repaired :
  multifs.writefs demo_layered_pdm = multifs.WriteLayer 0
  ∧ ∃ wfs m',
      multifs.fs_sequence demo_layered_pdm !! 0%nat = Some wfs
      ∧ fs_exists (dirname "/img/new.png") wfs = false
      ∧ multifs.setcontents "/img/new.png" "data" demo_layered_pdm
        = (Err (ParentDirectoryMissingError "/img/new.png"), m')
      ∧ (memfs.calls <$> multifs.fs_sequence m')
        = [[memfs.CallSetcontents "/img/new.png"]; []]
      ∧ (memfs.dirs <$> multifs.fs_sequence m')
        = (memfs.dirs <$> multifs.fs_sequence demo_layered_pdm).
Proof.
  split; [reflexivity|].
  eexists _, _.
  split; [reflexivity|].
  split; [vm_compute; reflexivity|].
  split; [vm_compute; reflexivity|].
  split; vm_compute; reflexivity.
Qed.

(** ** os.path.dirname *)

Lemma drop_while_suffix {A} (f : A → bool) (l : list A) :
  ∃ k, l = k ++ drop_while f l.
Proof.
  induction l as [|x l [k IH]]; simpl; [by exists []|].
  destruct (f x); [|by exists []].
  exists (x :: k). simpl. by f_equal.
Qed.

Lemma length_string_of_list_ascii (l : list ascii) :
  String.length (String.string_of_list_ascii l) = length l.
Proof. induction l; simpl; by f_equal. Qed.

Lemma dirname_suffix (q : string) :
  ∃ k x, rev (String.list_ascii_of_string q) = k ++ x
         ∧ dirname q = String.string_of_list_ascii (rev x).
Proof.
  unfold dirname.
  set (l := rev (String.list_ascii_of_string q)).
  destruct (drop_while_suffix (λ c, negb (is_slash c)) l) as [k1 Hk1].
  set (h := drop_while (λ c, negb (is_slash c)) l) in *.
  destruct (drop_while_suffix is_slash h) as [k2 Hk2].
  destruct (drop_while is_slash h) as [|c s] eqn:Hs.
  - by exists k1, h.
  - exists (k1 ++ k2), (c :: s). split; [|done].
    rewrite <- app_assoc, <- Hk2. exact Hk1.
Qed.

Lemma dirname_length (q : string) :
  (String.length (dirname q) ≤ String.length q)%nat
  ∧ (String.length (dirname q) = String.length q → dirname q = q).
Proof.
  destruct (dirname_suffix q) as (k & x & Hl & ->).
  rewrite length_string_of_list_ascii, length_rev.
  assert (String.length q = length (k ++ x)) as Hlen.
  { rewrite <- Hl, length_rev.
    rewrite <- (String.string_of_list_ascii_of_string q) at 1.
    apply length_string_of_list_ascii. }
  rewrite Hlen, length_app. split; [lia|].
  intros Hk. assert (k = []) as -> by (destruct k; simpl in *; [done | lia]).
  simpl in Hl. rewrite <- Hl, rev_involutive.
  apply String.string_of_list_ascii_of_string.
Qed.

Lemma ancestors_length (n : nat) (q q' : string) :
  q' ∈ memfs.ancestors n q → (String.length q' ≤ String.length q)%nat.
Proof.
  revert q. induction n as [|n IH]; intros q; simpl; [by intros ?%elem_of_nil|].
  destruct (memfs.is_root q); [by intros ?%elem_of_nil|].
  intros [->|Hin]%elem_of_cons; [done|].
  apply IH in Hin. pose proof (dirname_length q) as [? _]. lia.
Qed.

Lemma not_ancestor_of_parent (n : nat) (p : string) :
  dirname p ≠ p → p ∉ memfs.ancestors n (dirname p).
Proof.
  intros Hne Hin. apply ancestors_length in Hin.
  destruct (dirname_length p) as [Hle Heq]. apply Hne, Heq. lia.
Qed.

Lemma ancestors_head (q : string) :
  memfs.is_root q = false → q ∈ memfs.ancestors (String.length q) q.
Proof.
  intros Hr. destruct q as [|c q]; [done|]. simpl memfs.ancestors.
  rewrite Hr. by left.
Qed.

(** ** The in-memory backend: open and makedir *)

Lemma is_read_mode_flags (mode : string) :
  is_read_mode mode = true →
  mode_has "w" mode = false ∧ mode_has "a" mode = false ∧ mode_has "+" mode = false.
Proof.
  unfold is_read_mode.
  destruct (mode_has "w" mode), (mode_has "a" mode), (mode_has "+" mode); by intros.
Qed.

Lemma memfs_open_read_hit (p mode : string) (fs : memfs.MemFS) (data : string) :
  mode_has "w" mode = false → mode_has "a" mode = false →
  memfs.files fs !! p = Some data →
  memfs.open p mode fs
  = (Ok (memfs.mkFile (memfs.fsname fs) p mode 0),
     memfs.log (memfs.CallOpen p mode) fs).
Proof.
  intros Hw Ha Hf. unfold memfs.open. rewrite Hw. simpl memfs.files.
  by rewrite Hf, Ha.
Qed.

Lemma memfs_open_read_miss (p mode : string) (fs : memfs.MemFS) :
  mode_has "w" mode = false → mode_has "a" mode = false →
  memfs.files fs !! p = None → memfs.has_dir p fs = false →
  memfs.open p mode fs
  = (Err (ResourceNotFoundError p), memfs.log (memfs.CallOpen p mode) fs).
Proof.
  intros Hw Ha Hf Hd. unfold memfs.open. rewrite Hw. simpl memfs.files.
  rewrite Hf, Ha.
  change (memfs.has_dir p (memfs.log (memfs.CallOpen p mode) fs))
    with (memfs.has_dir p fs).
  by rewrite Hd.
Qed.

Lemma memfs_open_wb (p : string) (fs : memfs.MemFS) :
  memfs.has_dir p fs = false →
  memfs.open p "wb" fs
  = if memfs.has_dir (dirname p) fs then
      (Ok (memfs.mkFile (memfs.fsname fs) p "wb" 0),
       memfs.set_files (<[p := ""]> (memfs.files fs))
         (memfs.log (memfs.CallOpen p "wb") fs))
    else (Err (memfs.missing_parent p fs), memfs.log (memfs.CallOpen p "wb") fs).
Proof.
  intros Hd. unfold memfs.open. change (mode_has "w" "wb") with true. cbv iota.
  unfold memfs.put.
  change (memfs.has_dir p (memfs.log (memfs.CallOpen p "wb") fs))
    with (memfs.has_dir p fs).
  change (memfs.has_dir (dirname p) (memfs.log (memfs.CallOpen p "wb") fs))
    with (memfs.has_dir (dirname p) fs).
  rewrite Hd. by destruct (memfs.has_dir (dirname p) fs).
Qed.

Lemma memfs_makedir_missing (q : string) (fs : memfs.MemFS) :
  memfs.files fs !! q = None → memfs.has_dir q fs = false →
  ∃ fs',
    memfs.makedir q true true fs = (Ok tt, fs')
    ∧ memfs.files fs' = memfs.files fs
    ∧ memfs.fsname fs' = memfs.fsname fs
    ∧ memfs.has_dir q fs' = true
    ∧ ∀ p, memfs.has_dir p fs = false → p ≠ q →
           p ∉ memfs.ancestors (String.length q) q →
           memfs.has_dir p fs' = false.
Proof.
  intros Hf Hd. unfold memfs.makedir.
  assert (memfs.has_file q (memfs.log (memfs.CallMakedir q) fs) = false) as ->.
  { unfold memfs.has_file. simpl. rewrite Hf.
    apply bool_decide_eq_false_2. by intros [? ?]. }
  change (memfs.has_dir q (memfs.log (memfs.CallMakedir q) fs))
    with (memfs.has_dir q fs).
  rewrite Hd.
  assert (memfs.is_root q = false) as Hroot.
  { unfold memfs.has_dir in Hd. by apply orb_false_iff in Hd as [? _]. }
  destruct (memfs.has_dir (dirname q) _).
  - eexists. split; [done|]. split; [done|]. split; [done|]. split.
    + unfold memfs.has_dir. simpl. rewrite Hroot. simpl.
      apply bool_decide_eq_true_2. apply elem_of_union_l. by apply elem_of_singleton.
    + intros p Hp Hne _. unfold memfs.has_dir in *. simpl.
      apply orb_false_iff in Hp as [-> Hp]. simpl.
      apply bool_decide_eq_false in Hp. apply bool_decide_eq_false_2.
      rewrite elem_of_union, elem_of_singleton. tauto.
  - eexists. split; [done|]. split; [done|]. split; [done|]. split.
    + unfold memfs.has_dir. simpl. rewrite Hroot. simpl.
      apply bool_decide_eq_true_2. apply elem_of_union_l, elem_of_list_to_set.
      by apply ancestors_head.
    + intros p Hp _ Hanc. unfold memfs.has_dir in *. simpl.
      apply orb_false_iff in Hp as [-> Hp]. simpl.
      apply bool_decide_eq_false in Hp. apply bool_decide_eq_false_2.
      rewrite elem_of_union, elem_of_list_to_set. tauto.
Qed.

(** ** CacheFS *)


Lemma open_new_file_ok (c : cachefs.CacheFS) (p : string) :
  memfs.has_dir p (cachefs.cachefs c) = false →
  dirname p ≠ p →
  (memfs.has_dir (dirname p) (cachefs.cachefs c) = true
   ∨ (memfs.raises_pdm (cachefs.cachefs c) = false
      ∧ memfs.files (cachefs.cachefs c) !! dirname p = None)) →
  ∃ cf,
    cachefs.open_new_file p c
    = (Ok (memfs.mkFile (memfs.fsname (cachefs.cachefs c)) p "wb" 0),
       cachefs.mkCacheFS (cachefs.wrapped_fs c) cf (cachefs.test_mode c)
         (cachefs._cachefs c))
    ∧ memfs.files cf = <[p := ""]> (memfs.files (cachefs.cachefs c))
    ∧ memfs.fsname cf = memfs.fsname (cachefs.cachefs c).
Proof.
  intros Hd Hne Hpar. unfold cachefs.open_new_file, try_except, cachefs.on_cache.
  rewrite memfs_open_wb by done.
  destruct (memfs.has_dir (dirname p) (cachefs.cachefs c)) eqn:Hpd.
  { eexists. split; [done|]. by split. }
  destruct Hpar as [?|[Hpdm Hpf]]; [done|].
  unfold memfs.missing_parent. rewrite Hpdm. unfold bind. cbn [cachefs.cachefs].
  destruct (memfs_makedir_missing (dirname p)
              (memfs.log (memfs.CallOpen p "wb") (cachefs.cachefs c)))
    as (cf2 & -> & Hf2 & Hn2 & Hd2 & Hother); [done..|].
  cbn [cachefs.cachefs].
  rewrite memfs_open_wb.
  - rewrite Hd2. eexists. split; [by rewrite Hn2|].
    split; [|done]. simpl. by rewrite Hf2.
  - apply Hother; [done | done |]. by apply not_ancestor_of_parent.
Qed.

Lemma cache_open_miss (normpath : string → string) (c : cachefs.CacheFS)
    (path mode data : string) :
  is_read_mode mode = true →
  memfs.files (cachefs.cachefs c) !! normpath path = None →
  memfs.has_dir (normpath path) (cachefs.cachefs c) = false →
  memfs.files (cachefs.wrapped_fs c) !! normpath path = Some data →
  dirname (normpath path) ≠ normpath path →
  (memfs.has_dir (dirname (normpath path)) (cachefs.cachefs c) = true
   ∨ (memfs.raises_pdm (cachefs.cachefs c) = false
      ∧ memfs.files (cachefs.cachefs c) !! dirname (normpath path) = None)) →
  ∃ c',
    cachefs.open normpath path mode c
    = (Ok (cachefs.PlainFile
             (memfs.mkFile
                (if str_eq mode "rb" then memfs.fsname (cachefs.wrapped_fs c)
                 else memfs.fsname (cachefs.cachefs c))
                (normpath path) mode 0)), c')
    ∧ memfs.calls (cachefs.wrapped_fs c')
      = memfs.calls (cachefs.wrapped_fs c)
        ++ memfs.CallOpen (normpath path) "rb" :: memfs.CallRead (normpath path)
           :: (if str_eq mode "rb" then [] else [memfs.CallClose (normpath path)])
    ∧ memfs.files (cachefs.wrapped_fs c') = memfs.files (cachefs.wrapped_fs c)
    ∧ memfs.files (cachefs.cachefs c')
      = <[normpath path := data]> (memfs.files (cachefs.cachefs c))
    ∧ memfs.fsname (cachefs.cachefs c') = memfs.fsname (cachefs.cachefs c).
Proof.
  intros Hmode Hmiss Hnd Hsrc Hne Hpar.
  pose proof (is_read_mode_flags _ Hmode) as (Hw & Ha & Hp).
  set (p := normpath path) in *.
  unfold cachefs.open. fold p. rewrite Hw, Ha, Hp. cbn [orb].
  unfold try_except at 1. unfold bind at 1. unfold cachefs.on_cache at 1.
  rewrite memfs_open_read_miss by done.
  unfold bind at 1. unfold cachefs.on_source at 1. cbn [cachefs.wrapped_fs].
  rewrite (memfs_open_read_hit p "rb" _ data) by done.
  unfold bind at 1.
  destruct (open_new_file_ok
              (cachefs.mkCacheFS
                 (memfs.log (memfs.CallOpen p "rb") (cachefs.wrapped_fs c))
                 (memfs.log (memfs.CallOpen p mode) (cachefs.cachefs c))
                 (cachefs.test_mode c) (cachefs._cachefs c)) p)
    as (cf & Hopen & Hcf & Hcn); [done..|].
  cbn [cachefs.cachefs cachefs.wrapped_fs cachefs.test_mode cachefs._cachefs] in *.
  rewrite Hopen. clear Hopen.
  unfold bind at 1. unfold cachefs.on_source at 1. cbn [cachefs.wrapped_fs].
  unfold memfs.read, memfs.seek0. cbn [memfs.fh_path memfs.fh_pos memfs.fh_fs
    memfs.fh_mode]. simpl memfs.files. rewrite Hsrc, string_drop_0.
  unfold bind at 1. unfold cachefs.on_cache at 1. cbn [cachefs.cachefs].
  unfold memfs.write. cbn [memfs.fh_path]. simpl memfs.files.
  rewrite Hcf, lookup_insert_eq.
  unfold bind at 1. unfold cachefs.on_cache at 1. cbn [cachefs.cachefs].
  unfold memfs.close at 1. cbn [memfs.fh_path].
  destruct (str_eq mode "rb") eqn:Hrb.
  - apply str_eq_true in Hrb. subst mode. unfold ret.
    eexists. split; [reflexivity|]. cbn.
    split; [by rewrite <- app_assoc|]. split; [done|].
    split; [|done]. by rewrite insert_insert_eq.
  - unfold bind at 1. unfold cachefs.on_source at 1. cbn [cachefs.wrapped_fs].
    unfold memfs.close at 1. cbn [memfs.fh_path].
    unfold bind at 1. unfold cachefs.on_cache at 1. cbn [cachefs.cachefs].
    rewrite (memfs_open_read_hit p mode _ data); [|done|done|].
    + unfold ret. eexists. split; [cbn; by rewrite Hcn|]. cbn.
      split; [by rewrite <- !app_assoc|]. split; [done|].
      split; [|done]. by rewrite insert_insert_eq.
    + simpl. by rewrite insert_insert_eq, lookup_insert_eq.
Qed.




Lemma has_file_false (p : string) (fs : memfs.MemFS) :
  memfs.has_file p fs = false → memfs.files fs !! p = None.
Proof.
  unfold memfs.has_file. intros Hf%bool_decide_eq_false.
  destruct (memfs.files fs !! p) eqn:E; [|done]. exfalso. apply Hf. by eexists.
Qed.

Lemma purge_spec (p : string) (c : cachefs.CacheFS) :
  ∃ r cf,
    cachefs._purge p c
    = (r, cachefs.mkCacheFS (cachefs.wrapped_fs c) cf (cachefs.test_mode c)
            (cachefs._cachefs c))
    ∧ memfs.files cf !! p = None
    ∧ (∀ q, q ≠ p → memfs.files cf !! q = memfs.files (cachefs.cachefs c) !! q)
    ∧ memfs.calls cf = memfs.calls (cachefs.cachefs c) ++ [memfs.CallRemove p]
    ∧ memfs.dirs cf = memfs.dirs (cachefs.cachefs c)
    ∧ memfs.raises_pdm cf = memfs.raises_pdm (cachefs.cachefs c)
    ∧ (memfs.has_dir p (cachefs.cachefs c) = false → r = Ok tt).
Proof.
  unfold cachefs._purge, try_except, cachefs.on_cache, memfs.remove.
  change (memfs.has_file p (memfs.log (memfs.CallRemove p) (cachefs.cachefs c)))
    with (memfs.has_file p (cachefs.cachefs c)).
  change (memfs.has_dir p (memfs.log (memfs.CallRemove p) (cachefs.cachefs c)))
    with (memfs.has_dir p (cachefs.cachefs c)).
  destruct (memfs.has_file p (cachefs.cachefs c)) eqn:Hf.
  - eexists _, _. split; [reflexivity|]. cbn.
    split; [apply lookup_delete_eq|].
    split; [by intros q Hq; apply lookup_delete_ne|]. done.
  - apply has_file_false in Hf.
    destruct (memfs.has_dir p (cachefs.cachefs c)) eqn:Hd.
    + eexists _, _. split; [reflexivity|]. cbn. by repeat split.
    + eexists _, _. split; [reflexivity|]. cbn. by repeat split.
Qed.

(** C6: [setcontents] performs the write on the source and then, whether
    the write returned or raised, removes the path from the cache backend
    exactly once.  Afterwards the cache backend has no entry for the path;
    removing an entry that is not there raises nothing, so the caller sees
    the outcome of the source write; and the next read-mode [open] of the
    path goes to the source and is served what the source holds then. *)
Theorem setcontents_invalidates_cache (normpath : string → string)
    (c : cachefs.CacheFS) (path data : string) :
  ∃ r c',
    cachefs.setcontents normpath path data c = (r, c')
    ∧ cachefs.wrapped_fs c'
      = (memfs.setcontents (normpath path) data (cachefs.wrapped_fs c)).2
    ∧ memfs.calls (cachefs.cachefs c')
      = memfs.calls (cachefs.cachefs c) ++ [memfs.CallRemove (normpath path)]
    ∧ memfs.files (cachefs.cachefs c') !! normpath path = None
    ∧ (memfs.has_dir (normpath path) (cachefs.cachefs c) = false →
         r = (memfs.setcontents (normpath path) data (cachefs.wrapped_fs c)).1)
    ∧ (memfs.files (cachefs.cachefs c) !! normpath path = None →
       memfs.has_dir (normpath path) (cachefs.cachefs c) = false →
         (cachefs._purge (normpath path) c).1 = Ok tt)
    ∧ (∀ mode data',
         is_read_mode mode = true →
         memfs.files (cachefs.wrapped_fs c') !! normpath path = Some data' →
         memfs.has_dir (normpath path) (cachefs.cachefs c) = false →
         dirname (normpath path) ≠ normpath path →
         (memfs.has_dir (dirname (normpath path)) (cachefs.cachefs c) = true
          ∨ (memfs.raises_pdm (cachefs.cachefs c) = false
             ∧ memfs.files (cachefs.cachefs c) !! dirname (normpath path) = None)) →
         ∃ f c'',
           cachefs.open normpath path mode c' = (Ok (cachefs.PlainFile f), c'')
           ∧ memfs.calls (cachefs.wrapped_fs c'')
             = memfs.calls (cachefs.wrapped_fs c')
               ++ memfs.CallOpen (normpath path) "rb"
                  :: memfs.CallRead (normpath path)
                  :: (if str_eq mode "rb" then []
                      else [memfs.CallClose (normpath path)])
           ∧ memfs.files (cachefs.cachefs c'') !! normpath path = Some data').
Proof.
  set (p := normpath path).
  unfold cachefs.setcontents. fold p. unfold try_finally, cachefs.on_source.
  destruct (memfs.setcontents p data (cachefs.wrapped_fs c)) as [r0 src'] eqn:Hset.
  destruct (purge_spec p (cachefs.mkCacheFS src' (cachefs.cachefs c)
                            (cachefs.test_mode c) (cachefs._cachefs c)))
    as (rp & cf & Hpurge & Hnone & Hother & Hcalls & Hdirs & Hpdm & Hrp).
  cbn [cachefs.wrapped_fs cachefs.cachefs cachefs.test_mode cachefs._cachefs] in *.
  rewrite Hpurge.
  assert (∀ q, memfs.has_dir q cf = memfs.has_dir q (cachefs.cachefs c)) as Hhd.
  { intros q. unfold memfs.has_dir. by rewrite Hdirs. }
  exists (match rp with Ok _ => r0 | Err e => Err e end),
    (cachefs.mkCacheFS src' cf (cachefs.test_mode c) (cachefs._cachefs c)).
  split.
  { destruct rp as [[]|e]; reflexivity. }
  cbn [cachefs.wrapped_fs cachefs.cachefs fst snd].
  split; [done|]. split; [done|]. split; [done|]. split.
  { intros Hd. by rewrite (Hrp Hd). }
  split.
  { intros Hmiss Hd.
    destruct (purge_spec p c) as (rp' & cf' & -> & _ & _ & _ & _ & _ & Hrp').
    simpl. by apply Hrp'. }
  intros mode data' Hmode Hsrc Hd Hne Hpar.
  destruct (cache_open_miss normpath
              (cachefs.mkCacheFS src' cf (cachefs.test_mode c) (cachefs._cachefs c))
              path mode data' Hmode) as (c'' & Hopen & Hc & _ & Hcf & _).
  - done.
  - cbn. fold p. by rewrite Hhd.
  - done.
  - done.
  - cbn. fold p. rewrite Hhd, Hpdm.
    destruct Hpar as [?|[? ?]]; [by left | right]. split; [done|].
    rewrite Hother; done.
  - eexists _, c''. split; [exact Hopen|]. split; [exact Hc|].
    fold p in Hcf. cbn in Hcf. by rewrite Hcf, lookup_insert_eq.
Qed.

Lemma setcontents_invalidates_cache_witness :
  ∃ r c',
    cachefs.setcontents normpath_id "/img/logo.png" "new" demo_cachefs_stale = (r, c')
    ∧ memfs.files (cachefs.cachefs demo_cachefs_stale) !! "/img/logo.png" = Some "old"
    ∧ memfs.files (cachefs.cachefs c') !! "/img/logo.png" = None
    ∧ memfs.files (cachefs.wrapped_fs c') !! "/img/logo.png" = Some "new"
    ∧ ∃ f c'',
        cachefs.open normpath_id "/img/logo.png" "r" c' = (Ok (cachefs.PlainFile f), c'')
        ∧ memfs.files (cachefs.cachefs c'') !! "/img/logo.png" = Some "new".
Proof.
  destruct (setcontents_invalidates_cache normpath_id demo_cachefs_stale
              "/img/logo.png" "new")
    as (r & c' & Hset & Hsrc & _ & Hnone & _ & _ & Hread).
  exists r, c'. split; [exact Hset|]. split; [vm_compute; reflexivity|].
  split; [exact Hnone|].
  assert (memfs.files (cachefs.wrapped_fs c') !! "/img/logo.png" = Some "new")
    as Hnew by (rewrite Hsrc; vm_compute; reflexivity).
  split; [exact Hnew|].
  destruct (Hread "r" "new" eq_refl Hnew) as (f & c'' & Hopen & _ & Hhit).
  - vm_compute; reflexivity.
  - vm_compute. discriminate.
  - left. vm_compute; reflexivity.
  - exists f, c''. split; [exact Hopen | exact Hhit].
Defined.

(** The source write raises (its directory is missing) and the stale entry
    is purged all the same. *)
Example failed_write_still_purges :
  (cachefs.setcontents normpath_id "/new/f.txt" "data" demo_cachefs_unwritable).1
  = Err (ResourceNotFoundError "/new/f.txt")
  ∧ memfs.files (cachefs.cachefs demo_cachefs_unwritable) !! "/new/f.txt" = Some "old"
  ∧ memfs.files
      (cachefs.cachefs
         (cachefs.setcontents normpath_id "/new/f.txt" "data"
            demo_cachefs_unwritable).2) !! "/new/f.txt" = None.
Proof. repeat split; vm_compute; reflexivity. Qed.

(** * Further properties

    The remaining part covers more of the four modules: the diff on
    arbitrary inputs, the effect of a run on the two filesystems, the path
    and factory helpers of [utils.py], the read side of the layered view
    and the test mode and write path of the caching filesystem. *)

(** ** The diff on arbitrary sequences *)

(** Induction along the comparisons [_get_sync_actions] makes. *)
Lemma merge_actions_ind
    (P : list utils.WalkNode → list utils.WalkNode → list sync.action → Prop) :
  P [] [] [] →
  (∀ y t, P [] t (sync.merge_actions [] t) →
          P [] (y :: t) ((sync.Delete, utils.path y) :: sync.merge_actions [] t)) →
  (∀ x s, P s [] (sync.merge_actions s []) →
          P (x :: s) [] ((sync.Upload, utils.path x) :: sync.merge_actions s [])) →
  (∀ x s y t, utils.path x = utils.path y →
     P s t (sync.merge_actions s t) →
     P (x :: s) (y :: t)
       ((if utils.size x =? utils.size y then sync.Skip else sync.Upload, utils.path x)
          :: sync.merge_actions s t)) →
  (∀ x s y t, str_lt (utils.path y) (utils.path x) →
     P (x :: s) t (sync.merge_actions (x :: s) t) →
     P (x :: s) (y :: t)
       ((sync.Delete, utils.path y) :: sync.merge_actions (x :: s) t)) →
  (∀ x s y t, str_lt (utils.path x) (utils.path y) →
     P s (y :: t) (sync.merge_actions s (y :: t)) →
     P (x :: s) (y :: t)
       ((sync.Upload, utils.path x) :: sync.merge_actions s (y :: t))) →
  ∀ s t, P s t (sync.merge_actions s t).
Proof.
  intros H0 Hd Hu Heq Hgt Hlt s.
  induction s as [|x s IHs]; intros t; induction t as [|y t IHt].
  - exact H0.
  - rewrite merge_actions_nil_cons. by apply Hd.
  - rewrite merge_actions_cons_nil. by apply Hu.
  - rewrite merge_actions_cons_cons.
    destruct (str_eq (utils.path x) (utils.path y)) eqn:E.
    { apply Heq; [by apply str_eq_true | apply IHs]. }
    destruct (str_gt (utils.path x) (utils.path y)) eqn:G.
    + apply Hgt; [by apply str_gt_true | exact IHt].
    + apply Hlt; [|apply IHs].
      apply str_gt_true. by apply str_gt_false_both.
Qed.

(** The path of an action is the path of a node that was given. *)
Lemma merge_actions_paths s t f p :
  (f, p) ∈ sync.merge_actions s t →
  match f with
  | sync.Upload => p ∈ sync.paths s
  | sync.Delete => p ∈ sync.paths t
  | sync.Skip => p ∈ sync.paths s ∧ p ∈ sync.paths t
  end.
Proof.
  revert f p. unfold sync.paths. revert s t.
  apply (merge_actions_ind (λ s t acts, ∀ f p, (f, p) ∈ acts →
    match f with
    | sync.Upload => p ∈ map utils.path s
    | sync.Delete => p ∈ map utils.path t
    | sync.Skip => p ∈ map utils.path s ∧ p ∈ map utils.path t
    end)).
  - intros f p H. by apply elem_of_nil in H.
  - intros y t IH f p [[= -> ->]|H]%elem_of_cons; simpl; [left|].
    specialize (IH f p H). destruct f; simpl; [done| by right |].
    destruct IH. split; [done | by right].
  - intros x s IH f p [[= -> ->]|H]%elem_of_cons; simpl; [left|].
    specialize (IH f p H). destruct f; simpl; [by right | done |].
    destruct IH. split; [by right | done].
  - intros x s y t Hxy IH f p [[= -> ->]|H]%elem_of_cons; simpl.
    + destruct (utils.size x =? utils.size y); [|left].
      split; [left | rewrite Hxy; left].
    + specialize (IH f p H). destruct f; [by right | by right |].
      destruct IH. split; by right.
  - intros x s y t Hlt IH f p [[= -> ->]|H]%elem_of_cons; [left|].
    specialize (IH f p H). destruct f; [done | by right |].
    destruct IH. split; [done | by right].
  - intros x s y t Hlt IH f p [[= -> ->]|H]%elem_of_cons; [left|].
    specialize (IH f p H). destruct f; [by right | done |].
    destruct IH. split; [by right | done].
Qed.

Lemma merge_actions_same (l : list utils.WalkNode) :
  sync.merge_actions l l = map (λ node, (sync.Skip, utils.path node)) l.
Proof.
  induction l as [|x l IH]; [done|].
  rewrite merge_actions_cons_cons.
  replace (str_eq (utils.path x) (utils.path x)) with true
    by (symmetry; by apply str_eq_true).
  rewrite Z.eqb_refl, IH. done.
Qed.

(** X1: comparing a sequence of nodes with itself yields one skip per
    node, in the order of the sequence, whether or not it is sorted. *)
Theorem diff_with_itself_skips (files : list utils.WalkNode) :
  sync._get_sync_actions files files
  = Some (map (λ node, (sync.Skip, utils.path node)) files, None).
Proof. by rewrite get_sync_actions_merge, merge_actions_same. Qed.

(** X2: against an empty target every source node is uploaded, and
    against an empty source every target node is deleted, in the order
    given; with both empty nothing is yielded. *)
Theorem diff_against_empty (files : list utils.WalkNode) :
  sync._get_sync_actions files []
  = Some (map (λ node, (sync.Upload, utils.path node)) files, None)
  ∧ sync._get_sync_actions [] files
    = Some (map (λ node, (sync.Delete, utils.path node)) files, None)
  ∧ (sync.filter_actions false <$> (fst <$> sync._get_sync_actions [] files))
    = Some [].
Proof.
  rewrite !get_sync_actions_merge.
  assert (sync.merge_actions [] files
          = map (λ node, (sync.Delete, utils.path node)) files) as Hd.
  { induction files as [|x l IH]; [done|].
    by rewrite merge_actions_nil_cons, IH. }
  split; [|split].
  - do 2 f_equal. induction files as [|x l IH]; [done|].
    by rewrite merge_actions_cons_nil, IH.
  - by rewrite Hd.
  - rewrite Hd. clear Hd. simpl. f_equal.
    induction files as [|x l IH]; [done|].
    simpl. rewrite filter_cons_False; [exact IH|]. simpl. by intros [].

Qed.

(** X3: on strictly path-sorted inputs the actions are yielded in strictly
    increasing order of their paths. *)
Theorem diff_paths_increasing (source_files target_files : list utils.WalkNode) :
  StronglySorted sync.path_lt source_files →
  StronglySorted sync.path_lt target_files →
  ∃ actions,
    sync._get_sync_actions source_files target_files = Some (actions, None)
    ∧ StronglySorted str_lt actions.*2.
Proof.
  intros Hs Ht. exists (sync.merge_actions source_files target_files).
  split; [apply get_sync_actions_merge|].
  revert Hs Ht.
  generalize source_files, target_files. clear source_files target_files.
  assert (∀ q s t,
            Forall (λ x, str_lt q (utils.path x)) s →
            Forall (λ x, str_lt q (utils.path x)) t →
            Forall (str_lt q) (sync.merge_actions s t).*2) as Hbelow.
  { intros q s t Fs Ft. apply Forall_forall. intros p Hp.
    apply list_elem_of_fmap in Hp as ([f p'] & -> & Hin). simpl.
    apply merge_actions_paths in Hin.
    rewrite Forall_forall in Fs, Ft.
    assert (∀ l, (∀ x, x ∈ l → str_lt q (utils.path x)) →
                 p' ∈ sync.paths l → str_lt q p') as Hl.
    { intros l Fl Hp'. apply list_elem_of_fmap in Hp' as (x & -> & Hx). by apply Fl. }
    destruct f; [by apply (Hl s) | by apply (Hl t) | destruct Hin; by apply (Hl s)]. }
  apply (merge_actions_ind (λ s t acts,
    StronglySorted sync.path_lt s → StronglySorted sync.path_lt t →
    StronglySorted str_lt acts.*2)).
  - constructor.
  - intros y t IH Hs Ht. apply StronglySorted_inv in Ht as [Ht Hy].
    rewrite fmap_cons. cbn [snd]. constructor; [by apply IH|]. by apply Hbelow.
  - intros x s IH Hs Ht. apply StronglySorted_inv in Hs as [Hs Hx].
    rewrite fmap_cons. cbn [snd]. constructor; [by apply IH|]. by apply Hbelow.
  - intros x s y t Hxy IH Hs Ht.
    apply StronglySorted_inv in Hs as [Hs Hx].
    apply StronglySorted_inv in Ht as [Ht Hy].
    rewrite fmap_cons. cbn [snd]. constructor; [by apply IH|].
    apply Hbelow; [done|]. unfold sync.path_lt in Hy. by rewrite Hxy.
  - intros x s y t Hlt IH Hs Ht.
    apply StronglySorted_inv in Ht as [Ht Hy].
    rewrite fmap_cons. cbn [snd]. constructor; [by apply IH|].
    apply Hbelow; [|done]. by apply sorted_below_lt.
  - intros x s y t Hlt IH Hs Ht.
    apply StronglySorted_inv in Hs as [Hs Hx].
    rewrite fmap_cons. cbn [snd]. constructor; [by apply IH|].
    apply Hbelow; [done|]. by apply sorted_below_lt.
Qed.

Lemma diff_paths_increasing_witness :
  StronglySorted sync.path_lt (nodes_of demo_source_files)
  ∧ StronglySorted sync.path_lt (nodes_of demo_target_files)
  ∧ ∃ actions,
      sync._get_sync_actions (nodes_of demo_source_files) (nodes_of demo_target_files)
      = Some (actions, None)
      ∧ StronglySorted str_lt actions.*2.
Proof.
  assert (StronglySorted sync.path_lt (nodes_of demo_source_files)) as Hs.
  { repeat constructor. }
  assert (StronglySorted sync.path_lt (nodes_of demo_target_files)) as Ht.
  { repeat constructor. }
  split; [exact Hs|]. split; [exact Ht|].
  exact (diff_paths_increasing _ _ Hs Ht).
Defined.

(** X4: whatever the order of the inputs, no node is left out and no path
    is made up: every source node gets an upload or a skip, every target
    node an action of some kind, an uploaded path is a source path, a
    deleted path is a target path, a skipped path is in both, and the
    number of actions lies between the longer length and the sum of the
    two lengths. *)
Theorem diff_accounts_for_every_node (source_files target_files : list utils.WalkNode) :
  ∃ actions,
    sync._get_sync_actions source_files target_files = Some (actions, None)
    ∧ (∀ a, a ∈ source_files →
         (sync.Upload, utils.path a) ∈ actions ∨ (sync.Skip, utils.path a) ∈ actions)
    ∧ (∀ b, b ∈ target_files → utils.path b ∈ actions.*2)
    ∧ (∀ p, (sync.Upload, p) ∈ actions → p ∈ sync.paths source_files)
    ∧ (∀ p, (sync.Delete, p) ∈ actions → p ∈ sync.paths target_files)
    ∧ (∀ p, (sync.Skip, p) ∈ actions →
         p ∈ sync.paths source_files ∧ p ∈ sync.paths target_files)
    ∧ (length source_files `max` length target_files ≤ length actions)%nat
    ∧ (length actions ≤ length source_files + length target_files)%nat.
Proof.
  exists (sync.merge_actions source_files target_files).
  split; [apply get_sync_actions_merge|].
  generalize source_files, target_files. clear source_files target_files.
  intros s0 t0.
  split; [|split; [|split; [|split; [|split]]]]; revert s0 t0.
  - apply (merge_actions_ind (λ s t acts, ∀ a, a ∈ s →
      (sync.Upload, utils.path a) ∈ acts ∨ (sync.Skip, utils.path a) ∈ acts)).
    + intros a H. by apply elem_of_nil in H.
    + intros y t IH a H. by apply elem_of_nil in H.
    + intros x s IH a [->|H]%elem_of_cons; [left; left|].
      destruct (IH a H); [left | right]; by right.
    + intros x s y t Hxy IH a [->|H]%elem_of_cons.
      * destruct (utils.size x =? utils.size y); [right | left]; left.
      * destruct (IH a H); [left | right]; by right.
    + intros x s y t Hlt IH a H.
      destruct (IH a H); [left | right]; by right.
    + intros x s y t Hlt IH a [->|H]%elem_of_cons; [left; left|].
      destruct (IH a H); [left | right]; by right.
  - apply (merge_actions_ind (λ s t acts, ∀ b, b ∈ t → utils.path b ∈ acts.*2)).
    + intros b H. by apply elem_of_nil in H.
    + intros y t IH b [->|H]%elem_of_cons; simpl; [left | right; by apply IH].
    + intros x s IH b H. by apply elem_of_nil in H.
    + intros x s y t Hxy IH b [->|H]%elem_of_cons; simpl.
      * rewrite Hxy. left.
      * right. by apply IH.
    + intros x s y t Hlt IH b [->|H]%elem_of_cons; simpl; [left | right; by apply IH].
    + intros x s y t Hlt IH b H. simpl. right. by apply IH.
  - intros s0 t0 p H. exact (merge_actions_paths _ _ _ _ H).
  - intros s0 t0 p H. exact (merge_actions_paths _ _ _ _ H).
  - intros s0 t0 p H. exact (merge_actions_paths _ _ _ _ H).
  - apply (merge_actions_ind (λ s t acts,
      (length s `max` length t ≤ length acts)%nat
      ∧ (length acts ≤ length s + length t)%nat)); simpl; intros; lia.
Qed.


(** ** What a run does to the two filesystems *)

Section preserved.
Context {W : Type} `{SyncFS W}.
Variable Inv : W → Prop.
Hypothesis copyfile_keeps : ∀ a b w, Inv w → Inv (copyfile a b w).2.
Hypothesis makedir_keeps : ∀ p w, Inv w → Inv (target_makedir p w).2.

Lemma copy_file_keeps (a b : string) (create_directory : bool) (w : W) :
  Inv w → Inv (utils.copy_file a b create_directory w).2.
Proof using copyfile_keeps makedir_keeps.
  intros Hw. unfold utils.copy_file.
  pose proof (copyfile_keeps a b w Hw) as H1.
  destruct (copyfile a b w) as [[[]|e] w1]; [exact H1|].
  destruct e; try exact H1.
  destruct create_directory; [|exact H1].
  pose proof (makedir_keeps (dirname b) w1 H1) as H2.
  destruct (target_makedir (dirname b) w1) as [[[]|e'] w2]; [|exact H2].
  by apply copyfile_keeps.
Qed.

Lemma upload_loop_keeps (n x : nat) (path : string) (w : W) :
  Inv w → Inv (sync.upload_loop n x path w).1.2.
Proof using copyfile_keeps makedir_keeps.
  revert x w. induction n as [|n IH]; intros x w Hw.
  { by rewrite upload_loop_0. }
  rewrite upload_loop_S.
  pose proof (copy_file_keeps path path true w Hw) as H1.
  destruct (utils.copy_file path path true w) as [[[]|e] w1]; [exact H1|].
  simpl in H1.
  assert (Inv (match target_makedir (dirname path) w1 with
               | (Ok _, w2) => sync.upload_loop n (S x) path w2
               | (Err e, w2) => (Err e, w2, S x)
               end).1.2) as Hmk.
  { pose proof (makedir_keeps (dirname path) w1 H1) as H2.
    destruct (target_makedir (dirname path) w1) as [[[]|e'] w2]; [|exact H2].
    by apply IH. }
  destruct e; try exact H1; try exact Hmk.
  destruct (source_exists path w1); [exact Hmk|].
  destruct (source_hassyspath path w1); [|by apply IH].
  destruct (source_bad_symlink path w1); [exact H1 | by apply IH].
Qed.

Lemma run_actions_keeps (actions : list sync.action) (w : W) :
  Forall (λ a : sync.action, a.1 ≠ sync.Delete) actions →
  Inv w → Inv (sync.run_actions actions w).2.
Proof using copyfile_keeps makedir_keeps.
  revert w. induction actions as [|a actions IH]; intros w Hall Hw; [done|].
  apply Forall_cons in Hall as [Ha Hall].
  rewrite run_actions_cons.
  assert (Inv (sync.perform a w).2) as Hp.
  { destruct a as [[] p]; unfold sync.perform; cbn [fst snd].
    - by apply upload_loop_keeps.
    - done.
    - done. }
  destruct (sync.perform a w) as [[[]|e] w1]; [by apply IH | exact Hp].
Qed.

End preserved.

Lemma filter_actions_false_no_delete (actions : list sync.action) :
  Forall (λ a : sync.action, a.1 ≠ sync.Delete) (sync.filter_actions false actions).
Proof.
  apply Forall_forall. intros a Ha. unfold sync.filter_actions in Ha.
  by apply list_elem_of_filter in Ha as [? _].
Qed.

(** X5: with [delete_missing] off a sequential run acts on the two
    filesystems through [copyfile] and the target's [makedir] only: every
    property of their state that these two calls keep holds after the run,
    whether it returned or raised.  In particular the target's [remove] is
    never called. *)
Theorem sync_without_delete_keeps {W} `{SyncFS W} (Inv : W → Prop)
    (source_files target_files : list utils.WalkNode) (w : W) :
  (∀ a b w0, Inv w0 → Inv (copyfile a b w0).2) →
  (∀ p w0, Inv w0 → Inv (target_makedir p w0).2) →
  Inv w →
  ∃ r w',
    sync.sync_files source_files target_files false w = Some (r, w') ∧ Inv w'.
Proof.
  intros Hc Hm Hw. unfold sync.sync_files. rewrite get_sync_actions_merge.
  pose proof (run_actions_keeps Inv Hc Hm _ w
                (filter_actions_false_no_delete
                   (sync.merge_actions source_files target_files)) Hw) as Hrun.
  destruct (sync.run_actions _ w) as [[[]|e] w1]; eexists _, _; split; done.
Qed.

(** The files and directories of the two filesystems after
    [fs.utils.copyfile], for any pair of paths. *)
Lemma memfs_copy_effect src dst (w : memfs.MemFS * memfs.MemFS) r w1 :
  memfs.copy src dst w = (r, w1) →
  memfs.files w1.1 = memfs.files w.1
  ∧ memfs.dirs w1.1 = memfs.dirs w.1
  ∧ memfs.dirs w1.2 = memfs.dirs w.2
  ∧ memfs.raises_pdm w1.2 = memfs.raises_pdm w.2
  ∧ match r with
    | Ok _ => ∃ data, memfs.files w.1 !! src = Some data
                      ∧ memfs.files w1.2 = <[dst := data]> (memfs.files w.2)
    | Err _ => memfs.files w1.2 = memfs.files w.2
    end.
Proof.
  destruct w as [s t]. unfold memfs.copy, memfs.open. simpl fst. simpl snd.
  change (mode_has "w" "rb") with false. change (mode_has "a" "rb") with false.
  cbv iota. simpl memfs.files.
  destruct (memfs.files s !! src) as [data|] eqn:Hs.
  - unfold memfs.read. simpl memfs.files. simpl memfs.fh_path. rewrite Hs.
    simpl memfs.fh_pos. rewrite string_drop_0.
    destruct (memfs.setcontents dst data t) as [r' t'] eqn:Hset.
    intros [= <- <-]. split; [done|]. split; [done|].
    unfold memfs.setcontents in Hset.
    assert (memfs.dirs t' = memfs.dirs t ∧ memfs.raises_pdm t' = memfs.raises_pdm t)
      as [Hd Hp].
    { revert Hset. unfold memfs.put.
      destruct (memfs.has_dir dst _); [by intros [= <- <-]|].
      destruct (memfs.has_dir (dirname dst) _); by intros [= <- <-]. }
    split; [done|]. split; [done|].
    apply memfs_put_files in Hset.
    destruct r'; [by exists data | done].
  - destruct (memfs.has_dir src _); by intros [= <- <-].
Qed.

Lemma memfs_makedir_dirs p rec allow fs :
  memfs.dirs fs ⊆ memfs.dirs (memfs.makedir p rec allow fs).2.
Proof.
  unfold memfs.makedir.
  destruct (memfs.has_file p _); [done|].
  destruct (memfs.has_dir p _); [by destruct allow|].
  destruct (memfs.has_dir (dirname p) _); simpl.
  { apply union_subseteq_r. }
  destruct rec; simpl; [apply union_subseteq_r | done].
Qed.

Lemma sync_without_delete_keeps_witness :
  is_Some (memfs.files demo_world.2 !! "/d.txt")
  ∧ ∃ r w',
      sync.sync_files (nodes_of demo_source_files) (nodes_of demo_target_files)
        false demo_world = Some (r, w')
      ∧ is_Some (memfs.files w'.2 !! "/d.txt").
Proof.
  assert (is_Some (memfs.files demo_world.2 !! "/d.txt")) as H0.
  { vm_compute. by eexists. }
  split; [exact H0|].
  apply (sync_without_delete_keeps
           (λ w : memfs.MemFS * memfs.MemFS, is_Some (memfs.files w.2 !! "/d.txt"))).
  - intros a b w0 Hw0. simpl copyfile.
    destruct (memfs.copy a b w0) as [r w1] eqn:Hc. simpl.
    apply memfs_copy_effect in Hc as (_ & _ & _ & _ & Hr).
    destruct r as [[]|e]; [|by rewrite Hr].
    destruct Hr as (data & _ & ->).
    destruct (decide (b = "/d.txt")) as [->|Hne].
    + rewrite lookup_insert_eq. by eexists.
    + by rewrite lookup_insert_ne.
  - intros p w0 Hw0.
    by rewrite (proj2 (memfs_target_makedir_files p w0)).
  - exact H0.
Defined.


(** The files of the two filesystems after one action, whatever its
    outcome. *)
Lemma memfs_perform_effect (a : sync.action) (w : memfs.MemFS * memfs.MemFS) r w1 :
  sync.perform a w = (r, w1) →
  memfs.files w1.1 = memfs.files w.1
  ∧ match r with
    | Ok _ =>
        match a.1 with
        | sync.Upload => ∃ data, memfs.files w.1 !! a.2 = Some data
                                 ∧ memfs.files w1.2 = <[a.2 := data]> (memfs.files w.2)
        | sync.Delete => memfs.files w1.2 = delete a.2 (memfs.files w.2)
        | sync.Skip => memfs.files w1.2 = memfs.files w.2
        end
    | Err _ => memfs.files w1.2 = memfs.files w.2
    end.
Proof.
  destruct a as [[] p]; unfold sync.perform; cbn [fst snd].
  - unfold sync.upload_file.
    destruct (sync.upload_loop 100 0 p w) as [[r' w2] k] eqn:Hl. simpl.
    intros [= -> ->]. by apply memfs_upload_loop_files in Hl.
  - unfold sync.delete_file. simpl.
    destruct (memfs.remove p w.2) as [r' t'] eqn:Hr. intros [= -> <-].
    apply memfs_remove_files in Hr. by destruct r.
  - unfold sync.skip_file. by intros [= <- <-].
Qed.

Lemma memfs_run_actions_effect (actions : list sync.action)
    (w : memfs.MemFS * memfs.MemFS) :
  memfs.files (sync.run_actions actions w).2.1 = memfs.files w.1
  ∧ ∀ p,
      ((sync.Upload, p) ∉ actions →
         memfs.files (sync.run_actions actions w).2.2 !! p = memfs.files w.2 !! p
         ∨ memfs.files (sync.run_actions actions w).2.2 !! p = None)
      ∧ ((sync.Delete, p) ∉ actions →
         is_Some (memfs.files w.2 !! p) →
         is_Some (memfs.files (sync.run_actions actions w).2.2 !! p)).
Proof.
  revert w. induction actions as [|a actions IH]; intros w.
  { split; [done|]. intros p. split; [by left | done]. }
  rewrite run_actions_cons.
  destruct (sync.perform a w) as [r w1] eqn:Hp.
  apply memfs_perform_effect in Hp as [Hs Ht].
  destruct r as [[]|e]; cbn [snd].
  2:{ split; [done|]. intros p. rewrite Ht. split; [by left | done]. }
  destruct (IH w1) as [IHs IHt]. split; [congruence|].
  intros p. destruct (IHt p) as [IHu IHd]. split.
  - intros Hnin. apply not_elem_of_cons in Hnin as [Hne Hnin].
    assert (memfs.files w1.2 !! p = memfs.files w.2 !! p
            ∨ memfs.files w1.2 !! p = None) as H1.
    { destruct a as [[] q]; simpl in Ht.
      - destruct Ht as (data & _ & ->).
        left. apply lookup_insert_ne. congruence.
      - rewrite Ht. destruct (decide (q = p)) as [->|Hqp].
        + right. apply lookup_delete_eq.
        + left. by apply lookup_delete_ne.
      - left. by rewrite Ht. }
    destruct (IHu Hnin) as [E|E]; [|by right].
    rewrite E. exact H1.
  - intros Hnin Hsome. apply not_elem_of_cons in Hnin as [Hne Hnin].
    apply IHd; [done|].
    destruct a as [[] q]; simpl in Ht.
    + destruct Ht as (data & _ & ->).
      destruct (decide (q = p)) as [->|Hqp].
      * rewrite lookup_insert_eq. by eexists.
      * by rewrite lookup_insert_ne.
    + rewrite Ht, lookup_delete_ne; [done|]. congruence.
    + by rewrite Ht.
Qed.

(** X6: a sequential run over in-memory filesystems, whatever the two
    sequences, the flag and the outcome, leaves the files of the source as
    they were, never writes a path that is not in the source sequence, and
    never removes a path that is not in the target sequence; with
    [delete_missing] off it removes nothing at all. *)
Theorem sync_files_stays_within_listings (source_files target_files : list utils.WalkNode)
    (delete_missing : bool) (w : memfs.MemFS * memfs.MemFS) :
  ∃ r w',
    sync.sync_files source_files target_files delete_missing w = Some (r, w')
    ∧ memfs.files w'.1 = memfs.files w.1
    ∧ (∀ p, p ∉ sync.paths source_files →
         memfs.files w'.2 !! p = memfs.files w.2 !! p
         ∨ memfs.files w'.2 !! p = None)
    ∧ (∀ p, p ∉ sync.paths target_files ∨ delete_missing = false →
         is_Some (memfs.files w.2 !! p) → is_Some (memfs.files w'.2 !! p)).
Proof.
  unfold sync.sync_files. rewrite get_sync_actions_merge.
  destruct (memfs_run_actions_effect
              (sync.filter_actions delete_missing
                 (sync.merge_actions source_files target_files)) w) as [Hs Ht].
  destruct (sync.run_actions _ w) as [r w1]. cbn [snd] in Hs, Ht.
  exists (match r with Ok _ => Ok true | Err e => Err e end), w1.
  split; [by destruct r|]. split; [exact Hs|]. split.
  - intros p Hp. apply (Ht p). intros Hin.
    apply elem_of_filter_actions in Hin as [_ Hin].
    by apply merge_actions_paths in Hin.
  - intros p Hp. apply (Ht p). intros Hin.
    apply elem_of_filter_actions in Hin as [Hdm Hin].
    apply merge_actions_paths in Hin.
    destruct Hp as [Hp| ->]; [done|]. by destruct Hdm.
Qed.

(** The contents that the actions of the diff give the target, read off
    from what a run over them does path by path. *)
Lemma memfs_contents_of_actions (source target : memfs.MemFS)
    (source_files target_files : list utils.WalkNode) (delete_missing : bool)
    (files' : gmap string string) :
  is_listing source source_files →
  is_listing target target_files →
  (∀ p,
     ((sync.Upload, p) ∈ sync.filter_actions delete_missing
                           (sync.merge_actions source_files target_files) →
        files' !! p = memfs.files source !! p)
     ∧ ((sync.Delete, p) ∈ sync.filter_actions delete_missing
                             (sync.merge_actions source_files target_files) →
        files' !! p = None)
     ∧ ((sync.Skip, p) ∈ sync.filter_actions delete_missing
                           (sync.merge_actions source_files target_files)
        ∨ p ∉ (sync.filter_actions delete_missing
                 (sync.merge_actions source_files target_files)).*2 →
        files' !! p = memfs.files target !! p)) →
  ∀ p,
    files' !! p
    = match memfs.files source !! p, memfs.files target !! p with
      | Some new, Some old =>
          if bool_decide (String.length new = String.length old)
          then Some old else Some new
      | Some new, None => Some new
      | None, Some old => if delete_missing then None else Some old
      | None, None => None
      end.
Proof.
  intros HS HT Htgt p.
  destruct (merge_actions_expected _ _ (proj1 HS) (proj1 HT)) as [Hin Hnd].
  destruct (Htgt p) as (Hu & Hd & Hk).
  pose proof (Hin sync.Upload p) as HinU.
  pose proof (Hin sync.Delete p) as HinD.
  pose proof (Hin sync.Skip p) as HinS.
  assert (sync.expected source_files target_files p = None →
          p ∉ (sync.filter_actions delete_missing
                 (sync.merge_actions source_files target_files)).*2) as Hnone.
  { intros E [[f1 p1] [Hp1 Hin1]]%list_elem_of_fmap. simpl in Hp1. subst p1.
    apply elem_of_filter_actions in Hin1 as [_ Hin1].
    apply Hin in Hin1. congruence. }
  unfold sync.expected in HinU, HinD, HinS, Hnone.
  rewrite (listing_lookup_size _ _ p HS), (listing_lookup_size _ _ p HT)
    in HinU, HinD, HinS, Hnone.
  destruct (memfs.files source !! p) as [new|] eqn:En;
    destruct (memfs.files target !! p) as [old|] eqn:Eo;
    cbn [fmap option_fmap option_map] in HinU, HinD, HinS, Hnone.
  - destruct (Z.of_nat (String.length new) =? Z.of_nat (String.length old)) eqn:Ez.
    + apply Z.eqb_eq in Ez. rewrite bool_decide_eq_true_2 by lia.
      apply Hk. left. apply elem_of_filter_actions.
      split; [by right|]. by apply HinS.
    + apply Z.eqb_neq in Ez. rewrite bool_decide_eq_false_2 by lia.
      apply Hu. apply elem_of_filter_actions.
      split; [by right|]. by apply HinU.
  - apply Hu. apply elem_of_filter_actions. split; [by right|]. by apply HinU.
  - destruct delete_missing.
    + apply Hd. apply elem_of_filter_actions. split; [by left|]. by apply HinD.
    + rewrite Hk; [done|]. right.
      intros [[f1 p1] [Hp1 Hin1]]%list_elem_of_fmap. simpl in Hp1. subst p1.
      apply elem_of_filter_actions in Hin1 as [[?|Hf] Hin1]; [done|].
      apply Hin in Hin1. unfold sync.expected in Hin1.
      rewrite (listing_lookup_size _ _ p HS), (listing_lookup_size _ _ p HT) in Hin1.
      rewrite En, Eo in Hin1. simpl in Hin1. congruence.
  - rewrite Hk; [done|]. right. by apply Hnone.
Qed.

(** X7: the contents of the target after a sequential run has succeeded
    on the path-sorted listings of two in-memory filesystems.  A path of
    the source ends up with the source's contents if the target lacked it
    or had a file of another size there; a file of the same size is left as
    it is, equal or not; a file the source lacks is removed when
    [delete_missing] is on and kept otherwise.  The source is unchanged. *)
Theorem sync_files_resulting_contents (source target : memfs.MemFS)
    (source_files target_files : list utils.WalkNode) (delete_missing : bool)
    (w' : memfs.MemFS * memfs.MemFS) :
  is_listing source source_files →
  is_listing target target_files →
  sync.sync_files source_files target_files delete_missing (source, target)
  = Some (Ok true, w') →
  memfs.files w'.1 = memfs.files source
  ∧ ∀ p,
      memfs.files w'.2 !! p
      = match memfs.files source !! p, memfs.files target !! p with
        | Some new, Some old =>
            if bool_decide (String.length new = String.length old)
            then Some old else Some new
        | Some new, None => Some new
        | None, Some old => if delete_missing then None else Some old
        | None, None => None
        end.
Proof.
  intros HS HT. unfold sync.sync_files. rewrite get_sync_actions_merge.
  destruct (sync.run_actions _ _) as [[[]|e] w1] eqn:Hrun; [|done].
  intros [= <-].
  destruct (merge_actions_expected _ _ (proj1 HS) (proj1 HT)) as [_ Hnd].
  pose proof (NoDup_filter_actions delete_missing _ Hnd) as Hnd'.
  destruct (memfs_run_actions_files _ _ _ Hnd' Hrun) as [Hsrc Htgt].
  split; [exact Hsrc|].
  by apply (memfs_contents_of_actions source target source_files target_files).
Qed.

Lemma sync_files_resulting_contents_witness :
  is_listing demo_world.1 (nodes_of demo_source_files)
  ∧ is_listing demo_world.2 (nodes_of demo_target_files)
  ∧ ∃ w',
      sync.sync_files (nodes_of demo_source_files) (nodes_of demo_target_files)
        false (demo_world.1, demo_world.2) = Some (Ok true, w')
      ∧ memfs.files w'.2 !! "/a.txt" = Some "xx"
      ∧ memfs.files w'.2 !! "/b.txt" = Some "bbb"
      ∧ memfs.files w'.2 !! "/c.txt" = Some "c"
      ∧ memfs.files w'.2 !! "/d.txt" = Some "d".
Proof.
  assert (is_listing demo_world.1 (nodes_of demo_source_files)) as HS.
  { apply is_listing_make. repeat constructor. }
  assert (is_listing demo_world.2 (nodes_of demo_target_files)) as HT.
  { apply is_listing_make. repeat constructor. }
  split; [exact HS|]. split; [exact HT|].
  eexists. split; [vm_compute; reflexivity|].
  match goal with
  | |- context [memfs.files ?w.2] =>
      pose proof (sync_files_resulting_contents demo_world.1 demo_world.2
                    (nodes_of demo_source_files) (nodes_of demo_target_files)
                    false w HS HT ltac:(vm_compute; reflexivity)) as [_ Hc]
  end.
  repeat split; rewrite Hc; vm_compute; reflexivity.
Defined.


(** ** A walk depends on the tree only *)

Lemma walk_fs_unfold {St} `{WalkFS St} (max_depth : nat) (fs : St) (path0 : string)
    (sort : bool) :
  utils.walk_fs max_depth fs path0 sort
  = flat_map
      (λ node,
         node ::
           (if utils.isdir node then
              match max_depth with
              | O => []
              | S d => utils.walk_fs d fs (utils.path node) sort
              end
            else []))
      (let nodes :=
         map (λ entry : string * gmap string Z,
                utils.mkWalkNode entry.1 (fs_isdir entry.1 fs)
                  (default 0 (entry.2 !! "size")))
             (ilistdirinfo path0 fs) in
       if sort then merge_sort utils.node_le nodes else nodes).
Proof. destruct max_depth; reflexivity. Qed.

Lemma memfs_has_dir_dirs (p : string) (fs fs' : memfs.MemFS) :
  memfs.dirs fs = memfs.dirs fs' → memfs.has_dir p fs = memfs.has_dir p fs'.
Proof. intros Hd. unfold memfs.has_dir. by rewrite Hd. Qed.

Lemma memfs_walk_fs_ext (max_depth : nat) (fs fs' : memfs.MemFS) (path0 : string)
    (sort : bool) :
  memfs.files fs = memfs.files fs' → memfs.dirs fs = memfs.dirs fs' →
  utils.walk_fs max_depth fs path0 sort = utils.walk_fs max_depth fs' path0 sort.
Proof.
  intros Hf Hd. revert path0.
  assert (∀ path0,
            map (λ entry : string * gmap string Z,
                   utils.mkWalkNode entry.1 (fs_isdir entry.1 fs)
                     (default 0 (entry.2 !! "size")))
                (ilistdirinfo path0 fs)
            = map (λ entry : string * gmap string Z,
                     utils.mkWalkNode entry.1 (fs_isdir entry.1 fs')
                       (default 0 (entry.2 !! "size")))
                  (ilistdirinfo path0 fs')) as Hnodes.
  { intros path0. simpl. unfold memfs.listdirinfo. rewrite Hf, Hd.
    apply map_ext. intros e. by rewrite (memfs_has_dir_dirs _ fs fs'). }
  induction max_depth as [|d IH]; intros path0; rewrite !walk_fs_unfold;
    cbv zeta; rewrite Hnodes; [done|].
  apply flat_map_ext. intros node. by rewrite IH.
Qed.

Lemma run_actions_skips {W} `{SyncFS W} (l : list utils.WalkNode) (w : W) :
  sync.run_actions (map (λ node, (sync.Skip, utils.path node)) l) w = (Ok tt, w).
Proof. induction l as [|x l IH]; [done|]. by rewrite fmap_cons, run_actions_cons. Qed.

Lemma filter_actions_skips (dm : bool) (l : list utils.WalkNode) :
  sync.filter_actions dm (map (λ node, (sync.Skip, utils.path node)) l)
  = map (λ node, (sync.Skip, utils.path node)) l.
Proof.
  destruct dm; [done|]. simpl.
  induction l as [|x l IH]; [done|].
  simpl. rewrite filter_cons_True by done. by rewrite IH.
Qed.

(** ** The generators of sync_fs *)

(** [compare_files] is the loop body that [gen_step] runs on sequences. *)
Lemma gen_step_compare_files (st : sync.gen_state) :
  sync.gen_step st
  = match sync.compare_files (sync.sfile st) (sync.tfile st) with
    | sync.Done => sync.StopIteration
    | sync.Fail e => sync.Raise e
    | sync.Act a sync.AdvanceSource => sync.Yield a (sync.advance_source st)
    | sync.Act a sync.AdvanceTarget => sync.Yield a (sync.advance_target st)
    | sync.Act a sync.AdvanceBoth =>
        sync.Yield a (sync.advance_target (sync.advance_source st))
    end.
Proof.
  unfold sync.gen_step, sync.compare_files.
  destruct (sync.sfile st) as [x|], (sync.tfile st) as [y|]; try done.
  destruct (str_eq _ _); [done|].
  destruct (str_gt (utils.path x) _); [done|]. by destruct (str_gt _ _).
Qed.

Lemma compare_files_merge (s t : list utils.WalkNode) :
  (s = [] ∧ t = [] ∧ sync.compare_files (head s) (head t) = sync.Done)
  ∨ ∃ a adv,
      sync.compare_files (head s) (head t) = sync.Act a adv
      ∧ sync.merge_actions s t
        = a :: sync.merge_actions (source_after adv s) (target_after adv t)
      ∧ (length (source_after adv s) + length (target_after adv t)
         < length s + length t)%nat
      ∧ (adv ≠ sync.AdvanceTarget → ∃ x, s = x :: source_after adv s)
      ∧ (adv ≠ sync.AdvanceSource → ∃ y, t = y :: target_after adv t).
Proof.
  destruct s as [|x s], t as [|y t]; [by left|right..].
  - exists (sync.Delete, utils.path y), sync.AdvanceTarget.
    rewrite merge_actions_nil_cons. simpl. repeat split; [lia|done|by eexists].
  - exists (sync.Upload, utils.path x), sync.AdvanceSource.
    rewrite merge_actions_cons_nil. simpl. repeat split; [lia|by eexists|done].
  - rewrite merge_actions_cons_cons. unfold sync.compare_files. cbn [head].
    destruct (str_eq (utils.path x) (utils.path y)) eqn:E.
    { eexists _, sync.AdvanceBoth. simpl.
      repeat split; [lia|by eexists|by eexists]. }
    destruct (str_gt (utils.path x) (utils.path y)) eqn:G.
    { eexists _, sync.AdvanceTarget. simpl.
      repeat split; [lia|done|by eexists]. }
    rewrite (str_gt_false_both _ _ E G).
    eexists _, sync.AdvanceSource. simpl.
    repeat split; [lia|by eexists|done].
Qed.

Lemma at_node_head {W I : Type} (P : W → Prop)
    (next : I → W → option utils.WalkNode * I) cur it l :
  at_node P next cur it l → cur = head l.
Proof. destruct l; [done|]. by intros [-> _]. Qed.

Lemma at_node_next {W I : Type} (P : W → Prop)
    (next : I → W → option utils.WalkNode * I) cur it x l w :
  at_node P next cur it (x :: l) → P w →
  at_node P next (next it w).1 (next it w).2 l.
Proof. intros [_ Hit] Hw. destruct l; simpl in *; by apply Hit. Qed.

Lemma filter_actions_cons (dm : bool) (a : sync.action) (rest : list sync.action) :
  sync.filter_actions dm (a :: rest)
  = if dm then a :: sync.filter_actions dm rest
    else if decide (a.1 = sync.Delete) then sync.filter_actions dm rest
    else a :: sync.filter_actions dm rest.
Proof.
  destruct dm; [done|]. unfold sync.filter_actions.
  destruct (decide (a.1 = sync.Delete)).
  - by rewrite filter_cons_False by (by intros ?).
  - by rewrite filter_cons_True.
Qed.

(** On iterators that yield the sequences [s] and [t] whatever the
    actions do, the loop of [sync_files] performs the merged diff of [s]
    and [t]. *)
Lemma sync_loop_lists {W} `{SyncFS W} {SI TI : Type} (P : W → Prop)
    (next_source : SI → W → option utils.WalkNode * SI)
    (next_target : TI → W → option utils.WalkNode * TI) (dm : bool) :
  ∀ fuel s t sfile tfile si ti w,
    at_node P next_source sfile si s →
    at_node P next_target tfile ti t →
    P w →
    (∀ a w0, a ∈ sync.filter_actions dm (sync.merge_actions s t) →
             P w0 → P (sync.perform a w0).2) →
    (length s + length t < fuel)%nat →
    snd <$> sync.sync_loop next_source next_target fuel dm sfile tfile si ti w
    = Some (loop_outcome
              (sync.run_actions (sync.filter_actions dm (sync.merge_actions s t)) w)).
Proof.
  induction fuel as [|fuel IH]; intros s t sfile tfile si ti w Hs Ht Hw Hpres Hfuel;
    [lia|].
  rewrite (at_node_head _ _ _ _ _ Hs), (at_node_head _ _ _ _ _ Ht).
  cbn [sync.sync_loop].
  destruct (compare_files_merge s t)
    as [(-> & -> & ->)|(a & adv & -> & Hm & Hlen & Hs1 & Ht1)]; [by destruct dm|].
  rewrite Hm in *. rewrite filter_actions_cons in *.
  set (performed := if dm then sync.perform a w
                    else if decide (a.1 = sync.Delete) then (Ok tt, w)
                    else sync.perform a w).
  assert (sync.run_actions
            (if dm then a :: sync.filter_actions dm
                               (sync.merge_actions (source_after adv s) (target_after adv t))
             else if decide (a.1 = sync.Delete)
                  then sync.filter_actions dm
                         (sync.merge_actions (source_after adv s) (target_after adv t))
                  else a :: sync.filter_actions dm
                              (sync.merge_actions (source_after adv s) (target_after adv t)))
            w
          = match performed with
            | (Ok _, w') =>
                sync.run_actions
                  (sync.filter_actions dm
                     (sync.merge_actions (source_after adv s) (target_after adv t))) w'
            | (Err e, w') => (Err e, w')
            end) as ->.
  { unfold performed. destruct dm; [apply run_actions_cons|].
    destruct (decide (a.1 = sync.Delete)); [done | apply run_actions_cons]. }
  assert (P performed.2
          ∧ ∀ a' w0, a' ∈ sync.filter_actions dm
                            (sync.merge_actions (source_after adv s) (target_after adv t)) →
                     P w0 → P (sync.perform a' w0).2) as [Hw' Hpres'].
  { unfold performed. destruct dm.
    - split; [apply Hpres; [by left|done]|]. intros a' w0 Ha'. apply Hpres. by right.
    - destruct (decide (a.1 = sync.Delete)).
      + split; [done|]. exact Hpres.
      + split; [apply Hpres; [by left|done]|]. intros a' w0 Ha'. apply Hpres.
        by right. }
  clearbody performed. destruct performed as [[[]|e] w']; [|done].
  cbn [snd] in Hw'.
  assert (at_node P next_source
            (match adv with
             | sync.AdvanceTarget => (head s, si)
             | _ => next_source si w'
             end).1
            (match adv with
             | sync.AdvanceTarget => (head s, si)
             | _ => next_source si w'
             end).2 (source_after adv s)) as Hs'.
  { destruct adv; simpl.
    - destruct Hs1 as [x Hx]; [done|]. simpl in Hx. rewrite Hx in Hs.
      by eapply at_node_next.
    - by rewrite <- (at_node_head _ _ _ _ _ Hs).
    - destruct Hs1 as [x Hx]; [done|]. simpl in Hx. rewrite Hx in Hs.
      by eapply at_node_next. }
  assert (at_node P next_target
            (match adv with
             | sync.AdvanceSource => (head t, ti)
             | _ => next_target ti w'
             end).1
            (match adv with
             | sync.AdvanceSource => (head t, ti)
             | _ => next_target ti w'
             end).2 (target_after adv t)) as Ht'.
  { destruct adv; simpl.
    - by rewrite <- (at_node_head _ _ _ _ _ Ht).
    - destruct Ht1 as [y Hy]; [done|]. simpl in Hy. rewrite Hy in Ht.
      by eapply at_node_next.
    - destruct Ht1 as [y Hy]; [done|]. simpl in Hy. rewrite Hy in Ht.
      by eapply at_node_next. }
  destruct (match adv with
            | sync.AdvanceTarget => (head s, si)
            | _ => next_source si w'
            end) as [sfile' si'].
  destruct (match adv with
            | sync.AdvanceSource => (head t, ti)
            | _ => next_target ti w'
            end) as [tfile' ti'].
  cbn [fst snd] in Hs', Ht'.
  specialize (IH _ _ sfile' tfile' si' ti' w' Hs' Ht' Hw' Hpres' ltac:(lia)).
  destruct (sync.sync_loop next_source next_target fuel dm sfile' tfile' si' ti' w')
    as [[actions r]|]; [|done].
  simpl in *. done.
Qed.

(** The two [next] calls before the loop, on such iterators. *)
Lemma sync_files_iter_lists {W} `{SyncFS W} {SI TI : Type} (P : W → Prop)
    (next_source : SI → W → option utils.WalkNode * SI)
    (next_target : TI → W → option utils.WalkNode * TI) (dm : bool)
    (fuel : nat) (s t : list utils.WalkNode) (si : SI) (ti : TI) (w : W) :
  at_node P next_source (next_source si w).1 (next_source si w).2 s →
  at_node P next_target (next_target ti w).1 (next_target ti w).2 t →
  P w →
  (∀ a w0, a ∈ sync.filter_actions dm (sync.merge_actions s t) →
           P w0 → P (sync.perform a w0).2) →
  (length s + length t < fuel)%nat →
  snd <$> sync.sync_files_iter next_source next_target fuel si ti dm w
  = Some (loop_outcome
            (sync.run_actions (sync.filter_actions dm (sync.merge_actions s t)) w)).
Proof.
  intros Hs Ht Hw Hpres Hfuel. unfold sync.sync_files_iter.
  destruct (next_source si w) as [sfile si'], (next_target ti w) as [tfile ti'].
  by apply (sync_loop_lists P).
Qed.

(** On iterators over sequences given in advance, which read no
    filesystem, this is [sync_files] on the sequences. *)
Lemma sync_files_iter_of_sequences {W} `{SyncFS W} (dm : bool) (fuel : nat)
    (s t : list utils.WalkNode) (w : W) :
  (length s + length t < fuel)%nat →
  snd <$> sync.sync_files_iter (λ it _, sync.next it) (λ it _, sync.next it)
            fuel s t dm w
  = sync.sync_files s t dm w.
Proof.
  intros Hfuel.
  assert (∀ l : list utils.WalkNode,
            iter_of (λ _ : W, True) (λ it _, sync.next it) l l) as Hit.
  { induction l as [|x l IH]; simpl; [done|]. intros _ _. by split. }
  assert (∀ l : list utils.WalkNode,
            at_node (λ _ : W, True) (λ it _, sync.next it)
              (sync.next l).1 (sync.next l).2 l) as Hat.
  { intros [|x l]; simpl; [done|]. by split. }
  rewrite (sync_files_iter_lists (λ _, True) _ _ dm fuel s t) by done.
  unfold sync.sync_files. rewrite get_sync_actions_merge.
  by destruct (sync.run_actions _ w) as [[[]|e] w'].
Qed.

(** More fuel than the loop needs changes nothing. *)
Lemma sync_loop_fuel {W} `{SyncFS W} {SI TI : Type}
    (next_source : SI → W → option utils.WalkNode * SI)
    (next_target : TI → W → option utils.WalkNode * TI) (dm : bool) (extra : nat) :
  ∀ fuel sfile tfile si ti w r,
    sync.sync_loop next_source next_target fuel dm sfile tfile si ti w = Some r →
    sync.sync_loop next_source next_target (fuel + extra) dm sfile tfile si ti w
    = Some r.
Proof.
  induction fuel as [|fuel IH]; intros sfile tfile si ti w r; [done|].
  cbn [sync.sync_loop Nat.add].
  destruct (sync.compare_files sfile tfile) as [a adv| |]; [|done..].
  destruct (if dm then sync.perform a w
            else if decide (a.1 = sync.Delete) then (Ok tt, w)
            else sync.perform a w) as [[[]|e] w']; [|done].
  destruct (match adv with
            | sync.AdvanceTarget => (sfile, si)
            | _ => next_source si w'
            end) as [sfile' si'].
  destruct (match adv with
            | sync.AdvanceSource => (tfile, ti)
            | _ => next_target ti w'
            end) as [tfile' ti'].
  destruct (sync.sync_loop next_source next_target fuel dm sfile' tfile' si' ti' w')
    as [[actions r']|] eqn:E; [|done].
  by rewrite (IH _ _ _ _ _ _ E).
Qed.

(** The target is listed as the walk reaches its directories, after the
    actions performed so far: here [/a.d/y] is uploaded while the walk of
    the target is inside [/a], so that [/a.d], entered afterwards, is
    listed with the new file in it, which the diff then takes for a file
    the source does not have, since the source walk has ended.  The diff
    of the two walks taken beforehand has no such action. *)
Example sync_fs_relists_target :
  (λ r : list sync.action * (result bool * (memfs.MemFS * memfs.MemFS)),
     (r.1, r.2.1, memfs.files r.2.2.2 !! "/a.d/y", memfs.calls r.2.2.2))
    <$> sync.sync_fs_actions 10 5 true world_relisted
  = Some ([(sync.Upload, "/a.d/y"); (sync.Delete, "/a/x"); (sync.Delete, "/a.d/y")],
          Ok true, None,
          [memfs.CallSetcontents "/a.d/y"; memfs.CallRemove "/a/x";
           memfs.CallRemove "/a.d/y"])
  ∧ sync._get_sync_actions
      (utils.walk_files 5 world_relisted.1 "/" true)
      (utils.walk_files 5 world_relisted.2 "/" true)
    = Some ([(sync.Upload, "/a.d/y"); (sync.Delete, "/a/x")], None).
Proof. split; vm_compute; reflexivity. Qed.

(** C3: two runs of [sync_fs] with [delete_missing] on, one right after
    the other, on a source that holds only [/a.txt] and a target that
    holds the same [/a.txt] and a file [/a/x] besides.  The first run
    uploads [/a.txt], deletes [/a/x] and deletes [/a.txt]; every action
    succeeds and the run returns [True], leaving the source as it was.
    The diff of the second run is not made of [Skip] actions only: it is
    one upload, of [/a.txt].  This is so whatever the depth bound of the
    walks, from 1 on, and whatever fuel is given beyond the four and the
    two iterations the two runs make. *)
Theorem second_sync_uploads_again (depth extra : nat) :
  ∃ w1,
    sync.sync_fs_actions (4 + extra) (S depth) true world_sibling_prefix
    = Some ([(sync.Upload, "/a.txt"); (sync.Delete, "/a/x"); (sync.Delete, "/a.txt")],
            (Ok true, w1))
    ∧ memfs.files w1.1 = memfs.files world_sibling_prefix.1
    ∧ memfs.dirs w1.1 = memfs.dirs world_sibling_prefix.1
    ∧ fst <$> sync.sync_fs_actions (2 + extra) (S depth) true w1
      = Some [(sync.Upload, "/a.txt")].
Proof.
  destruct depth as [|depth].
  - eexists. split; [vm_compute; reflexivity|].
    split; [reflexivity|]. split; [reflexivity|]. vm_compute. reflexivity.
  - eexists. split; [vm_compute; reflexivity|].
    split; [reflexivity|]. split; [reflexivity|]. vm_compute. reflexivity.
Qed.

(** *** The walk generators on a filesystem that does not change *)

Lemma walk_files_from {St} `{WalkFS St} (max_depth : nat) (fs : St)
    (path0 : string) (sort : bool) :
  utils.walk_files max_depth fs path0 sort
  = files_from max_depth fs sort (utils.list_nodes fs path0 sort).
Proof. unfold utils.walk_files, files_from. by rewrite walk_fs_unfold. Qed.

Lemma files_from_cons {St} `{WalkFS St} (max_depth : nat) (fs : St) (sort : bool)
    (node : utils.WalkNode) (rest : list utils.WalkNode) :
  files_from max_depth fs sort (node :: rest)
  = (if utils.isdir node then
       match max_depth with
       | O => []
       | S d => utils.walk_files d fs (utils.path node) sort
       end
     else [node])
    ++ files_from max_depth fs sort rest.
Proof.
  unfold files_from, utils.walk_files. cbn [flat_map].
  rewrite filter_app. f_equal.
  destruct (utils.isdir node) eqn:E.
  - rewrite filter_cons_False by (by rewrite E). by destruct max_depth.
  - by rewrite filter_cons_True.
Qed.

Lemma pending_files_app {St} `{WalkFS St} (fs : St) (sort : bool)
    (frames frames' : list (list utils.WalkNode * nat)) :
  pending_files fs sort (frames ++ frames')
  = pending_files fs sort frames ++ pending_files fs sort frames'.
Proof. apply flat_map_app. Qed.

Lemma enter_cons {St} `{WalkFS St} (max_depth : nat) (fs : St) (sort : bool)
    (node : utils.WalkNode) (rest : list utils.WalkNode) :
  utils.enter max_depth fs sort (node :: rest)
  = if utils.isdir node then
      match max_depth with
      | O => utils.enter max_depth fs sort rest
      | S d =>
          match utils.enter d fs sort (utils.list_nodes fs (utils.path node) sort) with
          | Some (file, frames) => Some (file, frames ++ [(rest, max_depth)])
          | None => utils.enter max_depth fs sort rest
          end
      end
    else Some (node, [(rest, max_depth)]).
Proof. by destruct max_depth. Qed.

(** What a generator yields next is the first of the files the walk of
    the filesystem has yet to give, and the frames it is left with stand
    for the others. *)
Lemma enter_spec {St} `{WalkFS St} (fs : St) (sort : bool) (max_depth : nat) :
  ∀ nodes,
    files_from max_depth fs sort nodes
    = match utils.enter max_depth fs sort nodes with
      | Some (file, frames) => file :: pending_files fs sort frames
      | None => []
      end.
Proof.
  induction max_depth as [|d IHd]; intros nodes;
    induction nodes as [|node rest IHn]; try done;
    rewrite files_from_cons, enter_cons.
  - destruct (utils.isdir node); [done|].
    unfold pending_files. simpl. by rewrite app_nil_r.
  - destruct (utils.isdir node).
    + rewrite walk_files_from, IHd.
      destruct (utils.enter d fs sort _) as [[file frames]|]; [|done].
      rewrite pending_files_app. unfold pending_files at 2. simpl.
      by rewrite app_nil_r.
    + unfold pending_files. simpl. by rewrite app_nil_r.
Qed.

Lemma resume_spec {St} `{WalkFS St} (fs : St) (sort : bool)
    (frames : list (list utils.WalkNode * nat)) :
  pending_files fs sort frames
  = match (utils.resume fs sort frames).1 with
    | Some file => file :: pending_files fs sort (utils.resume fs sort frames).2
    | None => []
    end.
Proof.
  induction frames as [|[rest d] frames IH]; [done|].
  change (pending_files fs sort ((rest, d) :: frames))
    with (files_from d fs sort rest ++ pending_files fs sort frames).
  rewrite enter_spec. simpl.
  destruct (utils.enter d fs sort rest) as [[file inner]|]; [|done].
  simpl. by rewrite pending_files_app.
Qed.

(** While the filesystem it walks stays as [fs], a suspended generator
    yields the files that the walk of [fs] has yet to give. *)
Lemma walk_gen_unchanging {W St} `{WalkFS St} (proj : W → St) (P : W → Prop)
    (fs : St) (sort : bool) :
  (∀ w, P w → proj w = fs) →
  ∀ l frames,
    l = pending_files fs sort frames →
    iter_of P (λ files w, utils.walk_files_next (proj w) sort files)
      (utils.Suspended frames) l.
Proof.
  intros Hproj. induction l as [|x l IH]; intros frames Hl; simpl; intros w Hw;
    rewrite (Hproj w Hw); rewrite resume_spec in Hl;
    destruct (utils.resume fs sort frames) as [[file|] frames']; simpl in *;
    try done.
  injection Hl as -> ->. split; [done|]. by apply IH.
Qed.

Lemma walk_gen_first {W St} `{WalkFS St} (proj : W → St) (P : W → Prop)
    (fs : St) (sort : bool) (path0 : string) (max_depth : nat) (w : W) :
  (∀ w, P w → proj w = fs) → P w →
  at_node P (λ files w, utils.walk_files_next (proj w) sort files)
    (utils.walk_files_next (proj w) sort (utils.Unstarted path0 max_depth)).1
    (utils.walk_files_next (proj w) sort (utils.Unstarted path0 max_depth)).2
    (utils.walk_files max_depth fs path0 sort).
Proof.
  intros Hproj Hw. rewrite (Hproj w Hw). cbn [utils.walk_files_next fst snd].
  assert (utils.walk_files max_depth fs path0 sort
          = pending_files fs sort [(utils.list_nodes fs path0 sort, max_depth)])
    as ->.
  { rewrite walk_files_from. unfold pending_files. simpl. by rewrite app_nil_r. }
  rewrite resume_spec.
  destruct (utils.resume fs sort _) as [[file|] frames']; simpl; [|done].
  split; [done|]. by apply (walk_gen_unchanging proj P fs sort).
Qed.

(** X8: when the two in-memory filesystems hold the same files and the
    same directories, [sync_fs] returns [True] and calls nothing on either
    of them, whatever the depth and the flag; this holds also for the trees
    on which the walk is not path-sorted.  The loop makes one iteration for
    each file and one test more, which is the fuel asked for. *)
Theorem sync_fs_of_equal_trees (fuel depth : nat) (delete_missing : bool)
    (source target : memfs.MemFS) :
  memfs.files source = memfs.files target →
  memfs.dirs source = memfs.dirs target →
  (2 * length (utils.walk_files depth source "/" true) < fuel)%nat →
  sync.sync_fs fuel depth delete_missing (source, target)
  = Some (Ok true, (source, target)).
Proof.
  intros Hf Hd Hfuel. unfold sync.sync_fs, sync.sync_fs_actions.
  set (s := utils.walk_files depth source "/" true) in *.
  assert (utils.walk_files depth target "/" true = s) as Ht.
  { unfold s, utils.walk_files.
    by rewrite (memfs_walk_fs_ext depth source target "/" true Hf Hd). }
  rewrite (sync_files_iter_lists (λ w, w = (source, target)) _ _
             delete_missing fuel s s).
  - by rewrite merge_actions_same, filter_actions_skips, run_actions_skips.
  - apply (walk_gen_first (λ w : memfs.MemFS * memfs.MemFS, w.1)
             (λ w, w = (source, target)) source true "/" depth);
      [by intros ? ->|done].
  - rewrite <- Ht.
    apply (walk_gen_first (λ w : memfs.MemFS * memfs.MemFS, w.2)
             (λ w, w = (source, target)) target true "/" depth);
      [by intros ? ->|done].
  - done.
  - rewrite merge_actions_same, filter_actions_skips.
    intros a w0 [node [-> _]]%list_elem_of_fmap ->. done.
  - lia.
Qed.

Lemma sync_fs_of_equal_trees_witness :
  memfs.files (memfs.make "mirror" true [("/a/x", "1"); ("/a.txt", "22")] ["/a"])
  = memfs.files fs_sibling_prefix
  ∧ memfs.dirs (memfs.make "mirror" true [("/a/x", "1"); ("/a.txt", "22")] ["/a"])
    = memfs.dirs fs_sibling_prefix
  ∧ (2 * length
           (utils.walk_files 1
              (memfs.make "mirror" true [("/a/x", "1"); ("/a.txt", "22")] ["/a"])
              "/" true) < 5)%nat
  ∧ sync.sync_fs 5 1 true
      (memfs.make "mirror" true [("/a/x", "1"); ("/a.txt", "22")] ["/a"],
       fs_sibling_prefix)
    = Some (Ok true,
            (memfs.make "mirror" true [("/a/x", "1"); ("/a.txt", "22")] ["/a"],
             fs_sibling_prefix)).
Proof.
  assert (2 * length
                (utils.walk_files 1
                   (memfs.make "mirror" true [("/a/x", "1"); ("/a.txt", "22")] ["/a"])
                   "/" true) < 5)%nat as Hfuel.
  { vm_compute. lia. }
  split; [reflexivity|]. split; [reflexivity|]. split; [exact Hfuel|].
  apply (sync_fs_of_equal_trees 5 1 true); [reflexivity | reflexivity | exact Hfuel].
Defined.

(** ** Copying onto a target that lacks the directory *)

Lemma memfs_copy_onto (sp tp data : string) (src tgt : memfs.MemFS) :
  memfs.files src !! sp = Some data →
  memfs.has_dir tp tgt = false →
  ∃ w1,
    memfs.copy sp tp (src, tgt)
    = (if memfs.has_dir (dirname tp) tgt then Ok tt
       else Err (memfs.missing_parent tp tgt), w1)
    ∧ memfs.files w1.1 = memfs.files src
    ∧ memfs.files w1.2
      = (if memfs.has_dir (dirname tp) tgt then <[tp := data]> (memfs.files tgt)
         else memfs.files tgt)
    ∧ memfs.dirs w1.2 = memfs.dirs tgt
    ∧ memfs.raises_pdm w1.2 = memfs.raises_pdm tgt.
Proof.
  intros Hs Hd. unfold memfs.copy, memfs.open. cbn [fst snd].
  change (mode_has "w" "rb") with false. change (mode_has "a" "rb") with false.
  cbv iota. simpl memfs.files. rewrite Hs.
  unfold memfs.read. simpl memfs.files. simpl memfs.fh_path. rewrite Hs.
  simpl memfs.fh_pos. rewrite string_drop_0.
  unfold memfs.setcontents, memfs.put.
  change (memfs.has_dir tp (memfs.log (memfs.CallSetcontents tp) tgt))
    with (memfs.has_dir tp tgt).
  change (memfs.has_dir (dirname tp) (memfs.log (memfs.CallSetcontents tp) tgt))
    with (memfs.has_dir (dirname tp) tgt).
  rewrite Hd.
  destruct (memfs.has_dir (dirname tp) tgt); eexists; (split; [reflexivity|]); done.
Qed.

Lemma memfs_makedir_raises_pdm p rec allow fs :
  memfs.raises_pdm (memfs.makedir p rec allow fs).2 = memfs.raises_pdm fs.
Proof.
  unfold memfs.makedir.
  destruct (memfs.has_file p _); [done|].
  destruct (memfs.has_dir p _); [by destruct allow|].
  destruct (memfs.has_dir (dirname p) _); [done|]. by destruct rec.
Qed.

Lemma memfs_target_makedir_parent (tp : string) (w : memfs.MemFS * memfs.MemFS) :
  memfs.files w.2 !! dirname tp = None →
  memfs.has_dir (dirname tp) w.2 = false →
  memfs.has_dir tp w.2 = false →
  dirname tp ≠ tp →
  ∃ w2,
    target_makedir (dirname tp) w = (Ok tt, w2)
    ∧ w2.1 = w.1
    ∧ memfs.files w2.2 = memfs.files w.2
    ∧ memfs.raises_pdm w2.2 = memfs.raises_pdm w.2
    ∧ memfs.has_dir (dirname tp) w2.2 = true
    ∧ memfs.has_dir tp w2.2 = false.
Proof.
  intros Hf Hd Hp Hne. simpl.
  destruct (memfs_makedir_missing (dirname tp) w.2 Hf Hd)
    as (fs' & Hm & Hfiles & _ & Hhas & Hkeep).
  assert (memfs.raises_pdm fs' = memfs.raises_pdm w.2) as Hpdm.
  { pose proof (memfs_makedir_raises_pdm (dirname tp) true true w.2) as Hr.
    by rewrite Hm in Hr. }
  rewrite Hm. eexists. split; [reflexivity|]. cbn [fst snd].
  split; [done|]. split; [done|]. split; [done|]. split; [done|].
  apply Hkeep; [done | congruence |]. by apply not_ancestor_of_parent.
Qed.

(** X9: [copy_file] onto an in-memory target that reports a missing
    directory as [ParentDirectoryMissingError]: when the directory of the
    target path is missing, the call with [create_directory=False] raises
    that error and leaves the target's files and directories as they
    were, and the call with [create_directory=True] creates the directory
    and copies the file. *)
Theorem copy_file_creates_directory (sp tp data : string) (src tgt : memfs.MemFS) :
  memfs.raises_pdm tgt = true →
  memfs.files src !! sp = Some data →
  memfs.has_dir tp tgt = false →
  memfs.has_dir (dirname tp) tgt = false →
  memfs.files tgt !! dirname tp = None →
  dirname tp ≠ tp →
  (∃ w1,
     utils.copy_file sp tp false (src, tgt)
     = (Err (ParentDirectoryMissingError tp), w1)
     ∧ memfs.files w1.2 = memfs.files tgt
     ∧ memfs.dirs w1.2 = memfs.dirs tgt)
  ∧ (∃ w2,
       utils.copy_file sp tp true (src, tgt) = (Ok tt, w2)
       ∧ memfs.files w2.1 = memfs.files src
       ∧ memfs.files w2.2 = <[tp := data]> (memfs.files tgt)
       ∧ memfs.has_dir (dirname tp) w2.2 = true).
Proof.
  intros Hpdm Hs Hp Hd Hf Hne.
  destruct (memfs_copy_onto sp tp data src tgt Hs Hp)
    as (w1 & Hc & Hs1 & Hf1 & Hd1 & Hp1).
  rewrite Hd in Hc, Hf1. unfold memfs.missing_parent in Hc. rewrite Hpdm in Hc.
  unfold utils.copy_file. simpl copyfile. rewrite Hc. split.
  { by exists w1. }
  destruct (memfs_target_makedir_parent tp w1) as (w2 & Hm & Hw2 & Hf2 & Hp2 & Hd2 & Hn2).
  - by rewrite Hf1.
  - by rewrite (memfs_has_dir_dirs _ _ tgt).
  - by rewrite (memfs_has_dir_dirs _ _ tgt).
  - done.
  - rewrite Hm. destruct w2 as [s2 t2]. cbn [fst snd] in *.
    destruct (memfs_copy_onto sp tp data s2 t2) as (w3 & Hc3 & Hs3 & Hf3 & Hd3 & _).
    + by rewrite Hw2, Hs1.
    + done.
    + rewrite Hd2 in Hc3, Hf3. exists w3. simpl copyfile.
      split; [exact Hc3|].
      split; [by rewrite Hs3, Hw2|]. split; [by rewrite Hf3, Hf2, Hf1|].
      by rewrite (memfs_has_dir_dirs _ _ t2).
Qed.

Lemma copy_file_creates_directory_witness :
  ∃ w2,
    utils.copy_file "/img/logo.png" "/static/img/logo.png" true
      (memfs.make "source" false [("/img/logo.png", "png")] ["/img"],
       memfs.make "bucket" true [] [])
    = (Ok tt, w2)
    ∧ memfs.files w2.2 !! "/static/img/logo.png" = Some "png"
    ∧ memfs.has_dir "/static/img" w2.2 = true.
Proof.
  destruct (copy_file_creates_directory "/img/logo.png" "/static/img/logo.png" "png"
              (memfs.make "source" false [("/img/logo.png", "png")] ["/img"])
              (memfs.make "bucket" true [] []))
    as (_ & w2 & Hc & _ & Hf & Hd); try (vm_compute; reflexivity).
  { vm_compute. discriminate. }
  exists w2. split; [exact Hc|]. split; [|exact Hd].
  by rewrite Hf, lookup_insert_eq.
Defined.

(** X10: [copy_file] repairs nothing when the target reports the missing
    directory as [ResourceNotFoundError], as a local directory does: with
    [create_directory=True] the error is raised all the same, and the
    target has the files and directories it had. *)
Theorem copy_file_leaves_other_errors (sp tp data : string) (create_directory : bool)
    (src tgt : memfs.MemFS) :
  memfs.raises_pdm tgt = false →
  memfs.files src !! sp = Some data →
  memfs.has_dir tp tgt = false →
  memfs.has_dir (dirname tp) tgt = false →
  ∃ w1,
    utils.copy_file sp tp create_directory (src, tgt)
    = (Err (ResourceNotFoundError tp), w1)
    ∧ memfs.files w1.2 = memfs.files tgt
    ∧ memfs.dirs w1.2 = memfs.dirs tgt.
Proof.
  intros Hpdm Hs Hp Hd.
  destruct (memfs_copy_onto sp tp data src tgt Hs Hp)
    as (w1 & Hc & Hs1 & Hf1 & Hd1 & Hp1).
  rewrite Hd in Hc, Hf1. unfold memfs.missing_parent in Hc. rewrite Hpdm in Hc.
  unfold utils.copy_file. simpl copyfile. rewrite Hc. by exists w1.
Qed.

Lemma copy_file_leaves_other_errors_witness :
  ∃ w1,
    utils.copy_file "/img/logo.png" "/static/img/logo.png" true
      (memfs.make "source" false [("/img/logo.png", "png")] ["/img"],
       memfs.make "local" false [] [])
    = (Err (ResourceNotFoundError "/static/img/logo.png"), w1)
    ∧ memfs.dirs w1.2 = memfs.dirs (memfs.make "local" false [] []).
Proof.
  destruct (copy_file_leaves_other_errors "/img/logo.png" "/static/img/logo.png" "png"
              true
              (memfs.make "source" false [("/img/logo.png", "png")] ["/img"])
              (memfs.make "local" false [] []))
    as (w1 & Hc & _ & Hd); try (vm_compute; reflexivity).
  exists w1. split; [exact Hc | exact Hd].
Defined.


(** ** upload_file on a target that lacks the directory *)

Lemma memfs_source_exists (p data : string) (w : memfs.MemFS * memfs.MemFS) :
  memfs.files w.1 !! p = Some data → source_exists p w = true.
Proof.
  intros Hf. simpl. unfold memfs.exists_, memfs.has_file. rewrite Hf.
  rewrite bool_decide_eq_true_2; [done | by eexists].
Qed.

(** X11: [upload_file] from an in-memory source that has the file onto an
    in-memory target on which the path is free: the call returns, the
    target then holds the file with the source's contents under an
    existing directory, and the source is unchanged.  This takes one
    [copy_file] call when the directory exists or the target reports its
    absence as [ParentDirectoryMissingError], and two when the target
    reports it as [ResourceNotFoundError]. *)
Theorem upload_file_creates_directory (path data : string) (src tgt : memfs.MemFS) :
  memfs.files src !! path = Some data →
  memfs.has_dir path tgt = false →
  memfs.files tgt !! dirname path = None →
  dirname path ≠ path →
  ∃ w',
    sync.upload_file path (src, tgt) = (Ok tt, w')
    ∧ memfs.files w'.1 = memfs.files src
    ∧ memfs.files w'.2 = <[path := data]> (memfs.files tgt)
    ∧ memfs.has_dir (dirname path) w'.2 = true
    ∧ sync.upload_attempts path (src, tgt)
      = (if memfs.has_dir (dirname path) tgt || memfs.raises_pdm tgt
         then 1 else 2)%nat.
Proof.
  intros Hs Hp Hf Hne.
  assert (∃ w',
            sync.upload_loop 100 0 path (src, tgt)
            = ((Ok tt, w'),
               if memfs.has_dir (dirname path) tgt || memfs.raises_pdm tgt
               then 1 else 2)%nat
            ∧ memfs.files w'.1 = memfs.files src
            ∧ memfs.files w'.2 = <[path := data]> (memfs.files tgt)
            ∧ memfs.has_dir (dirname path) w'.2 = true) as (w' & Hl & H1 & H2 & H3).
  2:{ unfold sync.upload_file, sync.upload_attempts. rewrite Hl. by exists w'. }
  change 100%nat with (S (S 98)). rewrite upload_loop_S.
  destruct (memfs_copy_onto path path data src tgt Hs Hp)
    as (w1 & Hc & Hs1 & Hf1 & Hd1 & Hp1).
  destruct (memfs.has_dir (dirname path) tgt) eqn:Hd.
  { unfold utils.copy_file. simpl copyfile. rewrite Hc. cbn [orb].
    exists w1. split; [done|]. split; [done|]. split; [done|].
    by rewrite (memfs_has_dir_dirs _ _ tgt). }
  destruct (memfs_target_makedir_parent path w1)
    as (w2 & Hm & Hw2 & Hf2 & Hp2 & Hd2 & Hn2).
  { by rewrite Hf1. }
  { by rewrite (memfs_has_dir_dirs _ _ tgt). }
  { by rewrite (memfs_has_dir_dirs _ _ tgt). }
  { done. }
  destruct w2 as [s2 t2]. cbn [fst snd] in *.
  destruct (memfs_copy_onto path path data s2 t2) as (w3 & Hc3 & Hs3 & Hf3 & Hd3 & _).
  { by rewrite Hw2, Hs1. }
  { done. }
  rewrite Hd2 in Hc3, Hf3.
  assert (memfs.has_dir (dirname path) w3.2 = true) as Hd3'.
  { by rewrite (memfs_has_dir_dirs _ _ t2). }
  unfold memfs.missing_parent in Hc.
  exists w3. rewrite Hs3, Hw2, Hs1, Hf3, Hf2, Hf1.
  split; [|done].
  destruct (memfs.raises_pdm tgt) eqn:Hpdm; cbn [orb].
  - (* the directory is made inside [copy_file] *)
    unfold utils.copy_file. simpl copyfile. rewrite Hc, Hm.
    simpl copyfile. by rewrite Hc3.
  - (* the directory is made by the loop, which then copies again *)
    unfold utils.copy_file at 1. simpl copyfile. rewrite Hc.
    rewrite (memfs_source_exists path data w1) by by rewrite Hs1.
    rewrite Hm, upload_loop_S.
    unfold utils.copy_file. simpl copyfile. by rewrite Hc3.
Qed.

Lemma upload_file_creates_directory_witness :
  ∃ w',
    sync.upload_file "/img/logo.png"
      (memfs.make "source" false [("/img/logo.png", "png")] ["/img"],
       memfs.make "local" false [] [])
    = (Ok tt, w')
    ∧ memfs.files w'.2 !! "/img/logo.png" = Some "png"
    ∧ memfs.has_dir "/img" w'.2 = true
    ∧ sync.upload_attempts "/img/logo.png"
        (memfs.make "source" false [("/img/logo.png", "png")] ["/img"],
         memfs.make "local" false [] [])
      = 2%nat.
Proof.
  destruct (upload_file_creates_directory "/img/logo.png" "png"
              (memfs.make "source" false [("/img/logo.png", "png")] ["/img"])
              (memfs.make "local" false [] []))
    as (w' & Hu & _ & Hf & Hd & Hn); try (vm_compute; reflexivity).
  { vm_compute. discriminate. }
  exists w'. split; [exact Hu|]. split; [by rewrite Hf, lookup_insert_eq|].
  split; [exact Hd | exact Hn].
Defined.

(** ** A worker and the sequential loop *)

(** X12: a worker performs the actions it takes from the queue as the
    sequential loop does, ending at the first one that raises; it leaves
    the filesystems in the same state and with the same outcome, and sets
    the [errored] event exactly when an action raised: an event that was
    set stays set, one that was clear stays clear on success. *)
Theorem worker_runs_like_sequential_loop {W} `{SyncFS W} (taken : list sync.action)
    (errored : bool) (w : W) :
  sync._process_files taken errored w
  = ((sync.run_actions taken w).1,
     errored || (if (sync.run_actions taken w).1 is Err _ then true else false),
     (sync.run_actions taken w).2).
Proof.
  revert w. induction taken as [|a taken IH]; intros w.
  { simpl. by rewrite orb_false_r. }
  rewrite process_files_cons, run_actions_cons.
  destruct (sync.perform a w) as [[[]|e] w1]; [apply IH|].
  simpl. by rewrite orb_true_r.
Qed.


(** ** pathcombine *)

Lemma list_ascii_of_string_app (a b : string) :
  String.list_ascii_of_string (a +:+ b)
  = String.list_ascii_of_string a ++ String.list_ascii_of_string b.
Proof. induction a as [|c a IH]; [done|]. simpl. by rewrite IH. Qed.

Lemma string_of_list_ascii_app (k l : list ascii) :
  String.string_of_list_ascii (k ++ l)
  = String.string_of_list_ascii k +:+ String.string_of_list_ascii l.
Proof. induction k as [|c k IH]; [done|]. simpl. by rewrite IH. Qed.

Lemma drop_while_all {A} (f : A → bool) (k l : list A) :
  forallb f k = true → drop_while f (k ++ l) = drop_while f l.
Proof.
  induction k as [|x k IH]; [done|]. simpl.
  intros [-> Hk]%andb_true_iff. by apply IH.
Qed.

Lemma drop_while_nil {A} (f : A → bool) (l : list A) :
  drop_while f l = [] ↔ forallb f l = true.
Proof.
  induction l as [|x l IH]; [done|]. simpl.
  destruct (f x); [exact IH|]. split; intros; discriminate.
Qed.

Lemma drop_while_app_keep {A} (f : A → bool) (k l : list A) :
  drop_while f k ≠ [] → drop_while f (k ++ l) = drop_while f k ++ l.
Proof.
  induction k as [|x k IH]; [done|]. simpl.
  destruct (f x); [exact IH | done].
Qed.

Lemma drop_while_idemp {A} (f : A → bool) (l : list A) :
  drop_while f (drop_while f l) = drop_while f l.
Proof.
  induction l as [|x l IH]; [done|]. simpl.
  destruct (f x) eqn:E; [exact IH|]. simpl. by rewrite E.
Qed.

Lemma forallb_rev {A} (f : A → bool) (l : list A) :
  forallb f (rev l) = forallb f l.
Proof.
  induction l as [|x l IH]; [done|]. simpl.
  rewrite forallb_app, IH. simpl. rewrite andb_true_r. apply andb_comm.
Qed.

(** Stripping on lists of characters. *)
Lemma rstrip_cons {A} (f : A → bool) (x : A) (l : list A) :
  rev (drop_while f (rev (x :: l)))
  = match rev (drop_while f (rev l)) with
    | [] => if f x then [] else [x]
    | r => x :: r
    end.
Proof.
  simpl rev at 2.
  destruct (drop_while f (rev l)) as [|y d] eqn:E.
  - apply drop_while_nil in E. rewrite drop_while_all by done. simpl.
    by destruct (f x).
  - rewrite drop_while_app_keep by by rewrite E. rewrite E.
    rewrite rev_app_distr. simpl.
    destruct (rev d ++ [y]) eqn:E'; [by destruct (rev d)|done].
Qed.

Lemma strip_both_comm {A} (f : A → bool) (l : list A) :
  rev (drop_while f (rev (drop_while f l)))
  = drop_while f (rev (drop_while f (rev l))).
Proof.
  induction l as [|x l IH]; [done|].
  rewrite (rstrip_cons f x l). simpl drop_while at 2.
  destruct (f x) eqn:E.
  - rewrite IH. destruct (rev (drop_while f (rev l))) as [|y r] eqn:Er.
    + simpl. done.
    + simpl. by rewrite E.
  - rewrite (rstrip_cons f x l).
    destruct (rev (drop_while f (rev l))) as [|y r]; simpl; by rewrite E.
Qed.

Lemma rstrip_app_keep {A} (f : A → bool) (k l : list A) :
  drop_while f (rev l) ≠ [] →
  rev (drop_while f (rev (k ++ l))) = k ++ rev (drop_while f (rev l)).
Proof.
  intros Hl. rewrite rev_app_distr, drop_while_app_keep by done.
  by rewrite rev_app_distr, rev_involutive.
Qed.

Lemma rstrip_app_all {A} (f : A → bool) (k l : list A) :
  forallb f l = true →
  rev (drop_while f (rev (k ++ l))) = rev (drop_while f (rev k)).
Proof.
  intros Hl. rewrite rev_app_distr, drop_while_all; [done|].
  by rewrite forallb_rev.
Qed.

Lemma pathcombine_nonempty (path1 path2 : string) :
  path1 ≠ "" →
  utils.pathcombine path1 path2
  = String.string_of_list_ascii
      (rev (drop_while is_slash (rev (String.list_ascii_of_string path1)))
       ++ "/"%char :: drop_while is_slash (String.list_ascii_of_string path2)).
Proof.
  intros Hne. unfold utils.pathcombine, rstrip, lstrip.
  rewrite bool_decide_eq_false_2 by done.
  by rewrite string_of_list_ascii_app.
Qed.

Lemma string_of_list_ascii_nonempty (l : list ascii) :
  l ≠ [] → String.string_of_list_ascii l ≠ "".
Proof. by destruct l. Qed.

Lemma drop_while_head {A} (f : A → bool) (l : list A) (x : A) (r : list A) :
  drop_while f l = x :: r → f x = false.
Proof.
  induction l as [|y l IH]; [done|]. simpl.
  destruct (f y) eqn:E; [exact IH|]. by intros [= <- _].
Qed.

(** X13: with a non-empty first path, [pathcombine] joins the two paths
    with exactly one slash however many slashes end the first or begin the
    second: adding a slash on either side of the junction does not change
    the result, which consists of a part that does not end in a slash, a
    slash, and a part that does not begin with one. *)
Theorem pathcombine_single_slash (path1 path2 : string) :
  path1 ≠ "" →
  utils.pathcombine (path1 +:+ "/") path2 = utils.pathcombine path1 path2
  ∧ utils.pathcombine path1 ("/" +:+ path2) = utils.pathcombine path1 path2
  ∧ ∃ a b,
      utils.pathcombine path1 path2 = a +:+ "/" +:+ b
      ∧ (∀ a', a ≠ a' +:+ "/") ∧ (∀ b', b ≠ "/" +:+ b').
Proof.
  intros Hne. split; [|split].
  - rewrite !pathcombine_nonempty; [|done|by destruct path1].
    rewrite list_ascii_of_string_app. simpl (String.list_ascii_of_string "/").
    by rewrite (rstrip_app_all is_slash _ ["/"%char]).
  - by rewrite !pathcombine_nonempty.
  - exists (rstrip is_slash path1), (lstrip is_slash path2).
    split; [|split].
    + unfold utils.pathcombine. by rewrite bool_decide_eq_false_2.
    + intros a' E. apply (f_equal String.list_ascii_of_string) in E.
      unfold rstrip in E.
      rewrite String.list_ascii_of_string_of_list_ascii, list_ascii_of_string_app in E.
      apply (f_equal (@rev ascii)) in E.
      rewrite rev_involutive, rev_app_distr in E. simpl in E.
      by apply drop_while_head in E.
    + intros b' E. apply (f_equal String.list_ascii_of_string) in E.
      unfold lstrip in E.
      rewrite String.list_ascii_of_string_of_list_ascii in E. simpl in E.
      by apply drop_while_head in E.
Qed.

Lemma pathcombine_single_slash_witness :
  utils.pathcombine ("foo/bar" +:+ "/") "baz" = utils.pathcombine "foo/bar" "baz"
  ∧ utils.pathcombine "foo/bar" ("/" +:+ "baz") = utils.pathcombine "foo/bar" "baz"
  ∧ utils.pathcombine "foo/bar" "baz" = "foo/bar/baz".
Proof.
  destruct (pathcombine_single_slash "foo/bar" "baz") as (H1 & H2 & _); [discriminate|].
  split; [exact H1|]. split; [exact H2 | reflexivity].
Defined.

(** X14: [pathcombine] is associative when the first two paths are not
    empty: joining three paths gives the same path whichever junction is
    made first. *)
Theorem pathcombine_assoc (path1 path2 path3 : string) :
  path1 ≠ "" → path2 ≠ "" →
  utils.pathcombine (utils.pathcombine path1 path2) path3
  = utils.pathcombine path1 (utils.pathcombine path2 path3).
Proof.
  intros H1 H2.
  assert (utils.pathcombine path1 path2 ≠ "") as H12.
  { rewrite pathcombine_nonempty by done.
    apply string_of_list_ascii_nonempty. by intros [_ ?]%app_eq_nil. }
  rewrite (pathcombine_nonempty (utils.pathcombine path1 path2)) by done.
  rewrite (pathcombine_nonempty path1 (utils.pathcombine path2 path3)) by done.
  rewrite !pathcombine_nonempty by done.
  rewrite !String.list_ascii_of_string_of_list_ascii. f_equal.
  set (A := rev (drop_while is_slash (rev (String.list_ascii_of_string path1)))).
  set (B := String.list_ascii_of_string path2).
  set (C := drop_while is_slash (String.list_ascii_of_string path3)).
  assert (drop_while is_slash (rev A) = rev A) as HA.
  { unfold A. by rewrite rev_involutive, drop_while_idemp. }
  assert (drop_while is_slash C = C) as HC.
  { unfold C. by rewrite drop_while_idemp. }
  destruct (drop_while is_slash B) as [|y d] eqn:EB.
  - (* the second path consists of slashes *)
    apply drop_while_nil in EB.
    assert (drop_while is_slash (rev B) = []) as ->.
    { apply drop_while_nil. by rewrite forallb_rev. }
    simpl rev at 3. rewrite app_nil_l.
    rewrite (rstrip_app_all is_slash A ["/"%char]) by done.
    rewrite HA, rev_involutive. simpl. by rewrite HC.
  - (* it has a character other than a slash *)
    assert (drop_while is_slash (rev B) ≠ []) as HrB.
    { intros E%drop_while_nil. rewrite forallb_rev in E.
      apply drop_while_nil in E. congruence. }
    assert (drop_while is_slash (rev (y :: d)) ≠ []) as Hryd.
    { intros E%drop_while_nil. rewrite forallb_rev in E.
      apply drop_while_nil in E.
      pose proof (drop_while_idemp is_slash B) as Hi. rewrite EB in Hi. congruence. }
    replace (A ++ "/"%char :: y :: d) with ((A ++ ["/"%char]) ++ y :: d)
      by by rewrite <- app_assoc.
    rewrite (rstrip_app_keep is_slash (A ++ ["/"%char]) (y :: d)) by done.
    rewrite <- EB, strip_both_comm.
    assert (drop_while is_slash (rev (drop_while is_slash (rev B))) ≠ []) as Hmid.
    { rewrite <- strip_both_comm, EB. intros E.
      apply (f_equal (@rev ascii)) in E. by rewrite rev_involutive in E. }
    rewrite (drop_while_app_keep is_slash _ ("/"%char :: C)) by done.
    by rewrite <- !app_assoc.
Qed.

Lemma pathcombine_assoc_witness :
  utils.pathcombine (utils.pathcombine "/srv/" "/media/") "/img/logo.png"
  = utils.pathcombine "/srv/" (utils.pathcombine "/media/" "/img/logo.png")
  ∧ utils.pathcombine "/srv/" (utils.pathcombine "/media/" "/img/logo.png")
    = "/srv/media/img/logo.png".
Proof.
  split; [apply pathcombine_assoc; discriminate | reflexivity].
Defined.


(** ** The walk of a directory without subdirectories *)

Global Instance node_le_total : Total utils.node_le.
Proof.
  intros a b. unfold utils.node_le, utils.node_leb.
  destruct (String.compare (utils.path a) (utils.path b)) eqn:E.
  - apply str_compare_eq in E. rewrite E, str_compare_refl.
    destruct (utils.isdir a), (utils.isdir b); simpl; auto;
      destruct (Z.leb_spec (utils.size a) (utils.size b));
      destruct (Z.leb_spec (utils.size b) (utils.size a)); simpl; auto; lia.
  - by left.
  - right. apply str_compare_gt_lt in E. by rewrite E.
Qed.

Global Instance node_le_trans : Transitive utils.node_le.
Proof.
  intros a b c. unfold utils.node_le, utils.node_leb.
  destruct (String.compare (utils.path a) (utils.path b)) eqn:Eab; [| |done].
  - apply str_compare_eq in Eab. rewrite Eab.
    destruct (String.compare (utils.path b) (utils.path c)) eqn:Ebc; [|done|done].
    destruct (utils.isdir a), (utils.isdir b), (utils.isdir c); simpl; try done;
      intros H1%Is_true_true%Z.leb_le H2%Is_true_true%Z.leb_le;
      apply Is_true_true, Z.leb_le; lia.
  - intros _.
    destruct (String.compare (utils.path b) (utils.path c)) eqn:Ebc; [| |done].
    + apply str_compare_eq in Ebc. by rewrite <- Ebc, Eab.
    + intros _. by rewrite (str_lt_trans _ _ _ Eab Ebc).
Qed.

Lemma flat_map_singletons {A} (g : A → list A) (l : list A) :
  Forall (λ x, g x = [x]) l → flat_map g l = l.
Proof.
  induction 1 as [|x l Hx _ IH]; [done|]. simpl. by rewrite Hx, IH.
Qed.

Lemma StronglySorted_filter {A} (R : relation A) (P : A → Prop)
    `{∀ x, Decision (P x)} (l : list A) :
  StronglySorted R l → StronglySorted R (filter P l).
Proof.
  induction 1 as [|x l _ IH Hx]; [constructor|].
  destruct (decide (P x)).
  - rewrite filter_cons_True by done. constructor; [done|].
    apply Forall_forall. intros y [_ Hy]%list_elem_of_filter.
    rewrite Forall_forall in Hx. by apply Hx.
  - by rewrite filter_cons_False.
Qed.

Lemma node_le_sorted_paths (l : list utils.WalkNode) :
  StronglySorted utils.node_le l → NoDup (sync.paths l) →
  StronglySorted sync.path_lt l.
Proof.
  induction 1 as [|x l _ IH Hx]; [constructor|].
  unfold sync.paths. simpl. intros [Hnin Hnd]%NoDup_cons.
  constructor; [by apply IH|].
  apply Forall_forall. intros y Hy. rewrite Forall_forall in Hx.
  specialize (Hx y Hy). unfold utils.node_le, utils.node_leb in Hx.
  unfold sync.path_lt, str_lt.
  destruct (String.compare (utils.path x) (utils.path y)) eqn:E; [|done|done].
  apply str_compare_eq in E. exfalso. apply Hnin. rewrite E.
  apply list_elem_of_fmap. by exists y.
Qed.

(** X15: under a directory whose listing has no two entries with the same
    path, [walk_files] with [sort=True] yields the files in strictly
    increasing order of their paths when the directory has no
    subdirectories, or when [max_depth] is 0 so that none is entered; the
    nodes yielded are the non-directory entries of the listing. *)
Theorem walk_files_flat_sorted {St} `{WalkFS St} (max_depth : nat) (fs : St)
    (path0 : string) :
  NoDup (ilistdirinfo path0 fs).*1 →
  max_depth = 0%nat
  ∨ Forall (λ entry : string * gmap string Z, fs_isdir entry.1 fs = false)
      (ilistdirinfo path0 fs) →
  StronglySorted sync.path_lt (utils.walk_files max_depth fs path0 true)
  ∧ utils.walk_files max_depth fs path0 true
    ≡ₚ filter (λ node, utils.isdir node = false)
         (map (λ entry : string * gmap string Z,
                 utils.mkWalkNode entry.1 (fs_isdir entry.1 fs)
                   (default 0 (entry.2 !! "size")))
              (ilistdirinfo path0 fs)).
Proof.
  intros Hnd Hflat. unfold utils.walk_files. rewrite walk_fs_unfold. cbv zeta.
  set (nodes := map _ (ilistdirinfo path0 fs)).
  assert (sync.paths nodes = (ilistdirinfo path0 fs).*1) as Hpaths.
  { unfold sync.paths, nodes. rewrite map_map. done. }
  rewrite flat_map_singletons.
  2:{ apply Forall_forall. intros node Hin.
      destruct Hflat as [->|Hflat]; [by destruct (utils.isdir node)|].
      rewrite merge_sort_Permutation in Hin.
      apply list_elem_of_fmap in Hin as (entry & -> & Hentry).
      rewrite Forall_forall in Hflat. simpl. by rewrite (Hflat entry Hentry). }
  split.
  - apply StronglySorted_filter, node_le_sorted_paths.
    + apply StronglySorted_merge_sort; apply _.
    + unfold sync.paths.
      rewrite (fmap_Permutation utils.path _ _ (merge_sort_Permutation _ nodes)).
      change (NoDup (sync.paths nodes)). by rewrite Hpaths.
  - by rewrite merge_sort_Permutation.
Qed.

Lemma walk_files_flat_sorted_witness :
  NoDup (ilistdirinfo "/" fs_flat).*1
  ∧ Forall (λ entry : string * gmap string Z, fs_isdir entry.1 fs_flat = false)
      (ilistdirinfo "/" fs_flat)
  ∧ StronglySorted sync.path_lt (utils.walk_files 3 fs_flat "/" true)
  ∧ utils.walk_files 3 fs_flat "/" true
    = [utils.mkWalkNode "/a-1.txt" false 1; utils.mkWalkNode "/a.txt" false 2;
       utils.mkWalkNode "/a0.txt" false 3].
Proof.
  assert (NoDup (ilistdirinfo "/" fs_flat).*1) as Hnd.
  { apply (bool_decide_unpack _). vm_compute. exact I. }
  assert (Forall (λ entry : string * gmap string Z, fs_isdir entry.1 fs_flat = false)
            (ilistdirinfo "/" fs_flat)) as Hflat.
  { apply (bool_decide_unpack _). vm_compute. exact I. }
  split; [exact Hnd|]. split; [exact Hflat|].
  split; [|vm_compute; reflexivity].
  exact (proj1 (walk_files_flat_sorted 3 fs_flat "/" Hnd (or_intror Hflat))).
Defined.


(** ** make_fs_from_string *)

(** X16: a call that returned an object for a string other than ['tempfs']
    is remembered: as long as [expanduser] gives the same answer, the next
    call with that string returns the same object and changes neither the
    cache nor the world, so that no constructor is called. *)
Theorem make_fs_from_string_memoized {Wd Obj : Type} (B : utils.Backends Wd Obj)
    (s : string) (st st' : gmap string Obj * Wd) (fs : Obj) :
  s ≠ "tempfs" →
  utils.make_fs_from_string B s st = (Ok fs, st') →
  utils.expanduser B s st'.2 = utils.expanduser B s st.2 →
  utils.make_fs_from_string B s st' = (Ok fs, st').
Proof.
  intros Hs Hcall Hexp. revert Hcall. unfold utils.make_fs_from_string.
  rewrite bool_decide_eq_false_2 by done. cbv zeta. rewrite Hexp.
  set (key := if String.prefix "~/" s then utils.expanduser B s st.2 else s).
  destruct (st.1 !! key) as [fs0|] eqn:Hhit.
  - intros [= -> <-]. by rewrite Hhit.
  - destruct (utils.new_fs B key st.2) as [[fs1|e] wd]; [|done].
    intros [= -> <-]. cbn [fst snd]. by rewrite lookup_insert_eq.
Qed.

Lemma make_fs_from_string_memoized_witness :
  utils.make_fs_from_string demo_backends "~/media" (∅, 0%nat)
  = (Ok ("OSFS /home/app/media", 0%nat),
     ({[ "/home/app/media" := ("OSFS /home/app/media", 0%nat) ]}, 1%nat))
  ∧ utils.make_fs_from_string demo_backends "~/media"
      ({[ "/home/app/media" := ("OSFS /home/app/media", 0%nat) ]}, 1%nat)
    = (Ok ("OSFS /home/app/media", 0%nat),
       ({[ "/home/app/media" := ("OSFS /home/app/media", 0%nat) ]}, 1%nat)).
Proof.
  assert (utils.make_fs_from_string demo_backends "~/media" (∅, 0%nat)
          = (Ok ("OSFS /home/app/media", 0%nat),
             ({[ "/home/app/media" := ("OSFS /home/app/media", 0%nat) ]}, 1%nat)))
    as Hfirst by reflexivity.
  split; [exact Hfirst|].
  apply (make_fs_from_string_memoized demo_backends "~/media" (∅, 0%nat));
    [discriminate | exact Hfirst | reflexivity].
Defined.

(** X17: the cache of [make_fs_from_string] only grows, and only on
    success: a call never drops or replaces an entry; a call that raises,
    or a call for ['tempfs'], leaves the cache as it was; a call that
    returns an object for another string leaves the cache with that object
    under the string, expanded if it began with [~/]. *)
Theorem make_fs_from_string_cache {Wd Obj : Type} (B : utils.Backends Wd Obj)
    (s : string) (st : gmap string Obj * Wd) :
  match utils.make_fs_from_string B s st with
  | (r, st') =>
      st.1 ⊆ st'.1
      ∧ (s = "tempfs" → st'.1 = st.1)
      ∧ (∀ e, r = Err e → st'.1 = st.1)
      ∧ (∀ fs, r = Ok fs → s ≠ "tempfs" →
           st'.1 !! (if String.prefix "~/" s then utils.expanduser B s st.2 else s)
           = Some fs
           ∧ dom st'.1
             = {[ if String.prefix "~/" s then utils.expanduser B s st.2 else s ]}
               ∪ dom st.1)
  end.
Proof.
  unfold utils.make_fs_from_string.
  destruct (decide (s = "tempfs")) as [->|Hs].
  { rewrite bool_decide_eq_true_2 by done.
    destruct (utils.TempFS B st.2) as [r wd]. cbn [fst snd].
    split; [done|]. split; [done|]. split; done. }
  rewrite bool_decide_eq_false_2 by done. cbv zeta.
  set (key := if String.prefix "~/" s then utils.expanduser B s st.2 else s).
  destruct (st.1 !! key) as [fs0|] eqn:Hhit.
  - split; [done|]. split; [done|]. split; [done|].
    intros fs [= <-] _. split; [done|].
    apply set_eq. intros k. rewrite elem_of_union, elem_of_singleton, !elem_of_dom.
    split; [by right|]. intros [->|?]; [by eexists | done].
  - destruct (utils.new_fs B key st.2) as [[fs1|e] wd]; cbn [fst snd].
    + split; [by apply insert_subseteq|]. split; [done|]. split; [done|].
      intros fs [= <-] _. split; [apply lookup_insert_eq|].
      by rewrite dom_insert_L.
    + split; [done|]. split; [done|]. split; done.
Qed.

Lemma split_slash_app (bucket path : string) :
  mode_has "/" bucket = false →
  split_slash (bucket +:+ "/" +:+ path) = (bucket, path)
  ∧ mode_has "/" (bucket +:+ "/" +:+ path) = true.
Proof.
  unfold mode_has.
  induction bucket as [|c bucket IH]; [by split|].
  cbn [String.list_ascii_of_string existsb].
  intros [Hc Hb]%orb_false_iff. destruct (IH Hb) as [IH1 IH2].
  change (String c bucket +:+ "/" +:+ path)
    with (String c (bucket +:+ "/" +:+ path)).
  cbn [split_slash String.list_ascii_of_string existsb]. unfold is_slash.
  by rewrite (Ascii.eqb_sym c "/"), Hc, IH1, IH2.
Qed.

(** X18: how a storage string for S3 is read: of ['s3:' + bucket + '/' +
    path], with no slash in [bucket], the bucket name goes to the [S3FS]
    constructor and [path], if it is not empty, to [makeopendir] on the
    object made; with an empty [path], as after a trailing slash, the
    bucket's object itself is returned and cached.  An error of either
    call is raised and nothing is cached. *)
Theorem make_fs_from_string_s3 {Wd Obj : Type} (B : utils.Backends Wd Obj)
    (bucket path : string) (st : gmap string Obj * Wd) :
  mode_has "/" bucket = false →
  st.1 !! ("s3:" +:+ bucket +:+ "/" +:+ path) = None →
  utils.make_fs_from_string B ("s3:" +:+ bucket +:+ "/" +:+ path) st
  = match utils.S3FS B bucket st.2 with
    | (Ok fs, wd) =>
        if bool_decide (path = "") then
          (Ok fs, (<["s3:" +:+ bucket +:+ "/" +:+ path := fs]> st.1, wd))
        else
          match utils.makeopendir B fs path wd with
          | (Ok sub, wd') =>
              (Ok sub, (<["s3:" +:+ bucket +:+ "/" +:+ path := sub]> st.1, wd'))
          | (Err e, wd') => (Err e, (st.1, wd'))
          end
    | (Err e, wd) => (Err e, (st.1, wd))
    end.
Proof.
  intros Hb Hmiss. unfold utils.make_fs_from_string.
  assert (∀ x, String.prefix "~/" ("s3:" +:+ x) = false) as Hp1 by reflexivity.
  assert (∀ x, String.prefix "/" ("s3:" +:+ x) = false) as Hp2 by reflexivity.
  assert (∀ x, String.prefix "s3:" ("s3:" +:+ x) = true) as Hp3
    by (intros []; reflexivity).
  assert (∀ x, str_from 3 ("s3:" +:+ x) = x) as Hp4 by reflexivity.
  rewrite bool_decide_eq_false_2 by discriminate.
  cbv zeta. rewrite Hp1, Hmiss. unfold utils.new_fs. rewrite Hp2, Hp3, Hp4.
  destruct (split_slash_app bucket path Hb) as [-> ->].
  unfold bind, ret.
  destruct (utils.S3FS B bucket st.2) as [[fs|e] wd]; [|done].
  destruct (bool_decide (path = "")); [done|].
  by destruct (utils.makeopendir B fs path wd) as [[sub|e] wd'].
Qed.

Lemma make_fs_from_string_s3_witness :
  utils.make_fs_from_string demo_backends ("s3:" +:+ "media" +:+ "/" +:+ "img/2014")
    (∅, 0%nat)
  = (Ok ("S3FS media / img/2014", 1%nat),
     ({[ "s3:media/img/2014" := ("S3FS media / img/2014", 1%nat) ]}, 2%nat)).
Proof.
  rewrite (make_fs_from_string_s3 demo_backends "media" "img/2014" (∅, 0%nat));
    reflexivity.
Defined.


(** ** The read side of the layered view *)

Lemma exists_in_find_layer {St File} `{LayerFS St File} (path : string)
    (layers : list St) (k : nat) :
  multifs.exists_in path layers = false ↔ multifs.find_layer path layers k = None.
Proof.
  revert k. induction layers as [|fs layers IH]; intros k; simpl; [done|].
  destruct (fs_exists path fs); [|apply IH]. split; intros; discriminate.
Qed.

Lemma find_layer_first {St File} `{LayerFS St File} (path : string)
    (layers : list St) (k i : nat) :
  multifs.find_layer path layers k = Some i →
  ∃ fs, (k ≤ i)%nat ∧ layers !! (i - k)%nat = Some fs ∧ fs_exists path fs = true
        ∧ ∀ j fs', (j < i - k)%nat → layers !! j = Some fs' →
                   fs_exists path fs' = false.
Proof.
  revert k. induction layers as [|fs layers IH]; intros k; simpl; [done|].
  destruct (fs_exists path fs) eqn:E.
  - intros [= <-]. exists fs. rewrite Nat.sub_diag. split; [lia|].
    split; [done|]. split; [done|]. intros; lia.
  - intros Hf. destruct (IH _ Hf) as (fs1 & Hle & Hl & He & Hbefore).
    exists fs1. split; [lia|].
    replace (i - k)%nat with (S (i - S k)) by lia.
    split; [done|]. split; [done|].
    intros [|j] fs' Hj; simpl; [by intros [= <-]|].
    apply Hbefore. lia.
Qed.

Lemma getinfo_in_find_layer {St File Info} `{LayerFS St File} `{ReadFS St Info}
    (path : string) (layers : list St) (k : nat) :
  multifs.getinfo_in path layers
  = match multifs.find_layer path layers k with
    | Some i =>
        match layers !! (i - k)%nat with
        | Some fs => layer_getinfo path fs
        | None => Err (ResourceNotFoundError path)
        end
    | None => Err (ResourceNotFoundError path)
    end.
Proof.
  revert k. induction layers as [|fs layers IH]; intros k; simpl; [done|].
  destruct (fs_exists path fs) eqn:E.
  - by rewrite Nat.sub_diag.
  - rewrite (IH (S k)).
    destruct (multifs.find_layer path layers (S k)) as [i|] eqn:Hf; [|done].
    apply find_layer_first in Hf as (_ & Hle & _).
    by replace (i - k)%nat with (S (i - S k)) by lia.
Qed.



Lemma layered_exists_iff {St File} `{LayerFS St File} (path : string)
    (m : multifs.MultiFS St) :
  multifs.exists_ path m = true ↔
  ∃ fs, fs ∈ multifs.fs_sequence m ∧ fs_exists path fs = true.
Proof.
  unfold multifs.exists_.
  induction (multifs.fs_sequence m) as [|fs layers IH]; simpl.
  - split; [done|]. by intros (? & ?%elem_of_nil & _).
  - destruct (fs_exists path fs) eqn:E.
    + split; [|done]. intros _. exists fs. split; [left | done].
    + rewrite IH. split.
      * intros (fs1 & Hin & Hfs1). exists fs1. split; [by right | done].
      * intros (fs1 & [->|Hin]%elem_of_cons & Hfs1); [congruence|]. by exists fs1.
Qed.

(** X20: [exists], [isdir] and [isfile] on the layered view are true exactly
    when some layer answers true, whatever the order of the layers.  The
    layer need not be the same for the three: a path that is a file on one
    layer and a directory on another is both a file and a directory of the
    view. *)
Theorem layered_queries_any_layer {St File Info} `{LayerFS St File} `{ReadFS St Info}
    (path : string) (m : multifs.MultiFS St) :
  (multifs.exists_ path m = true ↔
     ∃ fs, fs ∈ multifs.fs_sequence m ∧ fs_exists path fs = true)
  ∧ (multifs.isdir path m = true ↔
       ∃ fs, fs ∈ multifs.fs_sequence m ∧ layer_isdir path fs = true)
  ∧ (multifs.isfile path m = true ↔
       ∃ fs, fs ∈ multifs.fs_sequence m ∧ layer_isfile path fs = true).
Proof.
  split; [apply layered_exists_iff|].
  unfold multifs.isdir, multifs.isfile.
  split; induction (multifs.fs_sequence m) as [|fs layers IH]; simpl.
  - split; [done|]. by intros (? & ?%elem_of_nil & _).
  - destruct (layer_isdir path fs) eqn:E.
    + split; [|done]. intros _. exists fs. split; [left | done].
    + rewrite IH. split.
      * intros (fs1 & Hin & Hfs1). exists fs1. split; [by right | done].
      * intros (fs1 & [->|Hin]%elem_of_cons & Hfs1); [congruence|]. by exists fs1.
  - split; [done|]. by intros (? & ?%elem_of_nil & _).
  - destruct (layer_isfile path fs) eqn:E.
    + split; [|done]. intros _. exists fs. split; [left | done].
    + rewrite IH. split.
      * intros (fs1 & Hin & Hfs1). exists fs1. split; [by right | done].
      * intros (fs1 & [->|Hin]%elem_of_cons & Hfs1); [congruence|]. by exists fs1.
Qed.

Lemma yield_unseen_spec (names : list string) (seen_paths : gset string) :
  NoDup (multifs.yield_unseen names seen_paths).1
  ∧ (∀ name, name ∈ (multifs.yield_unseen names seen_paths).1
             ↔ name ∈ names ∧ name ∉ seen_paths)
  ∧ (multifs.yield_unseen names seen_paths).2 = list_to_set names ∪ seen_paths.
Proof.
  revert seen_paths. induction names as [|x names IH]; intros seen; simpl.
  { split; [constructor|]. split; [|by rewrite (left_id_L ∅ (∪))].
    intros name. split; [by intros ?%elem_of_nil | by intros [?%elem_of_nil _]]. }
  destruct (decide (x ∈ seen)) as [Hx|Hx].
  - rewrite bool_decide_eq_true_2 by done.
    destruct (IH seen) as (Hnd & Hin & Hseen).
    split; [done|]. split.
    + intros name. rewrite Hin, elem_of_cons. split; [tauto|].
      intros [[->|?] ?]; tauto.
    + rewrite Hseen. apply set_eq. intros y.
      rewrite !elem_of_union, elem_of_singleton. split; [tauto|].
      intros [[->|?]|?]; tauto.
  - rewrite bool_decide_eq_false_2 by done.
    destruct (IH ({[x]} ∪ seen)) as (Hnd & Hin & Hseen).
    destruct (multifs.yield_unseen names ({[x]} ∪ seen)) as [ys seen'].
    cbn [fst snd] in *. split; [|split].
    + constructor; [|done]. rewrite Hin. intros [_ Hn]. apply Hn.
      by apply elem_of_union_l, elem_of_singleton.
    + intros name. rewrite !elem_of_cons, Hin.
      rewrite not_elem_of_union, not_elem_of_singleton.
      destruct (decide (name = x)) as [->|]; tauto.
    + rewrite Hseen. apply set_eq. intros y.
      rewrite !elem_of_union, elem_of_singleton. tauto.
Qed.

Lemma ilistdir_in_cons {St Info} `{ReadFS St Info}
    (path : string) (fs : St) (layers : list St) (seen_paths : gset string) :
  multifs.ilistdir_in path (fs :: layers) seen_paths
  = match (layer_ilistdir path fs).2 with
    | None =>
        ((multifs.yield_unseen (layer_ilistdir path fs).1 seen_paths).1
           ++ (multifs.ilistdir_in path layers
                 (multifs.yield_unseen (layer_ilistdir path fs).1 seen_paths).2).1,
         (multifs.ilistdir_in path layers
            (multifs.yield_unseen (layer_ilistdir path fs).1 seen_paths).2).2)
    | Some e =>
        if is_FSError e then
          ((multifs.yield_unseen (layer_ilistdir path fs).1 seen_paths).1
             ++ (multifs.ilistdir_in path layers
                   (multifs.yield_unseen (layer_ilistdir path fs).1 seen_paths).2).1,
           (multifs.ilistdir_in path layers
              (multifs.yield_unseen (layer_ilistdir path fs).1 seen_paths).2).2)
        else ((multifs.yield_unseen (layer_ilistdir path fs).1 seen_paths).1, Some e)
    end.
Proof.
  simpl. destruct (layer_ilistdir path fs) as [names raised]. cbn [fst snd].
  by destruct (multifs.yield_unseen names seen_paths) as [ys seen'].
Qed.

(** The listing of the layers [layers] given the names seen so far. *)
Lemma ilistdir_in_spec {St Info} `{ReadFS St Info}
    (path : string) (layers : list St) (seen_paths : gset string) :
  NoDup (multifs.ilistdir_in path layers seen_paths).1
  ∧ (∀ name, name ∈ (multifs.ilistdir_in path layers seen_paths).1 →
       (name ∉ seen_paths)
       ∧ ∃ fs, fs ∈ layers ∧ name ∈ (layer_ilistdir path fs).1)
  ∧ (Forall (λ fs, ∀ e, (layer_ilistdir path fs).2 = Some e → is_FSError e = true)
       layers →
     (multifs.ilistdir_in path layers seen_paths).2 = None
     ∧ ∀ fs name, fs ∈ layers → name ∈ (layer_ilistdir path fs).1 →
         name ∈ seen_paths
         ∨ name ∈ (multifs.ilistdir_in path layers seen_paths).1)
  ∧ (∀ e, (multifs.ilistdir_in path layers seen_paths).2 = Some e →
       is_FSError e = false
       ∧ ∃ fs, fs ∈ layers ∧ (layer_ilistdir path fs).2 = Some e).
Proof.
  revert seen_paths. induction layers as [|fs layers IH]; intros seen.
  { simpl. split; [constructor|]. split; [by intros ? ?%elem_of_nil|].
    split; [|done]. intros _. split; [done|]. by intros ? ? ?%elem_of_nil. }
  rewrite ilistdir_in_cons.
  destruct (yield_unseen_spec (layer_ilistdir path fs).1 seen) as (Hnd & Hin & Hseen).
  set (ys := (multifs.yield_unseen (layer_ilistdir path fs).1 seen).1) in *.
  set (seen' := (multifs.yield_unseen (layer_ilistdir path fs).1 seen).2) in *.
  destruct (IH seen') as (IHnd & IHin & IHall & IHerr).
  set (rest := multifs.ilistdir_in path layers seen') in *.
  assert (NoDup (ys ++ rest.1)
          ∧ (∀ name, name ∈ ys ++ rest.1 →
               (name ∉ seen)
               ∧ ∃ fs0, fs0 ∈ fs :: layers ∧ name ∈ (layer_ilistdir path fs0).1))
    as [Hnd2 Hin2].
  { split.
    - apply NoDup_app. split; [done|]. split; [|done].
      intros name Hy Hr. apply IHin in Hr as [Hr _]. apply Hr.
      rewrite Hseen. apply elem_of_union_l, elem_of_list_to_set.
      by apply Hin in Hy as [? _].
    - intros name [Hy|Hr]%elem_of_app.
      + apply Hin in Hy as [Hy Hs]. split; [done|]. exists fs. split; [left | done].
      + apply IHin in Hr as [Hs (fs0 & Hfs0 & Hn)]. split.
        * intros Hs'. apply Hs. rewrite Hseen. by apply elem_of_union_r.
        * exists fs0. split; [by right | done]. }
  assert (Forall (λ fs0, ∀ e, (layer_ilistdir path fs0).2 = Some e → is_FSError e = true)
            layers →
          ∀ fs0 name, fs0 ∈ fs :: layers → name ∈ (layer_ilistdir path fs0).1 →
            name ∈ seen ∨ name ∈ ys ++ rest.1) as Hall2.
  { intros Hl fs0 name [->|Hfs0]%elem_of_cons Hn.
    - destruct (decide (name ∈ seen)); [by left|]. right.
      apply elem_of_app. left. by apply Hin.
    - destruct (proj2 (IHall Hl) fs0 name Hfs0 Hn) as [Hs|Hr].
      + rewrite Hseen in Hs. apply elem_of_union in Hs as [Hs|Hs]; [|by left].
        apply elem_of_list_to_set in Hs.
        destruct (decide (name ∈ seen)); [by left|]. right.
        apply elem_of_app. left. by apply Hin.
      + right. apply elem_of_app. by right. }
  assert (∀ e, rest.2 = Some e →
            is_FSError e = false
            ∧ ∃ fs0, fs0 ∈ fs :: layers ∧ (layer_ilistdir path fs0).2 = Some e) as Herr2.
  { intros e He. destruct (IHerr e He) as [? (fs0 & ? & ?)].
    split; [done|]. exists fs0. split; [by right | done]. }
  destruct ((layer_ilistdir path fs).2) as [e|] eqn:Hraised.
  - destruct (is_FSError e) eqn:HFS; cbn [fst snd].
    + split; [done|]. split; [done|]. split; [|done].
      intros [_ Hl]%Forall_cons. split; [by apply IHall | by apply Hall2].
    + split; [done|]. split.
      { intros name Hy. apply Hin in Hy as [Hy Hs]. split; [done|].
        exists fs. split; [left | done]. }
      split.
      { intros [Hfs _]%Forall_cons. specialize (Hfs e Hraised). congruence. }
      intros e' [= <-]. split; [done|]. exists fs. split; [left | done].
  - cbn [fst snd]. split; [done|]. split; [done|]. split; [|done].
    intros [_ Hl]%Forall_cons. split; [by apply IHall | by apply Hall2].
Qed.

(** X21: [ilistdir] on the layered view yields no name twice and only
    names that some layer lists under the path.  A layer whose listing
    ends with an [FSError], as when the directory is missing there, is
    passed over without hiding the other layers: if no layer raises
    anything else, the generator ends normally and has yielded every name
    that any layer yielded.  An exception of another class ends the
    generator and is the one a layer raised. *)
Theorem ilistdir_merges_layers {St Info} `{ReadFS St Info}
    (path : string) (m : multifs.MultiFS St) :
  NoDup (multifs.ilistdir path m).1
  ∧ (∀ name, name ∈ (multifs.ilistdir path m).1 →
       ∃ fs, fs ∈ multifs.fs_sequence m ∧ name ∈ (layer_ilistdir path fs).1)
  ∧ (Forall (λ fs, ∀ e, (layer_ilistdir path fs).2 = Some e → is_FSError e = true)
       (multifs.fs_sequence m) →
     (multifs.ilistdir path m).2 = None
     ∧ ∀ fs name, fs ∈ multifs.fs_sequence m → name ∈ (layer_ilistdir path fs).1 →
         name ∈ (multifs.ilistdir path m).1)
  ∧ (∀ e, (multifs.ilistdir path m).2 = Some e →
       is_FSError e = false
       ∧ ∃ fs, fs ∈ multifs.fs_sequence m ∧ (layer_ilistdir path fs).2 = Some e).
Proof.
  unfold multifs.ilistdir.
  destruct (ilistdir_in_spec path (multifs.fs_sequence m) ∅)
    as (Hnd & Hin & Hall & Herr).
  split; [done|]. split.
  { intros name Hn. by apply Hin in Hn as [_ ?]. }
  split; [|done].
  intros Hl. destruct (Hall Hl) as [Hnone Hevery]. split; [done|].
  intros fs name Hfs Hn. destruct (Hevery fs name Hfs Hn) as [Hs|?]; [|done].
  by apply elem_of_empty in Hs.
Qed.

(** The listing of [/img] over two layers that share one name, and of
    [/doc], which the first layer has as an empty directory and the second
    as a file. *)
Example ilistdir_of_overlay :
  multifs.ilistdir "/img" demo_overlay = (["new.png"; "logo.png"; "old.png"], None)
  ∧ multifs.ilistdir "/doc" demo_overlay = ([], None)
  ∧ multifs.ilistdir "/img" demo_layered = (["logo.png"], None)
  ∧ multifs.isdir "/doc" demo_overlay = true
  ∧ multifs.isfile "/doc" demo_overlay = true.
Proof. repeat split; vm_compute; reflexivity. Qed.


(** ** Test mode of the caching filesystem *)

Lemma keeps_on_source {A} (op : M memfs.MemFS A) :
  keeps_test_mode (cachefs.on_source op).
Proof. intros c. unfold cachefs.on_source. by destruct (op _). Qed.

Lemma keeps_on_cache {A} (op : M memfs.MemFS A) :
  keeps_test_mode (cachefs.on_cache op).
Proof. intros c. unfold cachefs.on_cache. by destruct (op _). Qed.

Lemma keeps_ret {A} (a : A) : keeps_test_mode (ret a).
Proof. by intros c. Qed.

Lemma keeps_raise {A} (e : error) : keeps_test_mode (raise (A:=A) e).
Proof. by intros c. Qed.

Lemma keeps_bind {A B} (m : M cachefs.CacheFS A) (k : A → M cachefs.CacheFS B) :
  keeps_test_mode m → (∀ a, keeps_test_mode (k a)) → keeps_test_mode (bind m k).
Proof.
  intros Hm Hk c. unfold bind. specialize (Hm c).
  destruct (m c) as [[a|e] c1]; [|done].
  destruct (Hk a c1) as [? ?]. cbn [snd] in Hm. destruct Hm. split; congruence.
Qed.

Lemma keeps_try_except {A} (m : M cachefs.CacheFS A) (h : error → M cachefs.CacheFS A) :
  keeps_test_mode m → (∀ e, keeps_test_mode (h e)) → keeps_test_mode (try_except m h).
Proof.
  intros Hm Hh c. unfold try_except. specialize (Hm c).
  destruct (m c) as [[a|e] c1]; [done|].
  destruct (Hh e c1) as [? ?]. cbn [snd] in Hm. destruct Hm. split; congruence.
Qed.

Lemma keeps_try_finally {A} (m : M cachefs.CacheFS A) (f : M cachefs.CacheFS unit) :
  keeps_test_mode m → keeps_test_mode f → keeps_test_mode (try_finally m f).
Proof.
  intros Hm Hf c. unfold try_finally. specialize (Hm c).
  destruct (m c) as [r c1]. specialize (Hf c1).
  destruct (f c1) as [[[]|e] c2]; cbn [snd] in *;
    destruct Hm, Hf; split; congruence.
Qed.

Lemma keeps_purge (path : string) : keeps_test_mode (cachefs._purge path).
Proof.
  apply keeps_try_except; [apply keeps_on_cache|].
  intros []; first [apply keeps_ret | apply keeps_raise].
Qed.

Lemma keeps_open_new_file (path : string) :
  keeps_test_mode (cachefs.open_new_file path).
Proof.
  apply keeps_try_except; [apply keeps_on_cache|].
  intros []; try apply keeps_raise.
  apply keeps_bind; [apply keeps_on_cache|]. intros _. apply keeps_on_cache.
Qed.

Lemma keeps_open (normpath : string → string) (path mode : string) :
  keeps_test_mode (cachefs.open normpath path mode).
Proof.
  unfold cachefs.open.
  destruct (mode_has "w" mode || mode_has "a" mode || mode_has "+" mode).
  { apply keeps_bind; [apply keeps_on_source|]. intros f. apply keeps_ret. }
  apply keeps_try_except.
  { apply keeps_bind; [apply keeps_on_cache|]. intros f. apply keeps_ret. }
  intros []; try apply keeps_raise.
  apply keeps_bind; [apply keeps_on_source|]. intros old_file.
  apply keeps_bind; [apply keeps_open_new_file|]. intros new_file.
  apply keeps_bind; [apply keeps_on_source|]. intros [data old_file'].
  apply keeps_bind; [apply keeps_on_cache|]. intros _.
  apply keeps_bind; [apply keeps_on_cache|]. intros _.
  destruct (str_eq mode "rb"); [apply keeps_ret|].
  apply keeps_bind; [apply keeps_on_source|]. intros _.
  apply keeps_bind; [apply keeps_on_cache|]. intros f. apply keeps_ret.
Qed.

Lemma keeps_setcontents (normpath : string → string) (path data : string) :
  keeps_test_mode (cachefs.setcontents normpath path data).
Proof. apply keeps_try_finally; [apply keeps_on_source | apply keeps_purge]. Qed.

Lemma keeps_CacheFile_close (wrapped_close : M memfs.MemFS unit)
    (purge_path : string) :
  keeps_test_mode (cachefs.CacheFile_close wrapped_close purge_path).
Proof. apply keeps_try_finally; [apply keeps_on_source | apply keeps_purge]. Qed.

Lemma do_calls_in_test_mode (normpath : string → string) (ks : list cache_call)
    (c : cachefs.CacheFS) :
  cachefs.test_mode c = true →
  cachefs.test_mode (do_calls normpath ks c) = true
  ∧ cachefs._cachefs (do_calls normpath ks c) = cachefs._cachefs c.
Proof.
  revert c. induction ks as [|k ks IH]; intros c Hc; [done|].
  unfold do_calls. simpl. fold (do_calls normpath ks (do_call normpath k c)).
  assert (cachefs.test_mode (do_call normpath k c) = true
          ∧ cachefs._cachefs (do_call normpath k c) = cachefs._cachefs c) as [H1 H2].
  { destruct k as [path mode|path data|f p|]; simpl.
    - destruct (keeps_open normpath path mode c). split; congruence.
    - destruct (keeps_setcontents normpath path data c). split; congruence.
    - destruct (keeps_CacheFile_close (memfs.close f) p c). split; congruence.
    - unfold cachefs.enable_test_mode. by rewrite Hc. }
  destruct (IH _ H1) as [? ?]. split; congruence.
Qed.

(** X22: test mode keeps the real cache out of the way.  Switching it on
    puts a fresh empty cache backend in place; whatever is opened, written
    and closed through the caching filesystem afterwards, and however often
    test mode is switched on again, switching it off brings back the cache
    backend that was there before, in the state it was in, so that nothing
    was read from it, written to it or removed from it. *)
Theorem test_mode_round_trip (normpath : string → string) (ks : list cache_call)
    (c : cachefs.CacheFS) :
  cachefs.test_mode c = false →
  memfs.files (cachefs.cachefs (cachefs.enable_test_mode c)) = ∅
  ∧ cachefs.cachefs
      (cachefs.disable_test_mode (do_calls normpath ks (cachefs.enable_test_mode c)))
    = cachefs.cachefs c
  ∧ cachefs.test_mode
      (cachefs.disable_test_mode (do_calls normpath ks (cachefs.enable_test_mode c)))
    = false.
Proof.
  intros Hc.
  assert (cachefs.test_mode (cachefs.enable_test_mode c) = true
          ∧ cachefs._cachefs (cachefs.enable_test_mode c) = Some (cachefs.cachefs c))
    as [Hon Hsaved].
  { unfold cachefs.enable_test_mode. by rewrite Hc. }
  split.
  { unfold cachefs.enable_test_mode. by rewrite Hc. }
  destruct (do_calls_in_test_mode normpath ks _ Hon) as [Hon' Hsaved'].
  unfold cachefs.disable_test_mode. rewrite Hon'. cbn.
  by rewrite Hsaved', Hsaved.
Qed.

Lemma test_mode_round_trip_witness :
  cachefs.test_mode demo_cachefs_stale = false
  ∧ cachefs.cachefs
      (cachefs.disable_test_mode
         (do_calls normpath_id
            [DoOpen "/img/logo.png" "rb"; DoSetcontents "/img/logo.png" "new";
             DoEnableTestMode; DoOpen "/img/logo.png" "r"]
            (cachefs.enable_test_mode demo_cachefs_stale)))
    = cachefs.cachefs demo_cachefs_stale.
Proof.
  split; [reflexivity|].
  apply (test_mode_round_trip normpath_id
           [DoOpen "/img/logo.png" "rb"; DoSetcontents "/img/logo.png" "new";
            DoEnableTestMode; DoOpen "/img/logo.png" "r"]
           demo_cachefs_stale eq_refl).
Defined.

(** ** The write path of the caching filesystem *)

(** X23: a write-mode [open] on the caching filesystem goes to the wrapped
    filesystem only and leaves the cache backend untouched; what it returns
    wraps the file object of the wrapped filesystem.  Closing that wrapper,
    in whatever state the filesystems are by then, closes the wrapped file
    and then, whether that [close] returned or raised, makes one [remove]
    of the path on the cache backend, after which the cache backend has no
    entry for the path and its other entries as before.  Unless the path is
    a directory of the cache backend, the outcome of closing the wrapper is
    the outcome of the wrapped [close]: what it returned, or the exception
    it raised. *)
Theorem cache_write_open_and_close (normpath : string → string) (c : cachefs.CacheFS)
    (path mode : string) :
  is_write_mode mode = true →
  cachefs.open normpath path mode c
  = (match (memfs.open (normpath path) mode (cachefs.wrapped_fs c)).1 with
     | Ok f => Ok (cachefs.CacheFile f mode (normpath path))
     | Err e => Err e
     end,
     cachefs.mkCacheFS
       (memfs.open (normpath path) mode (cachefs.wrapped_fs c)).2
       (cachefs.cachefs c) (cachefs.test_mode c) (cachefs._cachefs c))
  ∧ ∀ (wrapped_close : M memfs.MemFS unit) (c1 : cachefs.CacheFS),
      cachefs.wrapped_fs
        (cachefs.CacheFile_close wrapped_close (normpath path) c1).2
      = (wrapped_close (cachefs.wrapped_fs c1)).2
      ∧ memfs.files
          (cachefs.cachefs
             (cachefs.CacheFile_close wrapped_close (normpath path) c1).2)
          !! normpath path = None
      ∧ (∀ q, q ≠ normpath path →
           memfs.files
             (cachefs.cachefs
                (cachefs.CacheFile_close wrapped_close (normpath path) c1).2) !! q
           = memfs.files (cachefs.cachefs c1) !! q)
      ∧ memfs.calls
          (cachefs.cachefs
             (cachefs.CacheFile_close wrapped_close (normpath path) c1).2)
        = memfs.calls (cachefs.cachefs c1) ++ [memfs.CallRemove (normpath path)]
      ∧ (memfs.has_dir (normpath path) (cachefs.cachefs c1) = false →
         (cachefs.CacheFile_close wrapped_close (normpath path) c1).1
         = (wrapped_close (cachefs.wrapped_fs c1)).1)
      ∧ ∀ f : memfs.File,
          memfs.calls
            (cachefs.wrapped_fs
               (cachefs.CacheFile_close (memfs.close f) (normpath path) c1).2)
          = memfs.calls (cachefs.wrapped_fs c1) ++ [memfs.CallClose (memfs.fh_path f)].
Proof.
  intros Hmode. split.
  - unfold cachefs.open.
    replace (mode_has "w" mode || mode_has "a" mode || mode_has "+" mode) with true.
    2:{ symmetry. unfold is_write_mode in Hmode.
        destruct (mode_has "w" mode), (mode_has "a" mode), (mode_has "+" mode); done. }
    unfold bind, cachefs.on_source, ret.
    by destruct (memfs.open (normpath path) mode (cachefs.wrapped_fs c)) as [[f|e] s].
  - intros wrapped_close c1.
    assert (∀ wc : M memfs.MemFS unit,
              ∃ rp cf,
                cachefs.CacheFile_close wc (normpath path) c1
                = (match rp with Ok _ => (wc (cachefs.wrapped_fs c1)).1 | Err e => Err e end,
                   cachefs.mkCacheFS (wc (cachefs.wrapped_fs c1)).2 cf
                     (cachefs.test_mode c1) (cachefs._cachefs c1))
                ∧ memfs.files cf !! normpath path = None
                ∧ (∀ q, q ≠ normpath path →
                     memfs.files cf !! q = memfs.files (cachefs.cachefs c1) !! q)
                ∧ memfs.calls cf
                  = memfs.calls (cachefs.cachefs c1) ++ [memfs.CallRemove (normpath path)]
                ∧ (memfs.has_dir (normpath path) (cachefs.cachefs c1) = false
                   → rp = Ok tt)) as Hclose.
    { intros wc. unfold cachefs.CacheFile_close, try_finally, cachefs.on_source.
      destruct (wc (cachefs.wrapped_fs c1)) as [r0 src'].
      destruct (purge_spec (normpath path)
                  (cachefs.mkCacheFS src' (cachefs.cachefs c1) (cachefs.test_mode c1)
                     (cachefs._cachefs c1)))
        as (rp & cf & Hpurge & Hnone & Hother & Hcalls & _ & _ & Hok).
      rewrite Hpurge. exists rp, cf. cbn [fst snd cachefs.cachefs] in *.
      split; [by destruct rp as [[]|e]|]. done. }
    destruct (Hclose wrapped_close) as (rp & cf & -> & Hnone & Hother & Hcalls & Hok).
    cbn [fst snd cachefs.cachefs cachefs.wrapped_fs].
    split; [done|]. split; [done|]. split; [done|]. split; [done|].
    split; [by intros ->%Hok|].
    intros f. by destruct (Hclose (memfs.close f)) as (rp' & cf' & -> & _).
Qed.

Lemma cache_write_open_and_close_witness :
  is_write_mode "wb" = true
  ∧ ∃ f c',
      cachefs.open normpath_id "/img/logo.png" "wb" demo_cachefs_stale
      = (Ok (cachefs.CacheFile f "wb" "/img/logo.png"), c')
      ∧ memfs.files (cachefs.cachefs c') !! "/img/logo.png" = Some "old"
      ∧ memfs.has_dir "/img/logo.png" (cachefs.cachefs c') = false
      ∧ memfs.files
          (cachefs.cachefs
             (cachefs.CacheFile_close (raise (OSError "/img/logo.png"))
                "/img/logo.png" c').2)
          !! "/img/logo.png" = None
      ∧ (cachefs.CacheFile_close (raise (OSError "/img/logo.png"))
           "/img/logo.png" c').1
        = Err (OSError "/img/logo.png")
      ∧ memfs.files
          (cachefs.cachefs
             (cachefs.CacheFile_close (memfs.close f) "/img/logo.png" c').2)
          !! "/img/logo.png" = None.
Proof.
  split; [reflexivity|].
  destruct (cache_write_open_and_close normpath_id demo_cachefs_stale
              "/img/logo.png" "wb" eq_refl) as [Hopen Hclose].
  eexists _, _. split; [exact Hopen|]. split; [reflexivity|].
  split; [reflexivity|].
  split; [apply (Hclose (raise (OSError "/img/logo.png")))|].
  split; [by apply (Hclose (raise (OSError "/img/logo.png")))|].
  apply (Hclose (memfs.close _)).
Defined.

(** X24: [setcontents] on the caching filesystem removes from the cache
    backend the entry of the path written and no other: every other path
    has afterwards the cache entry it had, or none as before, and the
    directories of the cache backend are the same. *)
Theorem setcontents_purges_one_entry (normpath : string → string)
    (c : cachefs.CacheFS) (path data : string) (q : string) :
  q ≠ normpath path →
  memfs.files (cachefs.cachefs (cachefs.setcontents normpath path data c).2) !! q
  = memfs.files (cachefs.cachefs c) !! q
  ∧ memfs.dirs (cachefs.cachefs (cachefs.setcontents normpath path data c).2)
    = memfs.dirs (cachefs.cachefs c).
Proof.
  intros Hq. unfold cachefs.setcontents, try_finally, cachefs.on_source.
  destruct (memfs.setcontents (normpath path) data (cachefs.wrapped_fs c)) as [r0 src'].
  destruct (purge_spec (normpath path)
              (cachefs.mkCacheFS src' (cachefs.cachefs c) (cachefs.test_mode c)
                 (cachefs._cachefs c)))
    as (rp & cf & Hpurge & _ & Hother & _ & Hdirs & _).
  rewrite Hpurge. destruct rp as [[]|e]; cbn; by rewrite ?Hother.
Qed.

Lemma setcontents_purges_one_entry_witness :
  memfs.files
    (cachefs.cachefs
       (cachefs.setcontents normpath_id "/img/other.png" "new" demo_cachefs_stale).2)
    !! "/img/logo.png"
  = Some "old".
Proof.
  rewrite (proj1 (setcontents_purges_one_entry normpath_id demo_cachefs_stale
                    "/img/other.png" "new" "/img/logo.png" ltac:(discriminate))).
  reflexivity.
Defined.

(** X25: an exception raised by the purge replaces the outcome of the
    write.  When the cache backend has a directory at the path, its
    [remove] raises [ResourceInvalidError], which [_purge] does not catch:
    [setcontents] then raises that error although the write on the wrapped
    filesystem has been made, successfully or not. *)
Theorem setcontents_purge_error_replaces_outcome (normpath : string → string)
    (c : cachefs.CacheFS) (path data : string) :
  memfs.has_file (normpath path) (cachefs.cachefs c) = false →
  memfs.has_dir (normpath path) (cachefs.cachefs c) = true →
  (cachefs.setcontents normpath path data c).1
  = Err (ResourceInvalidError (normpath path))
  ∧ cachefs.wrapped_fs (cachefs.setcontents normpath path data c).2
    = (memfs.setcontents (normpath path) data (cachefs.wrapped_fs c)).2.
Proof.
  intros Hf Hd. unfold cachefs.setcontents, try_finally, cachefs.on_source.
  destruct (memfs.setcontents (normpath path) data (cachefs.wrapped_fs c)) as [r0 src'].
  unfold cachefs._purge, try_except, cachefs.on_cache, memfs.remove. cbn.
  change (memfs.has_file (normpath path)
            (memfs.log (memfs.CallRemove (normpath path)) (cachefs.cachefs c)))
    with (memfs.has_file (normpath path) (cachefs.cachefs c)).
  change (memfs.has_dir (normpath path)
            (memfs.log (memfs.CallRemove (normpath path)) (cachefs.cachefs c)))
    with (memfs.has_dir (normpath path) (cachefs.cachefs c)).
  by rewrite Hf, Hd.
Qed.

Lemma setcontents_purge_error_replaces_outcome_witness :
  (memfs.setcontents "/img" "data" (cachefs.wrapped_fs demo_cachefs_dir_cached)).1
  = Ok tt
  ∧ (cachefs.setcontents normpath_id "/img" "data" demo_cachefs_dir_cached).1
    = Err (ResourceInvalidError "/img")
  ∧ memfs.files
      (cachefs.wrapped_fs
         (cachefs.setcontents normpath_id "/img" "data" demo_cachefs_dir_cached).2)
      !! "/img" = Some "data".
Proof.
  destruct (setcontents_purge_error_replaces_outcome normpath_id
              demo_cachefs_dir_cached "/img" "data" eq_refl eq_refl) as [Hr Hw].
  split; [reflexivity|]. split; [exact Hr|]. rewrite Hw. reflexivity.
Defined.


(** ** Reads of a path that is not there *)

(** X26: a read-mode [open] on the layered view of a path that exists on
    no layer changes nothing: the repair of missing directories is for
    write modes only, so no directory is made on the write layer.  The
    inherited [open] raises [ResourceNotFoundError] for the path; the
    handler of the context manager catches it and evaluates [fs.writefs].
    On an instance whose [writefs] was assigned, to [None] or to a layer,
    the [ResourceNotFoundError] is raised again; on an instance whose
    [writefs] was never assigned, that evaluation raises [AttributeError],
    which is what the caller gets. *)
Theorem read_open_of_missing_path {St File} `{LayerFS St File}
    (path mode : string) (m : multifs.MultiFS St) :
  is_read_mode mode = true →
  multifs.exists_ path m = false →
  multifs.open path mode m
  = (Err (match multifs.writefs m with
          | multifs.NoAttribute => multifs.no_writefs
          | multifs.WriteNone | multifs.WriteLayer _ => ResourceNotFoundError path
          end), m).
Proof.
  intros Hmode Hex.
  apply is_read_mode_flags in Hmode as (Hw & Ha & Hp).
  apply (exists_in_find_layer path _ 0) in Hex.
  unfold multifs.open, multifs.retry_if_created,
    multifs._autocreate_missing_writefs_directory, try_except, multifs.super_open.
  rewrite Hw, Ha, Hp. cbn [orb]. rewrite Hex. cbn [multifs.autocreate_catches].
  by destruct (multifs.writefs m).
Qed.

Lemma read_open_of_missing_path_witness :
  multifs.open "/img/none.png" "rb" demo_layered
  = (Err (ResourceNotFoundError "/img/none.png"), demo_layered)
  ∧ multifs.open "/img/none.png" "rb" demo_layered_unset
    = (Err (AttributeError "'MultiFS' object has no attribute 'writefs'"),
       demo_layered_unset).
Proof.
  split.
  - apply (read_open_of_missing_path "/img/none.png" "rb" demo_layered);
      reflexivity.
  - apply (read_open_of_missing_path "/img/none.png" "rb" demo_layered_unset);
      reflexivity.
Defined.

(** X27: a read-mode [open] on the caching filesystem that misses the
    cache opens the file on the wrapped filesystem before it touches the
    cache for writing: if that [open] raises, as for a path the source does
    not have, the same error is raised and the cache backend holds the
    files and directories it held, so that no empty entry is left behind. *)
Theorem cache_miss_on_unreadable_source (normpath : string → string)
    (c : cachefs.CacheFS) (path mode : string) (e : error) (src' : memfs.MemFS) :
  is_read_mode mode = true →
  memfs.files (cachefs.cachefs c) !! normpath path = None →
  memfs.has_dir (normpath path) (cachefs.cachefs c) = false →
  memfs.open (normpath path) "rb" (cachefs.wrapped_fs c) = (Err e, src') →
  ∃ c',
    cachefs.open normpath path mode c = (Err e, c')
    ∧ cachefs.wrapped_fs c' = src'
    ∧ memfs.files (cachefs.cachefs c') = memfs.files (cachefs.cachefs c)
    ∧ memfs.dirs (cachefs.cachefs c') = memfs.dirs (cachefs.cachefs c).
Proof.
  intros Hmode Hmiss Hnd Hsrc.
  pose proof Hmode as Hmode'.
  apply is_read_mode_flags in Hmode' as (Hw & Ha & Hp).
  unfold cachefs.open. rewrite Hw, Ha, Hp. cbn [orb].
  unfold try_except, bind, cachefs.on_cache at 1.
  rewrite (memfs_open_read_miss _ _ _ Hw Ha Hmiss Hnd).
  unfold cachefs.on_source at 1. cbn [cachefs.wrapped_fs]. rewrite Hsrc.
  eexists. split; [reflexivity|]. done.
Qed.

Lemma cache_miss_on_unreadable_source_witness :
  ∃ c',
    cachefs.open normpath_id "/img/none.png" "r" demo_cachefs
    = (Err (ResourceNotFoundError "/img/none.png"), c')
    ∧ memfs.files (cachefs.cachefs c') = memfs.files (cachefs.cachefs demo_cachefs).
Proof.
  destruct (cache_miss_on_unreadable_source normpath_id demo_cachefs "/img/none.png" "r"
              (ResourceNotFoundError "/img/none.png")
              (memfs.log (memfs.CallOpen "/img/none.png" "rb")
                 (cachefs.wrapped_fs demo_cachefs)))
    as (c' & Hopen & _ & Hfiles & _); try reflexivity.
  exists c'. split; [exact Hopen | exact Hfiles].
Defined.

(** ** upload_file when the directory cannot be made *)

(** X28: [upload_file] gives up at once when the target's [makedir]
    raises: if the parent of the path is a file on the in-memory target,
    the first [copy_file] fails for want of the directory, [makedir] raises
    [ResourceInvalidError], and [upload_file] raises that error after this
    one attempt, with the target's files as they were. *)
Theorem upload_file_parent_is_file (path data other : string) (src tgt : memfs.MemFS) :
  memfs.files src !! path = Some data →
  memfs.has_dir path tgt = false →
  memfs.has_dir (dirname path) tgt = false →
  memfs.files tgt !! dirname path = Some other →
  ∃ w',
    sync.upload_file path (src, tgt) = (Err (ResourceInvalidError (dirname path)), w')
    ∧ memfs.files w'.2 = memfs.files tgt
    ∧ sync.upload_attempts path (src, tgt) = 1%nat.
Proof.
  intros Hs Hp Hd Hf.
  assert (∃ w',
            sync.upload_loop 100 0 path (src, tgt)
            = ((Err (ResourceInvalidError (dirname path)), w'), 1%nat)
            ∧ memfs.files w'.2 = memfs.files tgt) as (w' & Hl & H1).
  2:{ unfold sync.upload_file, sync.upload_attempts. rewrite Hl. by exists w'. }
  change 100%nat with (S 99). rewrite upload_loop_S.
  destruct (memfs_copy_onto path path data src tgt Hs Hp)
    as (w1 & Hc & Hs1 & Hf1 & Hd1 & Hp1).
  rewrite Hd in Hc, Hf1. unfold memfs.missing_parent in Hc.
  assert (∃ t2, target_makedir (dirname path) w1
                = (Err (ResourceInvalidError (dirname path)), (w1.1, t2))
                ∧ memfs.files t2 = memfs.files tgt) as (t2 & Hm & Hf2).
  { simpl. unfold memfs.makedir.
    assert (memfs.has_file (dirname path)
              (memfs.log (memfs.CallMakedir (dirname path)) w1.2) = true) as ->.
    { unfold memfs.has_file. simpl. rewrite Hf1, Hf.
      apply bool_decide_eq_true_2. by eexists. }
    eexists. split; [reflexivity|]. done. }
  exists (w1.1, t2). split; [|done].
  destruct (memfs.raises_pdm tgt) eqn:Hpdm.
  - unfold utils.copy_file. simpl copyfile. rewrite Hc, Hm. done.
  - unfold utils.copy_file. simpl copyfile. rewrite Hc.
    rewrite (memfs_source_exists path data w1) by by rewrite Hs1.
    by rewrite Hm.
Qed.

Lemma upload_file_parent_is_file_witness :
  ∃ w',
    sync.upload_file "/img/logo.png"
      (memfs.make "source" false [("/img/logo.png", "png")] ["/img"],
       memfs.make "target" true [("/img", "not a directory")] [])
    = (Err (ResourceInvalidError "/img"), w')
    ∧ sync.upload_attempts "/img/logo.png"
        (memfs.make "source" false [("/img/logo.png", "png")] ["/img"],
         memfs.make "target" true [("/img", "not a directory")] [])
      = 1%nat.
Proof.
  destruct (upload_file_parent_is_file "/img/logo.png" "png" "not a directory"
              (memfs.make "source" false [("/img/logo.png", "png")] ["/img"])
              (memfs.make "target" true [("/img", "not a directory")] []))
    as (w' & Hu & _ & Hn); try (vm_compute; reflexivity).
  exists w'. split; [exact Hu | exact Hn].
Defined.


(** ** sync_fs on trees without directories *)

Lemma filter_all {A} (P : A → Prop) `{∀ x, Decision (P x)} (l : list A) :
  Forall P l → filter P l = l.
Proof.
  induction 1 as [|x l Hx _ IH]; [done|]. by rewrite filter_cons_True, IH.
Qed.

Lemma memfs_flat_has_dir (fs : memfs.MemFS) (p : string) :
  flat_tree fs → memfs.has_dir p fs = memfs.is_root p.
Proof.
  intros [Hd _]. unfold memfs.has_dir. rewrite Hd.
  rewrite bool_decide_eq_false_2; [apply orb_false_r | apply not_elem_of_empty].
Qed.

(** The walk of a tree without directories is its listing. *)
Lemma memfs_flat_listing (depth : nat) (fs : memfs.MemFS) :
  flat_tree fs → is_listing fs (utils.walk_files depth fs "/" true).
Proof.
  intros Hflat. pose proof Hflat as [Hdirs Hfiles].
  unfold utils.walk_files. rewrite walk_fs_unfold. cbv zeta.
  assert (map (λ entry : string * gmap string Z,
                 utils.mkWalkNode entry.1 (fs_isdir entry.1 fs)
                   (default 0 (entry.2 !! "size")))
              (ilistdirinfo "/" fs)
          = nodes_of (map_to_list (memfs.files fs))) as ->.
  { simpl. unfold memfs.listdirinfo. rewrite Hdirs, elements_empty. simpl.
    rewrite app_nil_r, filter_all.
    2:{ apply Forall_forall. intros [k v] Hkv. simpl.
        apply elem_of_map_to_list in Hkv. apply Hfiles. by eexists. }
    unfold nodes_of. rewrite map_map. apply map_ext_in. intros [k v] Hkv. simpl.
    apply list_elem_of_In, elem_of_map_to_list in Hkv.
    rewrite (memfs_flat_has_dir fs k Hflat).
    destruct (Hfiles k) as [_ ->]; [by eexists|].
    by rewrite lookup_singleton_eq. }
  set (nodes := nodes_of (map_to_list (memfs.files fs))).
  assert (Forall (λ node, utils.isdir node = false) nodes) as Hnodir.
  { apply Forall_forall. intros node Hin. unfold nodes, nodes_of in Hin.
    by apply list_elem_of_fmap in Hin as (kv & -> & _). }
  rewrite flat_map_singletons.
  2:{ apply Forall_forall. intros node Hin. rewrite merge_sort_Permutation in Hin.
      rewrite Forall_forall in Hnodir. by rewrite (Hnodir node Hin). }
  split.
  - apply StronglySorted_filter, node_le_sorted_paths.
    + apply StronglySorted_merge_sort; apply _.
    + unfold sync.paths.
      rewrite (fmap_Permutation utils.path _ _ (merge_sort_Permutation _ nodes)).
      unfold nodes, nodes_of. rewrite <- list_fmap_compose.
      apply (NoDup_fst_map_to_list (memfs.files fs)).
  - intros n. rewrite list_elem_of_filter, merge_sort_Permutation.
    unfold nodes, nodes_of. rewrite list_elem_of_fmap. split.
    + intros [Hd ([k v] & -> & Hkv)]. split; [done|].
      apply elem_of_map_to_list in Hkv. by exists v.
    + intros [Hd (data & Hdata & Hsize)]. split; [done|].
      exists (utils.path n, data). split; [|by apply elem_of_map_to_list].
      destruct n as [pn dn sn]. simpl in *. by subst.
Qed.

Lemma memfs_remove_dirs p fs : memfs.dirs (memfs.remove p fs).2 = memfs.dirs fs.
Proof.
  unfold memfs.remove.
  destruct (memfs.has_file p _); [done|]. by destruct (memfs.has_dir p _).
Qed.

(** A run succeeds when every upload finds its file on the source and a
    free path under an existing directory on the target, and every delete
    finds its file on the target. *)
Lemma memfs_run_actions_succeeds (actions : list sync.action)
    (w : memfs.MemFS * memfs.MemFS) :
  NoDup actions.*2 →
  (∀ p, (sync.Upload, p) ∈ actions →
     is_Some (memfs.files w.1 !! p)
     ∧ memfs.has_dir p w.2 = false ∧ memfs.has_dir (dirname p) w.2 = true) →
  (∀ p, (sync.Delete, p) ∈ actions → is_Some (memfs.files w.2 !! p)) →
  ∃ w', sync.run_actions actions w = (Ok tt, w').
Proof.
  revert w. induction actions as [|[f p] actions IH]; intros w Hnd Hup Hdel.
  { by eexists. }
  apply NoDup_cons in Hnd as [Hfresh Hnd]. simpl in Hfresh.
  rewrite run_actions_cons.
  assert (∀ f' q, (f', q) ∈ actions → q ≠ p) as Hother.
  { intros f' q Hin ->. apply Hfresh. apply list_elem_of_fmap. by exists (f', p). }
  assert (∃ w1,
            sync.perform (f, p) w = (Ok tt, w1)
            ∧ memfs.files w1.1 = memfs.files w.1
            ∧ memfs.dirs w1.2 = memfs.dirs w.2
            ∧ ∀ q, q ≠ p → memfs.files w1.2 !! q = memfs.files w.2 !! q)
    as (w1 & -> & Hs1 & Hd1 & Hf1).
  { destruct f; unfold sync.perform; cbn [fst snd].
    - destruct (Hup p) as ([data Hdata] & Hfree & Hparent); [left|].
      destruct w as [src tgt]. cbn [fst snd] in *.
      destruct (memfs_copy_onto p p data src tgt Hdata Hfree)
        as (w1 & Hc & Hsrc & Hfiles & Hdirs & _).
      rewrite Hparent in Hc, Hfiles.
      exists w1. split.
      + unfold sync.upload_file. change 100%nat with (S 99).
        rewrite upload_loop_S. unfold utils.copy_file. simpl copyfile.
        by rewrite Hc.
      + split; [done|]. split; [done|].
        intros q Hq. rewrite Hfiles. by apply lookup_insert_ne.
    - destruct (Hdel p) as [data Hdata]; [left|].
      unfold sync.delete_file. simpl.
      pose proof (memfs_remove_dirs p w.2) as Hdirs.
      destruct (memfs.remove p w.2) as [r t'] eqn:Hr.
      pose proof (memfs_remove_files _ _ _ _ Hr) as Hfiles.
      assert (r = Ok tt) as ->.
      { revert Hr. unfold memfs.remove, memfs.has_file. simpl.
        rewrite bool_decide_eq_true_2 by by eexists. by intros [= <- _]. }
      exists (w.1, t'). split; [done|]. split; [done|]. split; [done|].
      intros q Hq. cbn [snd]. rewrite Hfiles. by apply lookup_delete_ne.
    - exists w. by unfold sync.skip_file. }
  apply IH; [done| |].
  - intros q Hq. destruct (Hup q) as (? & ? & ?); [by right|].
    rewrite Hs1, !(memfs_has_dir_dirs _ w1.2 w.2) by done. done.
  - intros q Hq. rewrite Hf1 by by eapply Hother.
    apply Hdel. by right.
Qed.

(** A generator whose directory holds files only reads the filesystem at
    its first [next] and never again. *)
Lemma enter_nil {St} `{WalkFS St} (max_depth : nat) (fs : St) (sort : bool) :
  utils.enter max_depth fs sort [] = None.
Proof. by destruct max_depth. Qed.

Lemma files_from_files_only {St} `{WalkFS St} (max_depth : nat) (fs : St)
    (sort : bool) (nodes : list utils.WalkNode) :
  Forall (λ node, utils.isdir node = false) nodes →
  files_from max_depth fs sort nodes = nodes.
Proof.
  induction 1 as [|node rest Hnode _ IH]; [done|].
  by rewrite files_from_cons, Hnode, IH.
Qed.

Lemma walk_gen_files_only {W St} `{WalkFS St} (proj : W → St) (sort : bool)
    (max_depth : nat) (rest : list utils.WalkNode) :
  Forall (λ node, utils.isdir node = false) rest →
  iter_of (λ _ : W, True) (λ files w, utils.walk_files_next (proj w) sort files)
    (utils.Suspended [(rest, max_depth)]) rest.
Proof.
  induction 1 as [|node rest Hnode _ IH]; simpl; intros w _.
  - by rewrite enter_nil.
  - rewrite enter_cons, Hnode. simpl. by split.
Qed.

Lemma walk_gen_first_files_only {W St} `{WalkFS St} (proj : W → St) (sort : bool)
    (path0 : string) (max_depth : nat) (w : W) :
  Forall (λ node, utils.isdir node = false) (utils.list_nodes (proj w) path0 sort) →
  at_node (λ _ : W, True) (λ files w, utils.walk_files_next (proj w) sort files)
    (utils.walk_files_next (proj w) sort (utils.Unstarted path0 max_depth)).1
    (utils.walk_files_next (proj w) sort (utils.Unstarted path0 max_depth)).2
    (utils.walk_files max_depth (proj w) path0 sort).
Proof.
  intros Hfiles. rewrite walk_files_from, files_from_files_only by done.
  cbn [utils.walk_files_next utils.resume].
  destruct Hfiles as [|node rest Hnode Hrest].
  - by rewrite enter_nil.
  - rewrite enter_cons, Hnode. simpl. split; [done|].
    by apply walk_gen_files_only.
Qed.

Lemma memfs_flat_nodes (fs : memfs.MemFS) :
  flat_tree fs →
  Forall (λ node, utils.isdir node = false) (utils.list_nodes fs "/" true).
Proof.
  intros Hflat. unfold utils.list_nodes. cbv zeta.
  apply Forall_forall. intros node Hin. rewrite merge_sort_Permutation in Hin.
  apply list_elem_of_fmap in Hin as ([k info] & -> & Hin). simpl.
  rewrite (memfs_flat_has_dir fs k Hflat).
  destruct Hflat as [Hdirs Hfiles].
  change (ilistdirinfo "/" fs) with (memfs.listdirinfo "/" fs) in Hin.
  unfold memfs.listdirinfo in Hin. rewrite Hdirs, elements_empty in Hin.
  simpl in Hin. rewrite app_nil_r in Hin.
  apply list_elem_of_fmap in Hin as ([k' v] & [= -> _] & Hin).
  apply list_elem_of_filter in Hin as [_ Hin].
  apply elem_of_map_to_list in Hin.
  by destruct (Hfiles k') as [_ ->]; [eexists|].
Qed.

(** X29: on two in-memory trees without directories [sync_fs] always
    returns [True], leaves the source as it is, and leaves the target with
    these contents: a path of the source has the source's contents if the
    target lacked it or had a file of another size, and keeps the target's
    contents if the sizes were equal; a path of the target alone is removed
    when [delete_missing] is on and kept otherwise.  On such trees each
    walk lists its filesystem once, at the first [next], before any action
    is performed.  The loop makes at most one iteration for each file of
    either tree and one test more, which is the fuel asked for. *)
Theorem sync_fs_of_flat_trees (fuel depth : nat) (delete_missing : bool)
    (source target : memfs.MemFS) :
  flat_tree source → flat_tree target →
  (length (utils.walk_files depth source "/" true)
   + length (utils.walk_files depth target "/" true) < fuel)%nat →
  ∃ w',
    sync.sync_fs fuel depth delete_missing (source, target) = Some (Ok true, w')
    ∧ memfs.files w'.1 = memfs.files source
    ∧ ∀ p,
        memfs.files w'.2 !! p
        = match memfs.files source !! p, memfs.files target !! p with
          | Some new, Some old =>
              if bool_decide (String.length new = String.length old)
              then Some old else Some new
          | Some new, None => Some new
          | None, Some old => if delete_missing then None else Some old
          | None, None => None
          end.
Proof.
  intros Hfs Hft Hfuel.
  pose proof (memfs_flat_listing depth source Hfs) as HS.
  pose proof (memfs_flat_listing depth target Hft) as HT.
  unfold sync.sync_fs, sync.sync_fs_actions.
  rewrite (sync_files_iter_lists (λ _, True) _ _ delete_missing fuel
             (utils.walk_files depth source "/" true)
             (utils.walk_files depth target "/" true)); [| | |done|done|done].
  2:{ apply (walk_gen_first_files_only (λ w : memfs.MemFS * memfs.MemFS, w.1)
               true "/" depth (source, target)).
      by apply memfs_flat_nodes. }
  2:{ apply (walk_gen_first_files_only (λ w : memfs.MemFS * memfs.MemFS, w.2)
               true "/" depth (source, target)).
      by apply memfs_flat_nodes. }
  set (s := utils.walk_files depth source "/" true) in *.
  set (t := utils.walk_files depth target "/" true) in *.
  destruct (merge_actions_expected _ _ (proj1 HS) (proj1 HT)) as [_ Hnd].
  pose proof (NoDup_filter_actions delete_missing _ Hnd) as Hnd'.
  destruct (memfs_run_actions_succeeds
              (sync.filter_actions delete_missing (sync.merge_actions s t))
              (source, target) Hnd') as [w' Hrun].
  - intros p Hp. apply elem_of_filter_actions in Hp as [_ Hp].
    apply merge_actions_paths in Hp.
    apply list_elem_of_fmap in Hp as (n & -> & Hn).
    apply (proj2 HS) in Hn as (_ & data & Hdata & _). cbn [fst snd].
    destruct (proj2 Hfs (utils.path n)) as [Hparent Hroot]; [by eexists|].
    split; [by eexists|].
    rewrite !(memfs_flat_has_dir target) by done.
    rewrite Hparent. by split.
  - intros p Hp. apply elem_of_filter_actions in Hp as [_ Hp].
    apply merge_actions_paths in Hp.
    apply list_elem_of_fmap in Hp as (n & -> & Hn).
    apply (proj2 HT) in Hn as (_ & data & Hdata & _). by eexists.
  - exists w'. rewrite Hrun. split; [done|].
    destruct (memfs_run_actions_files _ _ _ Hnd' Hrun) as [Hsrc Htgt].
    split; [exact Hsrc|].
    by apply (memfs_contents_of_actions source target s t).
Qed.

Lemma sync_fs_of_flat_trees_witness :
  flat_tree demo_world.1 ∧ flat_tree demo_world.2
  ∧ (length (utils.walk_files 5 demo_world.1 "/" true)
     + length (utils.walk_files 5 demo_world.2 "/" true) < 7)%nat
  ∧ ∃ w',
      sync.sync_fs 7 5 true (demo_world.1, demo_world.2) = Some (Ok true, w')
      ∧ memfs.files w'.2 !! "/a.txt" = Some "xx"
      ∧ memfs.files w'.2 !! "/b.txt" = Some "bbb"
      ∧ memfs.files w'.2 !! "/c.txt" = Some "c"
      ∧ memfs.files w'.2 !! "/d.txt" = None.
Proof.
  assert (∀ fl : list (string * string),
            Forall (λ kv, dirname kv.1 = "/" ∧ memfs.is_root kv.1 = false) fl →
            ∀ name, flat_tree (memfs.make name false fl [])) as Hmake.
  { intros fl Hfl name. split; [done|]. intros p [data Hp]. simpl in Hp.
    apply elem_of_list_to_map_2 in Hp. rewrite Forall_forall in Hfl.
    exact (Hfl _ Hp). }
  assert (flat_tree demo_world.1) as Hs.
  { apply Hmake. repeat constructor. }
  assert (flat_tree demo_world.2) as Ht.
  { apply Hmake. repeat constructor. }
  assert (length (utils.walk_files 5 demo_world.1 "/" true)
          + length (utils.walk_files 5 demo_world.2 "/" true) < 7)%nat as Hfuel.
  { vm_compute. lia. }
  split; [exact Hs|]. split; [exact Ht|]. split; [exact Hfuel|].
  destruct (sync_fs_of_flat_trees 7 5 true demo_world.1 demo_world.2 Hs Ht Hfuel)
    as (w' & Hrun & _ & Hc).
  exists w'. split; [exact Hrun|].
  repeat split; rewrite Hc; vm_compute; reflexivity.
Defined.


(** ** Writing through the layered view and reading back *)

Lemma find_layer_at {St File} `{LayerFS St File} (path : string) (layers : list St)
    (k i : nat) (fs : St) :
  layers !! i = Some fs → fs_exists path fs = true →
  (∀ j fs', (j < i)%nat → layers !! j = Some fs' → fs_exists path fs' = false) →
  multifs.find_layer path layers k = Some (k + i)%nat.
Proof.
  revert k i. induction layers as [|fs0 layers IH]; intros k i Hi He Hbefore; [done|].
  simpl. destruct i as [|i].
  - simpl in Hi. injection Hi as ->. rewrite He. f_equal. lia.
  - rewrite (Hbefore 0%nat fs0) by (done || lia).
    rewrite (IH (S k) i); [f_equal; lia | done | done |].
    intros j fs' Hj Hl. apply (Hbefore (S j) fs'); [lia | done].
Qed.

(** A [setcontents] on the layered view that returns has ended with a
    [setcontents] on the write layer that returned. *)
Lemma setcontents_ok_on_layer {St File} `{LayerFS St File} (path data : string)
    (i : nat) (wfs : St) (m m' : multifs.MultiFS St) :
  multifs.writefs m = multifs.WriteLayer i →
  multifs.fs_sequence m !! i = Some wfs →
  multifs.setcontents path data m = (Ok tt, m') →
  ∃ wfs0 wfs', fs_setcontents path data wfs0 = (Ok tt, wfs') ∧ m' = with_layer i wfs' m.
Proof.
  intros Hw Hi. unfold multifs.setcontents. rewrite Hw.
  unfold multifs.retry_if_created, multifs._autocreate_missing_writefs_directory,
    try_except.
  rewrite (on_layer_eq i _ m wfs Hi).
  destruct (fs_setcontents path data wfs) as [[[]|e] wfs1] eqn:Hop; cbn [fst snd].
  { intros [= <-]. by exists wfs, wfs1. }
  assert (multifs.writefs (with_layer i wfs1 m) = multifs.WriteLayer i) as Hw1 by done.
  assert (multifs.fs_sequence (with_layer i wfs1 m) !! i = Some wfs1) as Hi1
    by by eapply with_layer_lookup.
  assert (∀ wfsA m1,
            multifs.fs_sequence m1 !! i = Some wfsA →
            with_layer i wfsA m = m1 →
            multifs.on_layer i (fs_setcontents path data) m1 = (Ok tt, m') →
            ∃ wfs0 wfs', fs_setcontents path data wfs0 = (Ok tt, wfs')
                         ∧ m' = with_layer i wfs' m) as Hretry.
  { intros wfsA m1 HiA <-. rewrite (on_layer_eq i _ _ wfsA HiA).
    destruct (fs_setcontents path data wfsA) as [[[]|e'] wfsB] eqn:HopA;
      cbn [fst snd]; [|done].
    intros [= <-]. exists wfsA, wfsB. split; [done|]. by rewrite with_layer_twice. }
  destruct (multifs.autocreate_catches e) eqn:Hcatch.
  - rewrite Hw1, Hi1. change (mode_has "w" "w") with true. cbn [orb].
    destruct (fs_exists (dirname path) wfs1); cbn [negb].
    { destruct e; try discriminate Hcatch; done. }
    unfold bind, raise. rewrite (on_layer_eq i _ _ wfs1 Hi1).
    destruct (fs_makedir (dirname path) true true wfs1) as [[[]|e'] wfs2];
      cbn [fst snd]; rewrite with_layer_twice.
    + apply (Hretry wfs2); [by eapply with_layer_lookup | done].
    + destruct e'; try done.
      apply (Hretry wfs2); [by eapply with_layer_lookup | done].
  - destruct e; try discriminate Hcatch; try done.
    apply (Hretry wfs1); done.
Qed.

(** X30: what is written through the layered view can be read back
    through it.  After [setcontents] has returned on a view over in-memory
    layers, the path exists on the view; and when no layer that is
    searched before the write layer has the path, [getinfo] reports the
    size of the data written and a read-mode [open] is sent to the write
    layer. *)
Theorem layered_write_then_read (m m' : multifs.MultiFS memfs.MemFS) (i : nat)
    (wfs : memfs.MemFS) (path data : string) :
  multifs.writefs m = multifs.WriteLayer i →
  multifs.fs_sequence m !! i = Some wfs →
  multifs.setcontents path data m = (Ok tt, m') →
  multifs.exists_ path m' = true
  ∧ ((∀ j fs, (j < i)%nat → multifs.fs_sequence m !! j = Some fs →
        fs_exists path fs = false) →
     multifs.getinfo path m' = Ok {[ "size" := Z.of_nat (String.length data) ]}
     ∧ ∀ mode, is_read_mode mode = true →
         multifs.super_open path mode m'
         = multifs.on_layer i (fs_open path mode) m').
Proof.
  intros Hw Hi Hset.
  destruct (setcontents_ok_on_layer path data i wfs m m' Hw Hi Hset)
    as (wfs0 & wfs' & Hop & ->).
  assert (memfs.files wfs' !! path = Some data) as Hfile.
  { simpl in Hop. unfold memfs.setcontents in Hop.
    apply memfs_put_files in Hop. by rewrite Hop, lookup_insert_eq. }
  assert (fs_exists path wfs' = true) as Hex.
  { simpl. unfold memfs.exists_, memfs.has_file. rewrite Hfile.
    rewrite bool_decide_eq_true_2; [done | by eexists]. }
  assert (multifs.fs_sequence (with_layer i wfs' m) !! i = Some wfs') as Hi'
    by by eapply with_layer_lookup.
  split.
  - apply (proj2 (layered_exists_iff path (with_layer i wfs' m))).
    exists wfs'. split; [|done]. by eapply list_elem_of_lookup_2.
  - intros Hbefore.
    assert (multifs.find_layer path (multifs.fs_sequence (with_layer i wfs' m)) 0
            = Some i) as Hfind.
    { apply (find_layer_at path _ 0 i wfs' Hi' Hex).
      intros j fs' Hj Hl. apply (Hbefore j fs' Hj).
      simpl in Hl. rewrite list_lookup_insert_ne in Hl by lia. done. }
    split.
    + unfold multifs.getinfo.
      rewrite (getinfo_in_find_layer path _ 0), Hfind, Nat.sub_0_r, Hi'.
      simpl. unfold memfs.getinfo. by rewrite Hfile.
    + intros mode Hmode. unfold multifs.super_open.
      apply is_read_mode_flags in Hmode as (-> & -> & ->). cbn [orb].
      by rewrite Hfind.
Qed.

Lemma layered_write_then_read_witness :
  ∃ m',
    multifs.setcontents "/img/new.png" "data" demo_layered = (Ok tt, m')
    ∧ multifs.exists_ "/img/new.png" demo_layered = false
    ∧ multifs.exists_ "/img/new.png" m' = true
    ∧ multifs.getinfo "/img/new.png" m' = Ok {[ "size" := 4 ]}.
Proof.
  eexists. split; [vm_compute; reflexivity|]. split; [reflexivity|].
  match goal with
  | |- multifs.exists_ _ ?m' = _ ∧ _ =>
      destruct (layered_write_then_read demo_layered m' 0
                  (memfs.make "layer1" false [] []) "/img/new.png" "data"
                  eq_refl eq_refl ltac:(vm_compute; reflexivity)) as [Hex Hread]
  end.
  split; [exact Hex|].
  apply Hread. intros j fs Hj. lia.
Defined.
